(** * IDSCN: individual differential structural covariance networks

    A shallow embedding of [idscn/main.py]: the partial-correlation
    network [PCC], the z-transform [Z_score], the significance step [P],
    the per-patient driver [IDSCN], the edge selection [getTopLocs], the
    two edge-aggregation loops ([subtype], [getConnection]) and the
    permutation statistics of [SCN].

    numpy arrays of dtype float64 are lists of rows over a number type
    [F]; the arithmetic the program uses is collected in the class
    [Number], with two instances: IEEE binary64 (what numpy runs, with
    its infinities and NaN) and exact rationals.  Python exceptions are
    the [Raise] results of a small error monad. *)

From Stdlib Require Import Ascii ZArith QArith Qminmax Qabs Floats Lia.
From stdpp Require Import base option list sorting strings.

Set Default Proof Using "Type".

(** ** Numbers *)

Class Number (F : Type) := {
  fofZ : Z -> F;            (* int -> float64 conversion *)
  fadd : F -> F -> F;
  fsub : F -> F -> F;
  fmul : F -> F -> F;
  fdiv : F -> F -> F;
  fabs : F -> F;
  flt  : F -> F -> bool;    (* x < y *)
  fmin : F -> F -> F;       (* np.minimum *)
  fisnan : F -> bool        (* np.isnan, x != x *)
}.

Declare Scope num_scope.
Delimit Scope num_scope with num.
Notation "x + y" := (fadd x y) : num_scope.
Notation "x - y" := (fsub x y) : num_scope.
Notation "x * y" := (fmul x y) : num_scope.
Notation "x / y" := (fdiv x y) : num_scope.
Notation "x <? y" := (flt x y) : num_scope.

Definition fzero {F} `{Number F} : F := fofZ 0.
Definition fone {F} `{Number F} : F := fofZ 1.

(** IEEE binary64.  Integers convert through the unsigned 63-bit
    conversion, the sign handled apart. *)
Definition float_of_Z (z : Z) : float :=
  if (z <? 0)%Z
  then PrimFloat.opp (PrimFloat.of_uint63 (Uint63.of_Z (- z)))
  else PrimFloat.of_uint63 (Uint63.of_Z z).

(** [np.minimum] propagates NaN. *)
Definition float_minimum (a b : float) : float :=
  if PrimFloat.is_nan a then a
  else if PrimFloat.is_nan b then b
  else if PrimFloat.ltb b a then b else a.

#[export] Instance float_Number : Number float := {|
  fofZ := float_of_Z;
  fadd := PrimFloat.add;
  fsub := PrimFloat.sub;
  fmul := PrimFloat.mul;
  fdiv := PrimFloat.div;
  fabs := PrimFloat.abs;
  flt := PrimFloat.ltb;
  fmin := float_minimum;
  fisnan := PrimFloat.is_nan
|}.

(** Exact rationals: the same program with the rounding left out. *)
#[export] Instance Q_Number : Number Q := {|
  fofZ := inject_Z;
  fadd := Qplus;
  fsub := Qminus;
  fmul := Qmult;
  fdiv := Qdiv;
  fabs := Qabs;
  flt := fun x y => negb (Qle_bool y x);
  fmin := Qmin;
  fisnan := fun _ => false
|}.

(** ** Exceptions *)

Inductive exn :=
  AssertionError | IndexError | ValueError | ZeroDivisionError.

Inductive result (A : Type) :=
  | Ok (a : A)
  | Raise (e : exn).
Arguments Ok {A} a.
Arguments Raise {A} e.

#[export] Instance result_ret : MRet result := fun _ a => Ok a.
#[export] Instance result_bind : MBind result := fun _ _ f r =>
  match r with
  | Ok a => f a
  | Raise e => Raise e
  end.

(** [for x in xs: s = body x s], stopping at the first exception. *)
Fixpoint for_each {S A : Type} (body : A -> S -> result S)
    (xs : list A) (s : S) : result S :=
  match xs with
  | [] => Ok s
  | x :: xs' => s' ← body x s; for_each body xs' s'
  end.

(** [for k in range(lo, hi)] *)
Definition for_range {S : Type} (lo hi : nat) (body : nat -> S -> result S)
    (s : S) : result S :=
  for_each body (seq lo (hi - lo)) s.

(** ** Matrices (2-d numpy arrays) *)

Abbreviation matrix F := (list (list F)) (only parsing).

Definition shape {F} (m : matrix F) : nat * nat :=
  (length m, from_option length 0 (head m)).

(** [m] has [r] rows of [c] entries each. *)
Definition shaped {F} (r c : nat) (m : matrix F) : Prop :=
  length m = r /\ Forall (fun row => length row = c) m.

(** [m[i][j]] as a read. *)
Definition mget {F} (m : matrix F) (i j : nat) : option F :=
  row ← m !! i; row !! j.

(** [m[i][j] = v]; numpy raises IndexError out of range. *)
Definition mset {F} (m : matrix F) (i j : nat) (v : F) : result (matrix F) :=
  match m !! i with
  | Some row =>
      if decide (j < length row)
      then Ok (<[i := <[j := v]> row]> m)
      else Raise IndexError
  | None => Raise IndexError
  end.

(** Elementwise operation on two arrays of one shape. *)
Definition map2 {F} (f : F -> F -> F) (a b : matrix F) : matrix F :=
  zip_with (zip_with f) a b.

Definition mmap {F G} (f : F -> G) (a : matrix F) : matrix G :=
  (fun row : list F => f <$> row) <$> a.

(** [np.ones(shape)], [np.zeros(shape)] *)
Definition np_full {F} (v : F) (sh : nat * nat) : matrix F :=
  replicate sh.1 (replicate sh.2 v).

Fixpoint transpose_rows {F} (c : nat) (m : matrix F) : matrix F :=
  match m with
  | [] => replicate c []
  | row :: m' => zip_with cons row (transpose_rows c m')
  end.

(** [m.T] *)
Definition transpose {F} (m : matrix F) : matrix F :=
  transpose_rows (shape m).2 m.

Section Z_score.
Context {F : Type} `{Number F}.
Open Scope num_scope.

(** Lines 235-238: [d = ones - PCCn * PCCn], diagonal overwritten
    with 1. *)
Definition Z_score_denominator (PCCn : matrix F) : result (matrix F) :=
  let n := length PCCn in
  let ones := np_full fone (shape PCCn) in
  let d := map2 fsub ones (map2 fmul PCCn PCCn) in
  for_range 0 n (fun i d => mset d i i fone) d.

(** [Z_score(PCCn, delta_PCC)] *)
Definition Z_score (PCCn delta_PCC : matrix F) : result (matrix F) :=
  if decide (shape PCCn = shape delta_PCC) then
    let n := length PCCn in
    d ← Z_score_denominator PCCn;
    let Z := map2 fdiv (mmap (fmul (fofZ (Z.of_nat n - 1))) delta_PCC) d in
    for_range 0 n (fun i Z => mset Z i i fone) Z
  else Raise AssertionError.
End Z_score.

(** ** Data frames and the partial-correlation network *)

Record DataFrame (F : Type) := {
  columns : list string;
  rows : list (list F)
}.
Arguments columns {F} _.
Arguments rows {F} _.

(** [pd.concat([a, b])] for two frames with the same columns (the only
    way the program calls it): the rows of [b] follow those of [a]. *)
Definition pd_concat {F} (a b : DataFrame F) : DataFrame F :=
  {| columns := columns a; rows := rows a ++ rows b |}.

(** [g.iloc[idx, :]]: rows by position, IndexError out of bounds. *)
Definition iloc_rows {F} (g : DataFrame F) (idx : list nat)
    : result (DataFrame F) :=
  rs ← mapM (fun k => match rows g !! k with
                      | Some r => Ok r
                      | None => Raise IndexError
                      end) idx;
  Ok {| columns := columns g; rows := rs |}.

(** [mix_group(cols, ctrl, pati)]: the DataFrame constructor refuses a
    row whose length is not that of [cols]. *)
Definition mix_group {F} (cols : list string) (ctrl : DataFrame F)
    (pati : list F) : result (DataFrame F) :=
  if decide (length pati = length cols)
  then Ok (pd_concat ctrl {| columns := cols; rows := [pati] |})
  else Raise ValueError.

Section PCC.
Context {F : Type} `{Number F}.

(** [pg.partial_corr(data, x, y, covar).r.values[0]]: pingouin's
    estimator, external to the program. *)
Variable partial_corr : DataFrame F -> string -> string -> list string -> F.

(** [PCC(covas, regions, group)]: one row per [r1], one entry per
    [r2]. *)
Definition PCC (covas regions : list string) (group : DataFrame F)
    : matrix F :=
  (fun r1 =>
    (fun r2 =>
      if decide (r1 ≠ r2)
      then partial_corr group r1 r2 covas
      else fone) <$> regions) <$> regions.

(** The [(x, y)] arguments of the estimator calls [PCC] makes, in the
    order it makes them. *)
Definition PCC_calls (regions : list string) : list (string * string) :=
  r1 ← regions; r2 ← regions;
  if decide (r1 ≠ r2) then [(r1, r2)] else [].
End PCC.

(** *** The estimator as an effect *)

(** A value together with the [(x, y)] arguments of the estimator calls
    made to compute it, oldest first. *)
Definition traced (A : Type) : Type := A * list (string * string).

#[export] Instance traced_ret : MRet traced := fun _ a => (a, []).
#[export] Instance traced_bind : MBind traced := fun _ _ f m =>
  let r := f m.1 in (r.1, m.2 ++ r.2).

Section PCC_M.
Context {F : Type} `{Number F}.
Context {M : Type -> Type} `{MRet M, MBind M}.

(** The estimator, as a computation in [M]. *)
Variable partial_corr_M :
  DataFrame F -> string -> string -> list string -> M F.

(** The two loops of [PCC] (lines 191-199) over an effectful
    estimator: rows in the order of [regions], entries of a row in the
    order of [regions], the estimator run exactly where the program
    calls it. *)
Definition PCC_M (covas regions : list string) (group : DataFrame F)
    : M (matrix F) :=
  mapM (fun r1 =>
    mapM (fun r2 =>
      if decide (r1 ≠ r2)
      then partial_corr_M group r1 r2 covas
      else mret fone) regions) regions.
End PCC_M.

(** A pure estimator that also records the two target columns of each
    call. *)
Definition observed {F}
    (partial_corr : DataFrame F -> string -> string -> list string -> F)
    : DataFrame F -> string -> string -> list string -> traced F :=
  fun group x y covar => (partial_corr group x y covar, [(x, y)]).

(** ** Significance: [P(Z)] *)

Section Significance.
Context {F : Type} `{Number F}.
Open Scope num_scope.

(** [scipy.stats.norm.sf], external. *)
Variable norm_sf : F -> F.

(** The literal [0.05]; in binary64 the quotient 5/100 rounds to the
    same double. *)
Definition alpha_005 : F := fofZ 5 / fofZ 100.

(** The order numpy sorts float64 by: [a < b], with NaN after every
    number ([a < b || (b != b && a == a)]). *)
Definition sorts_before (a b : F) : bool :=
  (a <? b) || (fisnan b && negb (fisnan a)).

(** Stable insertion of a (value, index) pair by value. *)
Fixpoint insert_sorted (x : F * nat) (l : list (F * nat)) : list (F * nat) :=
  match l with
  | [] => [x]
  | y :: l' =>
      if sorts_before y.1 x.1 then y :: insert_sorted x l'
      else x :: y :: l'
  end.

(** [np.argsort(pvals)] together with [np.take(pvals, sortind)]: the
    (value, original index) pairs in ascending order of value, NaN
    last.  Equal values keep the order of their indices here; numpy's
    default sort promises no order among them. *)
Definition argsort (pvals : list F) : list (F * nat) :=
  foldr insert_sorted [] (zip pvals (seq 0 (length pvals))).

(** [_ecdf(x)]: [np.arange(1, nobs+1) / float(nobs)] *)
Definition ecdf (nobs : nat) : list F :=
  (fun k => fofZ (Z.of_nat k) / fofZ (Z.of_nat nobs)) <$> seq 1 nobs.

Fixpoint minimum_accumulate_from (acc : F) (l : list F) : list F :=
  match l with
  | [] => []
  | x :: l' => let a := fmin acc x in a :: minimum_accumulate_from a l'
  end.

(** [np.minimum.accumulate(l)] *)
Definition minimum_accumulate (l : list F) : list F :=
  match l with
  | [] => []
  | x :: l' => x :: minimum_accumulate_from x l'
  end.

(** [out[sortind] = vals] on [np.empty_like]. *)
Definition scatter (sortind : list nat) (vals : list F) : list F :=
  foldl (fun out iv => <[iv.1 := iv.2]> out)
        (replicate (length vals) fzero) (zip sortind vals).

(** [statsmodels.stats.multitest.fdrcorrection(pvals)[1]]: the
    Benjamini-Hochberg adjusted p-values (method 'indep'), in the
    order of [pvals]. *)
Definition fdrcorrection (pvals : list F) : list F :=
  let sorted := argsort pvals in
  let pvals_sortind := sorted.*2 in
  let pvals_sorted := sorted.*1 in
  let ecdffactor := ecdf (length pvals_sorted) in
  let pvals_corrected_raw := zip_with fdiv pvals_sorted ecdffactor in
  let pvals_corrected :=
    reverse (minimum_accumulate (reverse pvals_corrected_raw)) in
  let pvals_corrected :=
    (fun x => if fone <? x then fone else x) <$> pvals_corrected in
  scatter pvals_sortind pvals_corrected.

(** [a.reshape((r, c))] of a flat array of [r * c] entries. *)
Fixpoint reshape {A} (r c : nat) (l : list A) : list (list A) :=
  match r with
  | O => []
  | S r' => take c l :: reshape r' c (drop c l)
  end.

(** [P(Z)]: raw two-sided p-values and their FDR correction over the
    whole flattened matrix. *)
Definition P (Z : matrix F) : matrix F * matrix F :=
  let p := mmap (fun z => norm_sf (fabs z) * fofZ 2) Z in
  let sh := shape p in
  let correct_P := fdrcorrection (concat p) in
  (p, reshape sh.1 sh.2 correct_P).

(** [np.count_nonzero(m < 0.05)] *)
Definition count_below_005 (m : matrix F) : nat :=
  length (filter (fun x => (x <? alpha_005) = true) (concat m)).
End Significance.


(** ** The per-patient driver [IDSCN] *)

(** What the run leaves in one patient's directory. *)
Record subject_files (F : Type) := {
  PCCn_1_csv : matrix F;
  Z_csv : matrix F;
  P_csv : matrix F;
  P_FDR_csv : matrix F
}.
Arguments PCCn_1_csv {F} _.
Arguments Z_csv {F} _.
Arguments P_csv {F} _.
Arguments P_FDR_csv {F} _.

(** What a completed run leaves in [outpath]. *)
Record outputs (F : Type) := {
  PCCn_csv : matrix F;
  covas_txt : list string;
  regions_txt : list string;
  subject_dirs : list (string * subject_files F);
  count_significant_csv : list (string * nat)
}.
Arguments PCCn_csv {F} _.
Arguments covas_txt {F} _.
Arguments regions_txt {F} _.
Arguments subject_dirs {F} _.
Arguments count_significant_csv {F} _.

(** The frame [df] of [IDSCN], as far as the run depends on it: its
    shape, and the rows appended to it through [df.loc]. *)
Record frame := {
  nrows : nat;
  ncols : nat;
  appended : list (string * nat)
}.

(** [df.iloc[:, :] = m]: pandas raises ValueError unless [m] has the
    frame's shape. *)
Definition iloc_assign {F} (df : frame) (m : matrix F) : result frame :=
  if decide (shape m = (nrows df, ncols df)) then Ok df else Raise ValueError.

(** [df.loc[len(df.index)] = row] with a two-element [row]: the label is
    new, so pandas enlarges the frame by one row, and raises ValueError
    ("cannot set a row with mismatched columns") unless the frame has
    two columns. *)
Definition loc_append (df : frame) (row : string * nat) : result frame :=
  if decide (ncols df = 2)
  then Ok {| nrows := S (nrows df); ncols := ncols df;
             appended := appended df ++ [row] |}
  else Raise ValueError.

Section IDSCN.
Context {F : Type} `{Number F}.
Variable partial_corr : DataFrame F -> string -> string -> list string -> F.
Variable norm_sf : F -> F.

(** The body of the loop over patients (lines 273-288). [df_n] is
    passed along although the body never touches it. *)
Definition IDSCN_subject (cova region : list string) (ctrl : DataFrame F)
    (PCCn : matrix F) (sub_p : string * list F)
    (st : frame * list (string * nat) * list (string * subject_files F))
    : result (frame * list (string * nat) * list (string * subject_files F)) :=
  let '(df, df_n, dirs) := st in
  let '(sub, p) := sub_p in
  mixed_group ← mix_group (cova ++ region) ctrl p;
  let PCCn_1 := PCC partial_corr cova region mixed_group in
  let delta_PCC := map2 fsub PCCn_1 PCCn in
  Z ← Z_score PCCn delta_PCC;
  let '(ori_P, correct_P) := P norm_sf Z in
  df ← iloc_assign df (transpose PCCn_1);
  df ← iloc_assign df (transpose Z);
  df ← iloc_assign df (transpose ori_P);
  df ← iloc_assign df (transpose correct_P);
  let files := {| PCCn_1_csv := transpose PCCn_1; Z_csv := transpose Z;
                  P_csv := transpose ori_P;
                  P_FDR_csv := transpose correct_P |} in
  df ← loc_append df (sub, count_below_005 correct_P);
  Ok (df, df_n, dirs ++ [(sub, files)]).

(** [IDSCN(inpath, outpath, cova, region)] after the two tables are
    read: [ctrl] is the control table, [pati_subs] and [pati] the
    patients' identifiers and table. *)
Definition IDSCN (cova region : list string) (ctrl : DataFrame F)
    (pati_subs : list string) (pati : DataFrame F) : result (outputs F) :=
  let df := {| nrows := length region; ncols := length region;
               appended := [] |} in
  let PCCn := PCC partial_corr cova region ctrl in
  df ← iloc_assign df (transpose PCCn);
  let pa := rows pati in
  let df_n : list (string * nat) := [] in
  st ← for_each (IDSCN_subject cova region ctrl PCCn)
                (zip pati_subs pa) (df, df_n, []);
  let '(_, df_n, dirs) := st in
  Ok {| PCCn_csv := transpose PCCn; covas_txt := cova;
        regions_txt := region; subject_dirs := dirs;
        count_significant_csv := df_n |}.
End IDSCN.

(** ** Edge selection and aggregation *)

(** One rank group of [draw_signifcant]'s result:
    [(count, [number of edges, edges])]. *)
Definition rank_group (K : Type) : Type := K * (nat * list (nat * nat)).

(** The loop of [getTopLocs]: [count[i]] is the head of the groups not
    yet consumed, and indexing past the last one raises IndexError. *)
Fixpoint getTopLocs_loop {K} (count : list (rank_group K)) (num c : Z)
    (locs : list (nat * nat)) : result (list (nat * nat)) :=
  if (c <? num)%Z then
    match count with
    | [] => Raise IndexError
    | g :: count' =>
        getTopLocs_loop count' num (c + Z.of_nat g.2.1)%Z (locs ++ g.2.2)
    end
  else Ok locs.

(** [getTopLocs(count, num)] *)
Definition getTopLocs {K} (count : list (rank_group K)) (num : Z)
    : result (list (nat * nat)) :=
  getTopLocs_loop count num 0%Z [].

(** [np.argwhere(mask)]: the positions holding [True], row by row. *)
Definition argwhere (mask : matrix bool) : list (nat * nat) :=
  concat (imap (fun i row =>
    omap id (imap (fun j (b : bool) => if b then Some (i, j) else None) row))
    mask).

Section Aggregation.
Context {F : Type} `{Number F}.
Open Scope num_scope.
Variable norm_sf : F -> F.

(** [significant[rows, cols] = significant[rows, cols] + 1]: the right
    side is read whole before anything is stored. *)
Definition increment_at (significant : matrix F) (idx : list (nat * nat))
    : result (matrix F) :=
  vals ← mapM (fun ij : nat * nat =>
                 match mget significant ij.1 ij.2 with
                 | Some v => Ok (v + fone)
                 | None => Raise IndexError
                 end) idx;
  for_each (fun (w : nat * nat * F) s => mset s w.1.1 w.1.2 w.2)
           (zip idx vals) significant.

(** [m < 0.05] *)
Definition below_005 (m : matrix F) : matrix bool :=
  mmap (fun x => x <? alpha_005) m.

(** The loop of [subtype] over the patients' Z matrices (lines
    374-383). *)
Definition subtype_significant (Zs : list (matrix F))
    : result (option (matrix F)) :=
  for_each (fun Z significant =>
    let significant :=
      match significant with
      | None => np_full fzero (shape Z)
      | Some s => s
      end in
    let '(_, correct_P) := P norm_sf Z in
    let signi_conn_index := argwhere (below_005 correct_P) in
    if decide (0 < length signi_conn_index)
    then s ← increment_at significant signi_conn_index; Ok (Some s)
    else Ok (Some significant)) Zs None.

(** The loop of [getConnection] (lines 485-496). *)
Definition getConnection_significant (fdr : bool) (Zs : list (matrix F))
    : result (option (matrix F)) :=
  for_each (fun Z significant =>
    let significant :=
      match significant with
      | None => np_full fzero (shape Z)
      | Some s => s
      end in
    let '(_P, correct_P) := P norm_sf Z in
    let signi_conn_index := argwhere (below_005 _P) in
    let signi_conn_index :=
      if fdr then argwhere (below_005 correct_P) else signi_conn_index in
    if decide (0 < length signi_conn_index)
    then s ← increment_at significant signi_conn_index; Ok (Some s)
    else Ok (Some significant)) Zs None.
End Aggregation.


(** ** The permutation statistics of [SCN] *)

Section SCN.
Context {F : Type} `{Number F}.
Open Scope num_scope.
Variable partial_corr : DataFrame F -> string -> string -> list string -> F.

(** [np.arctanh], [np.mean] and [np.std] on float64, external. *)
Variable arctanh : F -> F.
Variable np_mean : list F -> F.
Variable np_std : list F -> F.

(** [m[i, j]] as an expression. *)
Definition read (m : matrix F) (i j : nat) : result F :=
  match mget m i j with
  | Some v => Ok v
  | None => Raise IndexError
  end.

(** [D_permuted[:, i, j]] *)
Definition samples_at (D_permuted : list (matrix F)) (i j : nat)
    : result (list F) :=
  mapM (fun D => read D i j) D_permuted.

(** Lines 573-580.  [permutation k] is the draw of
    [np.random.permutation] in iteration [k]. *)
Definition SCN_D_permuted (cova region : list string)
    (ctrl pati : DataFrame F) (n_permutations : nat)
    (permutation : nat -> list nat) : result (list (matrix F)) :=
  let g1g2 := pd_concat ctrl pati in
  mapM (fun k =>
    let randlabel := permutation k in
    g1_per ← iloc_rows g1g2 (take (length (rows ctrl)) randlabel);
    g2_per ← iloc_rows g1g2 (drop (length (rows ctrl)) randlabel);
    let PCCn_per := PCC partial_corr cova region g1_per in
    let PCCn_p_per := PCC partial_corr cova region g2_per in
    Ok (map2 fsub PCCn_p_per PCCn_per)) (seq 0 n_permutations).

(** Lines 586-591. *)
Definition SCN_z_matrix (n : nat) (D_obs : matrix F)
    (D_permuted : list (matrix F)) : result (matrix F) :=
  for_range 0 n (fun i z_matrix =>
    for_range (i + 1) n (fun j z_matrix =>
      obs ← read D_obs i j;
      null ← samples_at D_permuted i j;
      let z := (obs - np_mean null) / np_std null in
      z_matrix ← mset z_matrix i j z;
      mset z_matrix j i z) z_matrix) (np_full fzero (n, n)).

(** [(mask).astype(np.int_).sum()] *)
Definition count_true (f : F -> bool) (l : list F) : nat :=
  length (filter (fun x => f x = true) l).

(** The p-value of one edge (lines 597-600): an integer count plus one,
    divided by the integer [n_permutations + 1]. *)
Definition SCN_p_value (n_permutations : nat) (d : F) (null : list F) : F :=
  if fzero <? d
  then fofZ (Z.of_nat (count_true (fun s => d <? s) null) + 1)
       / fofZ (Z.of_nat n_permutations + 1)
  else fofZ (Z.of_nat (count_true (fun s => s <? d) null) + 1)
       / fofZ (Z.of_nat n_permutations + 1).

(** Lines 594-602. *)
Definition SCN_p_matrix (n n_permutations : nat) (diff_real : matrix F)
    (D_permuted : list (matrix F)) : result (matrix F) :=
  for_range 0 n (fun i p_matrix =>
    for_range (i + 1) n (fun j p_matrix =>
      d ← read diff_real i j;
      null ← samples_at D_permuted i j;
      let p := SCN_p_value n_permutations d null in
      p_matrix ← mset p_matrix i j p;
      mset p_matrix j i p) p_matrix) (np_full fzero (n, n)).

(** [SCN] from the two tables to [z_matrix] and [p_matrix]; the FDR
    step that follows (lines 603-607) reads [p_matrix] only. *)
Definition SCN (cova region : list string) (ctrl pati : DataFrame F)
    (n_permutations : nat) (permutation : nat -> list nat)
    : result (matrix F * matrix F) :=
  let PCCn := PCC partial_corr cova region ctrl in
  let PCCn_p := PCC partial_corr cova region pati in
  let diff_real := map2 fsub PCCn_p PCCn in
  let n := length diff_real in
  D_permuted ← SCN_D_permuted cova region ctrl pati n_permutations permutation;
  let D_obs :=
    mmap fabs (map2 fsub (mmap arctanh PCCn) (mmap arctanh PCCn_p)) in
  z_matrix ← SCN_z_matrix n D_obs D_permuted;
  p_matrix ← SCN_p_matrix n n_permutations diff_real D_permuted;
  Ok (z_matrix, p_matrix).
End SCN.

(** ** Orders used in the statements *)

(** Ascending order of (value, index) pairs by value, over the exact
    rationals. *)
Definition by_value (a b : Q * nat) : Prop := (a.1 <= b.1)%Q.

(** ** Counting patients per edge *)

Section Counting.
Context {F : Type} `{Number F}.
Open Scope num_scope.

(** Whether entry (i, j) of [m] is below 0.05. *)
Definition below_at (m : matrix F) (i j : nat) : bool :=
  match mget m i j with
  | Some x => x <? alpha_005
  | None => false
  end.

(** The number of matrices [Z] of [Zs] for which entry (i, j) of
    [sel Z] is below 0.05. *)
Definition hits (sel : matrix F -> matrix F) (Zs : list (matrix F))
    (i j : nat) : nat :=
  length (filter (fun Z => below_at (sel Z) i j = true) Zs).

(** Zero incremented [k] times. *)
Definition increments (k : nat) : F :=
  Nat.iter k (fun x => x + fone) fzero.

(** The shape the two aggregation loop bodies share, with [sel Z] the
    matrix that is compared with 0.05. *)
Definition count_step (sel : matrix F -> matrix F) (Z : matrix F)
    (significant : option (matrix F)) : result (option (matrix F)) :=
  let significant :=
    match significant with
    | None => np_full fzero (shape Z)
    | Some s => s
    end in
  let signi_conn_index := argwhere (below_005 (sel Z)) in
  if decide (0 < length signi_conn_index)
  then s ← increment_at significant signi_conn_index; Ok (Some s)
  else Ok (Some significant).
End Counting.

(** ** The upper-triangle loops *)

(** The shape the two double loops of [SCN] share: for [i < j] the
    value [val i j] is computed and stored at (i, j) and at (j, i) of
    an array of zeros. *)
Definition fill_upper {F} `{Number F} (n : nat)
    (val : nat -> nat -> result F) : result (matrix F) :=
  for_range 0 n (fun i m =>
    for_range (i + 1) n (fun j m =>
      v ← val i j;
      m ← mset m i j v;
      mset m j i v) m) (np_full fzero (n, n)).

(** A null sample [s] is more extreme than the real difference [d]:
    above it when [d] is positive, below it otherwise. *)
Definition more_extreme {F} `{Number F} (d s : F) : bool :=
  if flt fzero d then flt d s else flt s d.

(** ** Ranking the edges: [draw_signifcant] *)

Section Ranking.
Context {K : Type} `{EqDecision K}.

(** [<] on the entries of the count array, as [sorted] uses it. *)
Variable key_lt : K -> K -> bool.

(** One pass of the dictionary update (lines 316-320): the group of key
    [c] gets one more edge, or a new group is added after the others. *)
Fixpoint index_dict_add (c : K) (loc : nat * nat)
    (index_dict : list (rank_group K)) : list (rank_group K) :=
  match index_dict with
  | [] => [(c, (1, [loc]))]
  | g :: index_dict' =>
      if decide (g.1 = c)
      then (g.1, (S g.2.1, g.2.2 ++ [loc])) :: index_dict'
      else g :: index_dict_add c loc index_dict'
  end.

(** The double loop over the lower triangle, diagonal included
    ([j in range(i + 1)]). *)
Definition index_dict_of (count : matrix K) : result (list (rank_group K)) :=
  for_range 0 (length count) (fun i index_dict =>
    for_range 0 (i + 1) (fun j index_dict =>
      c ← read count i j;
      Ok (index_dict_add c (i, j) index_dict)) index_dict) [].

Fixpoint insert_descending (g : rank_group K) (l : list (rank_group K))
    : list (rank_group K) :=
  match l with
  | [] => [g]
  | h :: l' =>
      if key_lt g.1 h.1 then h :: insert_descending g l' else g :: h :: l'
  end.

(** [sorted(zip(keys, values), reverse=True)]: the keys of a dictionary
    are distinct, so the order is that of the keys. *)
Definition sorted_reverse (l : list (rank_group K)) : list (rank_group K) :=
  foldr insert_descending [] l.

(** [draw_signifcant(savepath, count, re_col, plot)], the value it
    returns; the bar plot is drawn from that value and returns
    nothing. *)
Definition draw_signifcant (count : matrix K)
    : result (list (rank_group K)) :=
  index_dict ← index_dict_of count;
  Ok (sorted_reverse index_dict).
End Ranking.

(** ** Reading and storing through index lists *)

(** [m[rows, cols]] for the positions [idx]. *)
Definition take_at {F} (m : matrix F) (idx : list (nat * nat))
    : result (list F) :=
  mapM (fun ij : nat * nat => read m ij.1 ij.2) idx.

(** [m[rows, cols] = vals]: numpy refuses a value array of another
    length with ValueError. *)
Definition store_at {F} (m : matrix F) (idx : list (nat * nat))
    (vals : list F) : result (matrix F) :=
  if decide (length idx = length vals)
  then for_each (fun (w : nat * nat * F) s => mset s w.1.1 w.1.2 w.2)
                (zip idx vals) m
  else Raise ValueError.

(** [np.triu_indices(n, 1)] *)
Definition triu_indices (n : nat) : list (nat * nat) :=
  i ← seq 0 n; j ← seq (i + 1) (n - (i + 1)); [(i, j)].

(** [np.tril_indices(n, -1)] *)
Definition tril_indices (n : nat) : list (nat * nat) :=
  i ← seq 0 n; j ← seq 0 i; [(i, j)].

(** The entries of [m] above the diagonal, row by row. *)
Definition upper_triangle {F} (n : nat) (m : matrix F) : list F :=
  omap (fun ij : nat * nat => mget m ij.1 ij.2) (triu_indices n).

Section SCN_fdr.
Context {F : Type} `{Number F}.

(** [smsm.multipletests(pvals, method='fdr_bh')[1]]: statsmodels
    evaluates [1./ntests] with [ntests = len(pvals)] before it looks at
    the method, which raises ZeroDivisionError on an empty array; then
    it sorts the p-values, runs [fdrcorrection] on them and puts the
    result back in the order of [pvals]. *)
Definition multipletests_fdr_bh (pvals : list F) : result (list F) :=
  if decide (length pvals = 0) then Raise ZeroDivisionError
  else Ok (fdrcorrection pvals).

(** Lines 603-607: the correction over the upper triangle, mirrored
    below, diagonal 1. *)
Definition SCN_fdr_p (n : nat) (p_matrix : matrix F) : result (matrix F) :=
  pvals ← take_at p_matrix (triu_indices n);
  fdr_p_matrix ← multipletests_fdr_bh pvals;
  let fdr_p := np_full fzero (n, n) in
  fdr_p ← store_at fdr_p (triu_indices n) fdr_p_matrix;
  lower ← take_at (transpose fdr_p) (tril_indices n);
  fdr_p ← store_at fdr_p (tril_indices n) lower;
  for_range 0 n (fun i fdr_p => mset fdr_p i i fone) fdr_p.
End SCN_fdr.

(** ** Clustering on the selected edges ([subtype], lines 395-417) *)

Section Clustering.
Context {F : Type} `{Number F}.
Open Scope num_scope.

(** [KMeans(n_clusters=k, n_init=100).fit_predict] and
    [silhouette_score] of scikit-learn, external; their own exceptions
    are outside the model. *)
Variable fit_predict : nat -> list (list F) -> list nat.
Variable silhouette_score : list (list F) -> list nat -> F.

(** Line 400: [np.ones((len(selected_edges),)) - PCCn_1[row, col]] *)
Definition edge_distances (selected_edges : list (nat * nat))
    (PCCn_1 : matrix F) : result (list F) :=
  take_at PCCn_1 selected_edges ≫= fun vals : list F =>
  Ok ((fun v : F => fone - v) <$> vals).

(** Lines 395-402: unpacking the selected edges into [row, col] raises
    ValueError on an empty selection; then one row of distances per
    patient. *)
Definition cluster_features (selected_edges : list (nat * nat))
    (PCCs : list (matrix F)) : result (list (list F)) :=
  if decide (selected_edges = []) then Raise ValueError
  else mapM (edge_distances selected_edges) PCCs.

(** The body of [for k in range(2, 6)] (lines 408-413). *)
Definition select_k_step (cluster_source : list (list F)) (k : nat)
    (st : option (list nat) * F * nat) : option (list nat) * F * nat :=
  let dist_pred_k := fit_predict k cluster_source in
  let sc := silhouette_score cluster_source dist_pred_k in
  if st.1.2 <? sc then (Some dist_pred_k, sc, k) else st.

(** Lines 403-413: [(dist_pred, max_sc, k_last)] after the loop. *)
Definition select_k (cluster_source : list (list F))
    : option (list nat) * F * nat :=
  foldl (fun st k => select_k_step cluster_source k st)
        (None, fofZ (-2), 1) (seq 2 4).
End Clustering.

(** Lines 414-417: [clusters[c].append(p)] for each patient and its
    label; a label outside [range(k_last)] raises IndexError. *)
Definition assign_clusters (k_last : nat) (pati : list string)
    (dist_pred : list nat) : result (list (list string)) :=
  for_each (fun (pc : string * nat) clusters =>
              match clusters !! pc.2 with
              | Some cl => Ok (<[pc.2 := cl ++ [pc.1]]> clusters)
              | None => Raise IndexError
              end)
           (zip pati dist_pred) (replicate k_last []).

(** ** Output paths *)

(** [outpath[-1]] *)
Fixpoint last_char (s : string) : option ascii :=
  match s with
  | EmptyString => None
  | String a EmptyString => Some a
  | String _ s' => last_char s'
  end.

(** [outpath[:-1]] *)
Fixpoint drop_last_char (s : string) : string :=
  match s with
  | EmptyString => EmptyString
  | String _ EmptyString => EmptyString
  | String a s' => String a (drop_last_char s')
  end.

(** The path clean-up at the head of [generate_dataset], [IDSCN],
    [subtype], [getConnection] and [SCN]: one trailing [/] or [\] is
    cut; indexing the empty string raises IndexError. *)
Definition strip_separator (outpath : string) : result string :=
  match last_char outpath with
  | None => Raise IndexError
  | Some a =>
      if decide (a = "/"%char \/ a = "\"%char)
      then Ok (drop_last_char outpath)
      else Ok outpath
  end.

(** ** Rank groups in the statements *)

(** The edges of a list of rank groups, group after group. *)
Definition edges_of {K} (groups : list (rank_group K)) : list (nat * nat) :=
  groups ≫= fun g => g.2.2.

(** The sum of the edge numbers the groups carry. *)
Definition total_of {K} (groups : list (rank_group K)) : Z :=
  foldr (fun g acc => (Z.of_nat g.2.1 + acc)%Z) 0%Z groups.

(** Strictly descending keys, for the order [key_lt]. *)
Definition descending {K} (key_lt : K -> K -> bool)
    (g h : rank_group K) : Prop :=
  key_lt h.1 g.1 = true.

(** Lines 393-402 of [subtype]: the edges kept for [select_num], then
    the feature rows of the patients. *)
Definition subtype_cluster_source {F} `{Number F} {K}
    (sorted_edges : list (rank_group K)) (select_num : Z)
    (PCCs : list (matrix F)) : result (list (list F)) :=
  selected_edges ← getTopLocs sorted_edges select_num;
  cluster_features selected_edges PCCs.

(** What [SCN] writes to [SCN_P_FDR.csv] (lines 603-612): the FDR step
    on the p matrix of the run, transposed into the frame. *)
Definition SCN_P_FDR_csv {F} `{Number F}
    (partial_corr : DataFrame F -> string -> string -> list string -> F)
    (arctanh : F -> F) (np_mean np_std : list F -> F)
    (cova region : list string) (ctrl pati : DataFrame F)
    (n_permutations : nat) (permutation : nat -> list nat)
    : result (matrix F) :=
  let diff_real := map2 fsub (PCC partial_corr cova region pati)
                             (PCC partial_corr cova region ctrl) in
  let n := length diff_real in
  zp ← SCN partial_corr arctanh np_mean np_std cova region ctrl pati
         n_permutations permutation;
  fdr_p ← SCN_fdr_p n zp.2;
  Ok (transpose fdr_p).

(** The last pair of a sorted list holds NaN. *)
Definition nan_last {F} `{Number F} (l : list (F * nat)) : Prop :=
  exists y, last l = Some y /\ fisnan y.1 = true.

(** * Properties *)

(** ** Loops *)

Lemma bind_Ok {A B} (r : result A) (f : A -> result B) (b : B) :
  r ≫= f = Ok b <-> exists a, r = Ok a /\ f a = Ok b.
Proof.
  destruct r as [a|e]; simpl; split.
  - intros Hf. by exists a.
  - by intros (a' & [= <-] & Hf).
  - done.
  - by intros (a' & Ha & _).
Qed.

(** Invariant rule for a loop over a list: the invariant is indexed by
    the elements already consumed. *)
Lemma for_each_invariant {S A} (Inv : list A -> S -> Prop)
    (body : A -> S -> result S) (xs : list A) (s : S) :
  Inv [] s ->
  (forall done x s, Inv done s ->
     (exists rest, xs = done ++ x :: rest) ->
     exists s', body x s = Ok s' /\ Inv (done ++ [x]) s') ->
  exists s', for_each body xs s = Ok s' /\ Inv xs s'.
Proof.
  intros H0 Hstep.
  assert (Hgen : forall rest done s, xs = done ++ rest -> Inv done s ->
            exists s', for_each body rest s = Ok s' /\ Inv xs s').
  { induction rest as [|x rest IH]; intros done s0 Hxs Hinv; simpl.
    - exists s0. rewrite app_nil_r in Hxs. by subst.
    - destruct (Hstep done x s0 Hinv) as (s1 & Hb & Hinv1); [by exists rest|].
      rewrite Hb. simpl. apply (IH (done ++ [x])); [|done].
      by rewrite <- app_assoc. }
  by apply (Hgen xs []).
Qed.

(** Invariant rule for [for k in range(lo, hi)]. *)
Lemma for_range_invariant {S} (Inv : nat -> S -> Prop) (lo hi : nat)
    (body : nat -> S -> result S) (s : S) :
  lo <= hi ->
  Inv lo s ->
  (forall k s, lo <= k < hi -> Inv k s ->
     exists s', body k s = Ok s' /\ Inv (Datatypes.S k) s') ->
  exists s', for_range lo hi body s = Ok s' /\ Inv hi s'.
Proof.
  intros Hle H0 Hstep. unfold for_range.
  destruct (for_each_invariant
              (fun done st => Inv (lo + length done) st) body
              (seq lo (hi - lo)) s) as (s' & Hrun & Hinv).
  - simpl. by rewrite Nat.add_0_r.
  - intros done x st Hinv (rest & Hxs).
    assert (Hx : seq lo (hi - lo) !! length done = Some x).
    { rewrite Hxs. by rewrite list_lookup_middle. }
    apply lookup_seq in Hx as [-> Hlt].
    destruct (Hstep (lo + length done) st) as (s1 & Hb & Hinv1); [lia|done|].
    exists s1. split; [done|].
    rewrite length_app. simpl. by replace (lo + (length done + 1)) with
      (Datatypes.S (lo + length done)) by lia.
  - exists s'. split; [done|].
    rewrite length_seq in Hinv. by replace hi with (lo + (hi - lo)) by lia.
Qed.

(** ** Reading and writing entries *)

Lemma shaped_lookup {F} r c (m : matrix F) i :
  shaped r c m -> i < r -> exists row, m !! i = Some row /\ length row = c.
Proof.
  intros [Hlen Hrows] Hi.
  destruct (lookup_lt_is_Some_2 m i) as [row Hrow]; [lia|].
  exists row. split; [done|].
  rewrite Forall_lookup in Hrows. by apply (Hrows i).
Qed.

Lemma shaped_mget {F} r c (m : matrix F) i j :
  shaped r c m -> i < r -> j < c -> is_Some (mget m i j).
Proof.
  intros Hm Hi Hj. destruct (shaped_lookup r c m i Hm Hi) as (row & Hrow & Hlen).
  unfold mget. rewrite Hrow. simpl. apply lookup_lt_is_Some_2. lia.
Qed.

Lemma shaped_shape {F} r c (m : matrix F) :
  shaped r c m -> 0 < r -> shape m = (r, c).
Proof.
  intros [Hlen Hrows] Hr. unfold shape. destruct m as [|row m]; simpl in *; [lia|].
  apply Forall_cons in Hrows as [-> _]. by rewrite Hlen.
Qed.

Lemma mset_spec {F} r c (m : matrix F) i j v :
  shaped r c m -> i < r -> j < c ->
  exists m', mset m i j v = Ok m' /\ shaped r c m' /\
    forall a b, mget m' a b = if decide (a = i /\ b = j) then Some v else mget m a b.
Proof.
  intros Hm Hi Hj. destruct (shaped_lookup r c m i Hm Hi) as (row & Hrow & Hlen).
  unfold mset. rewrite Hrow. rewrite decide_True by lia.
  eexists. split; [done|]. destruct Hm as [Hr Hrows]. split.
  - split; [by rewrite length_insert|].
    apply Forall_insert; [done|]. by rewrite length_insert.
  - intros a b. unfold mget. destruct (decide (a = i)) as [->|Hne].
    + rewrite list_lookup_insert_eq by lia. simpl.
      destruct (decide (b = j)) as [->|Hnb].
      * rewrite decide_True by done. apply list_lookup_insert_eq. lia.
      * rewrite decide_False by tauto. rewrite Hrow. simpl.
        by apply list_lookup_insert_ne.
    + rewrite decide_False by tauto. by rewrite list_lookup_insert_ne.
Qed.

Lemma shaped_np_full {F} (v : F) r c : shaped r c (np_full v (r, c)).
Proof.
  unfold np_full, shaped. simpl. split; [apply length_replicate|].
  apply Forall_replicate. apply length_replicate.
Qed.

Lemma mget_np_full {F} (v : F) r c i j :
  i < r -> j < c -> mget (np_full v (r, c)) i j = Some v.
Proof.
  intros Hi Hj. unfold mget, np_full. simpl.
  rewrite lookup_replicate_2 by done. simpl. by apply lookup_replicate_2.
Qed.

Lemma shaped_map2 {F} (f : F -> F -> F) r c (a b : matrix F) :
  shaped r c a -> shaped r c b -> shaped r c (map2 f a b).
Proof.
  intros [Ha Has] [Hb Hbs]. unfold map2. split.
  - rewrite length_zip_with. lia.
  - apply Forall_lookup. intros i row Hrow.
    apply lookup_zip_with_Some in Hrow as (x & y & -> & Hx & Hy).
    rewrite length_zip_with. rewrite Forall_lookup in Has, Hbs.
    rewrite (Has i x Hx), (Hbs i y Hy). lia.
Qed.

Lemma mget_map2 {F} (f : F -> F -> F) (a b : matrix F) i j :
  mget (map2 f a b) i j = (x ← mget a i j; y ← mget b i j; Some (f x y)).
Proof.
  unfold mget, map2. rewrite lookup_zip_with.
  destruct (a !! i) as [ra|]; simpl; [|done].
  destruct (b !! i) as [rb|]; simpl.
  - by rewrite lookup_zip_with.
  - by destruct (ra !! j).
Qed.

Lemma shaped_mmap {F G} (f : F -> G) r c (a : matrix F) :
  shaped r c a -> shaped r c (mmap f a).
Proof.
  intros [Ha Has]. unfold mmap. split; [by rewrite length_fmap|].
  apply Forall_fmap. eapply Forall_impl; [exact Has|].
  intros row Hrow. simpl. by rewrite length_fmap.
Qed.

Lemma mget_mmap {F G} (f : F -> G) (a : matrix F) i j :
  mget (mmap f a) i j = f <$> mget a i j.
Proof.
  unfold mget, mmap. rewrite list_lookup_fmap.
  destruct (a !! i) as [ra|]; simpl; [|done]. by rewrite list_lookup_fmap.
Qed.

(** ** [Z_score] *)

Lemma square_shape {F} n (m : matrix F) : shaped n n m -> shape m = (n, n).
Proof.
  intros Hm. destruct (decide (0 < n)) as [Hn|Hn]; [by apply shaped_shape|].
  destruct Hm as [Hlen _]. destruct m; simpl in *; [|lia].
  unfold shape. simpl. f_equal; lia.
Qed.

(** The loop [for i in range(n): m[i][i] = v] on a square array. *)
Lemma set_diagonal_spec {F} n (m : matrix F) (v : F) :
  shaped n n m ->
  exists m', for_range 0 n (fun i d => mset d i i v) m = Ok m' /\
    shaped n n m' /\
    forall a b, a < n ->
      mget m' a b = if decide (a = b) then Some v else mget m a b.
Proof.
  intros Hm.
  destruct (for_range_invariant
    (fun k s => shaped n n s /\
       forall a b, mget s a b =
         if decide (a = b /\ a < k) then Some v else mget m a b)
    0 n (fun i d => mset d i i v) m) as (m' & Hrun & Hsh & Hget).
  - lia.
  - split; [done|]. intros a b. rewrite decide_False; [done|lia].
  - intros k s Hk [Hs Hgs].
    destruct (mset_spec n n s k k v Hs) as (s' & Hset & Hs' & Hgs'); [lia..|].
    exists s'. split; [done|]. split; [done|]. intros a b.
    rewrite Hgs', Hgs. repeat case_decide; try done; lia.
  - exists m'. split; [done|]. split; [done|]. intros a b Ha.
    rewrite Hget. repeat case_decide; try done; lia.
Qed.

Section Z_score_properties.
Context {F : Type} `{Number F}.
Open Scope num_scope.

Lemma Z_score_denominator_spec n (PCCn : matrix F) :
  shaped n n PCCn ->
  exists d, Z_score_denominator PCCn = Ok d /\ shaped n n d /\
    forall i j, i < n ->
      mget d i j = if decide (i = j) then Some fone
                   else x ← mget PCCn i j; Some (fone - x * x).
Proof.
  intros Hm. unfold Z_score_denominator.
  rewrite (square_shape n PCCn Hm). destruct Hm as [Hlen Hrows] eqn:E. clear E.
  rewrite Hlen.
  destruct (set_diagonal_spec n
    (map2 fsub (np_full fone (n, n)) (map2 fmul PCCn PCCn)) fone)
    as (d & Hrun & Hd & Hget).
  { apply shaped_map2; [apply shaped_np_full|]. by apply shaped_map2. }
  exists d. split; [done|]. split; [done|]. intros i j Hi.
  rewrite Hget by done. case_decide; [done|].
  rewrite !mget_map2. destruct (mget PCCn i j) as [x|] eqn:Hx; simpl.
  - assert (Hj : j < n).
    { unfold mget in Hx. destruct (PCCn !! i) as [row|] eqn:Hrow; [|done].
      simpl in Hx. apply lookup_lt_Some in Hx.
      rewrite Forall_lookup in Hrows. by rewrite (Hrows i row Hrow) in Hx. }
    by rewrite mget_np_full.
  - by destruct (mget (np_full fone (n, n)) i j).
Qed.

(** What [Z_score] returns on square arrays of one size: it raises
    nothing, and the factor of the off-diagonal entries is the size of
    the array less one. *)
Lemma Z_score_spec n (PCCn delta_PCC : matrix F) :
  shaped n n PCCn -> shaped n n delta_PCC ->
  exists d Z, Z_score_denominator PCCn = Ok d /\
    Z_score PCCn delta_PCC = Ok Z /\ shaped n n Z /\
    forall i j x y, i < n ->
      mget d i j = Some x -> mget delta_PCC i j = Some y ->
      mget Z i j = Some (if decide (i = j) then fone
                         else fofZ (Z.of_nat n - 1) * y / x).
Proof.
  intros Hp Hdl.
  destruct (Z_score_denominator_spec n PCCn Hp) as (d & Hd & Hds & Hdget).
  unfold Z_score. rewrite (square_shape n _ Hp), (square_shape n _ Hdl).
  rewrite decide_True by done. rewrite Hd. simpl.
  replace (length PCCn) with n by (by destruct Hp).
  destruct (set_diagonal_spec n
    (map2 fdiv (mmap (fmul (fofZ (Z.of_nat n - 1))) delta_PCC) d) fone)
    as (Z & Hrun & HZ & Hget).
  { apply shaped_map2; [by apply shaped_mmap|done]. }
  exists d, Z. split; [done|]. split; [done|]. split; [done|].
  intros i j x y Hi Hx Hy. rewrite Hget by done. case_decide; [done|].
  rewrite mget_map2, mget_mmap, Hx, Hy. done.
Qed.
End Z_score_properties.

(** ** IEEE division by a zero *)

Lemma float_div_by_zero (x d : float) :
  PrimFloat.is_zero d = true ->
  PrimFloat.is_nan (x / d) = true \/ PrimFloat.is_infinity (x / d) = true.
Proof.
  unfold PrimFloat.is_zero, PrimFloat.is_nan, PrimFloat.is_infinity.
  rewrite !FloatAxioms.eqb_spec, abs_spec, !div_spec.
  change (Prim2SF zero) with (S754_zero false).
  change (Prim2SF infinity) with (S754_infinity false).
  destruct (Prim2SF d) as [sd|sd| |sd md ed]; simpl;
    try discriminate; try (by destruct sd).
  intros _. destruct (Prim2SF x) as [sx|sx| |sx mx ex]; simpl; auto.
Qed.

(** ** Claims about [Z_score] *)

(** C10. On square arrays of one size [Z_score] raises nothing; the
    denominator array it divides by has 1 at every diagonal position
    (the zero of [1 - PCCn[i][i]^2] is overwritten before the division),
    and the diagonal of the result is 1. *)
Theorem Z_score_diagonal_guarded {F : Type} `{Number F} (n : nat)
    (PCCn delta_PCC : matrix F) :
  shaped n n PCCn -> shaped n n delta_PCC ->
  exists d Z,
    Z_score_denominator PCCn = Ok d /\
    Z_score PCCn delta_PCC = Ok Z /\
    forall i, i < n ->
      mget d i i = Some fone /\
      (forall y, mget delta_PCC i i = Some y ->
         mget (map2 fdiv (mmap (fmul (fofZ (Z.of_nat n - 1))) delta_PCC) d) i i
         = Some (fdiv (fmul (fofZ (Z.of_nat n - 1)) y) fone)) /\
      mget Z i i = Some fone.
Proof.
  intros Hp Hdl.
  destruct (Z_score_denominator_spec n PCCn Hp) as (d & Hd & Hds & Hdget).
  destruct (Z_score_spec n PCCn delta_PCC Hp Hdl)
    as (d' & Z & Hd' & HZ & HZs & HZget).
  assert (d' = d) as -> by congruence.
  exists d, Z. split; [done|]. split; [done|]. intros i Hi.
  assert (Hdi : mget d i i = Some fone).
  { rewrite Hdget by done. by rewrite decide_True. }
  split; [done|]. split.
  - intros y Hy. by rewrite mget_map2, mget_mmap, Hy, Hdi.
  - destruct (shaped_mget n n delta_PCC i i Hdl Hi Hi) as [y Hy].
    rewrite (HZget i i fone y Hi Hdi Hy). by rewrite decide_True.
Qed.

Lemma Z_score_diagonal_guarded_witness :
  exists d Z,
    Z_score_denominator [[1; 0.5]; [0.5; 1]]%float = Ok d /\
    Z_score [[1; 0.5]; [0.5; 1]]%float [[0; 0.25]; [0.25; 0]]%float = Ok Z /\
    forall i, i < 2 ->
      mget d i i = Some fone /\
      (forall y, mget [[0; 0.25]; [0.25; 0]]%float i i = Some y ->
         mget (map2 fdiv (mmap (fmul (fofZ (Z.of_nat 2 - 1)))
                            [[0; 0.25]; [0.25; 0]]%float) d) i i
         = Some (fdiv (fmul (fofZ (Z.of_nat 2 - 1)) y) fone)) /\
      mget Z i i = Some fone.
Proof.
  apply (Z_score_diagonal_guarded 2);
    (split; [reflexivity | repeat constructor]).
Defined.

(** C1. The factor [Z_score] applies is the number of regions less one
    ([n = PCCn.shape[0]]), whatever the number of control subjects: with
    two regions the off-diagonal entry is [1 * delta / (1 - r^2)], which
    for five controls is not the [(5 - 1) * delta / (1 - r^2)] of the
    method.  The diagonal is 1. *)
Theorem Z_score_factor_is_region_count :
  let PCCn := [[1; 0.5]; [0.5; 1]]%float in
  let delta_PCC := [[0; 0.25]; [0.25; 0]]%float in
  let n_ctrl := 5%Z in
  exists Z, Z_score PCCn delta_PCC = Ok Z /\
    mget Z 0 0 = Some 1%float /\ mget Z 1 1 = Some 1%float /\
    mget Z 0 1 = Some ((2 - 1) * 0.25 / (1 - 0.5 * 0.5))%float /\
    mget Z 0 1 <>
      Some (fofZ (n_ctrl - 1) * 0.25 / (1 - 0.5 * 0.5))%float.
Proof.
  eexists. split; [vm_compute; reflexivity|].
  repeat split; try reflexivity. vm_compute. intros [= E].
Qed.

(** C6, as the program has it.  A zero denominator at an off-diagonal
    entry raises nothing and flags nothing: [Z_score] returns the array
    whose entry there is the IEEE quotient by that zero, which is an
    infinity or NaN. *)
Theorem Z_score_zero_denominator_unguarded (n : nat)
    (PCCn delta_PCC : matrix float) (i j : nat) (x y : float) :
  shaped n n PCCn -> shaped n n delta_PCC ->
  i < n -> j < n -> i <> j ->
  mget PCCn i j = Some x -> mget delta_PCC i j = Some y ->
  PrimFloat.is_zero (1 - x * x) = true ->
  exists Z z, Z_score PCCn delta_PCC = Ok Z /\
    mget Z i j = Some z /\
    z = (float_of_Z (Z.of_nat n - 1) * y / (1 - x * x))%float /\
    (PrimFloat.is_nan z = true \/ PrimFloat.is_infinity z = true).
Proof.
  intros Hp Hdl Hi Hj Hij Hx Hy Hzero.
  destruct (Z_score_denominator_spec n PCCn Hp) as (d & Hd & Hds & Hdget).
  destruct (Z_score_spec n PCCn delta_PCC Hp Hdl)
    as (d' & Z & Hd' & HZ & HZs & HZget).
  assert (d' = d) as -> by congruence.
  assert (Hdij : mget d i j = Some (1 - x * x)%float).
  { rewrite Hdget by done. rewrite decide_False by done. by rewrite Hx. }
  exists Z, (float_of_Z (Z.of_nat n - 1) * y / (1 - x * x))%float.
  split; [done|]. split.
  - rewrite (HZget i j _ y Hi Hdij Hy). by rewrite decide_False.
  - split; [done|]. by apply float_div_by_zero.
Qed.

Lemma Z_score_zero_denominator_unguarded_witness :
  exists Z z,
    Z_score [[1; 1]; [1; 1]]%float [[0; 0.5]; [0.5; 0]]%float = Ok Z /\
    mget Z 0 1 = Some z /\
    z = (float_of_Z (Z.of_nat 2 - 1) * 0.5 / (1 - 1 * 1))%float /\
    (PrimFloat.is_nan z = true \/ PrimFloat.is_infinity z = true).
Proof.
  apply (Z_score_zero_denominator_unguarded 2
           [[1; 1]; [1; 1]]%float [[0; 0.5]; [0.5; 0]]%float 0 1 1%float
           0.5%float);
    try (split; [reflexivity | repeat constructor]);
    try lia; reflexivity.
Defined.

(** C6 fails as stated: a baseline correlation of 1 off the diagonal
    makes [Z_score] return an array holding infinities. *)
Lemma Z_score_returns_infinity :
  Z_score [[1; 1]; [1; 1]]%float [[0; 0.5]; [0.5; 0]]%float
  = Ok [[1; infinity]; [infinity; 1]]%float.
Proof. vm_compute. reflexivity. Qed.

(** With a zero difference on top, the entry is NaN. *)
Lemma Z_score_returns_nan :
  Z_score [[1; -1]; [-1; 1]]%float [[0; 0]; [0; 0]]%float
  = Ok [[1; nan]; [nan; 1]]%float.
Proof. vm_compute. reflexivity. Qed.

(** ** [getTopLocs] *)

(** C3, as the program has it.  The loop starts at the first rank
    group, so on the scenario's rank list and a target of 2 it returns
    the edge of the first group followed by the two of the second. *)
Theorem getTopLocs_scenario :
  getTopLocs [(3%float, (1, [(0, 1)])); (2%float, (2, [(0, 2); (1, 2)]));
              (0%float, (1, [(0, 3)]))] 2
  = Ok [(0, 1); (0, 2); (1, 2)].
Proof. reflexivity. Qed.

(** C3 fails as stated: the result is not the second group alone. *)
Lemma getTopLocs_scenario_not_second_group :
  getTopLocs [(3%float, (1, [(0, 1)])); (2%float, (2, [(0, 2); (1, 2)]));
              (0%float, (1, [(0, 3)]))] 2
  <> Ok [(0, 2); (1, 2)].
Proof. vm_compute. discriminate. Qed.

(** ** [PCC] *)

Section PCC_properties.
Context {F : Type} `{Number F}.
Variable partial_corr : DataFrame F -> string -> string -> list string -> F.

Lemma PCC_shaped covas regions group :
  shaped (length regions) (length regions)
         (PCC partial_corr covas regions group).
Proof.
  unfold PCC. split; [by rewrite length_fmap|].
  apply Forall_fmap, Forall_forall. intros r1 _. simpl. by rewrite length_fmap.
Qed.

Lemma PCC_entry covas regions group i j r1 r2 :
  regions !! i = Some r1 -> regions !! j = Some r2 ->
  mget (PCC partial_corr covas regions group) i j
  = Some (if decide (r1 ≠ r2) then partial_corr group r1 r2 covas else fone).
Proof.
  intros Hi Hj. unfold mget, PCC.
  rewrite list_lookup_fmap, Hi. simpl. by rewrite list_lookup_fmap, Hj.
Qed.

Lemma PCC_calls_elem regions r1 r2 :
  (r1, r2) ∈ PCC_calls regions <-> r1 ∈ regions /\ r2 ∈ regions /\ r1 ≠ r2.
Proof.
  unfold PCC_calls. rewrite list_elem_of_bind. split.
  - intros (x & Hin & Hx). apply list_elem_of_bind in Hin as (y & Hin & Hy).
    case_decide; [|by apply elem_of_nil in Hin].
    apply list_elem_of_singleton in Hin as [= -> ->]. done.
  - intros (H1 & H2 & Hne). exists r1. split; [|done].
    apply list_elem_of_bind. exists r2. split; [|done].
    rewrite decide_True by done. by apply list_elem_of_singleton.
Qed.

(** A run of [mapM] that records calls: the values in order, and the
    records of the elements one after the other. *)
Lemma mapM_traced {A B} (f : A -> traced B) (l : list A) :
  mapM (M := traced) f l
  = ((fun x => (f x).1) <$> l, l ≫= fun x => (f x).2).
Proof.
  induction l as [|x l IH]; [done|].
  cbn [mapM]. rewrite IH. unfold mbind at 1 2, traced_bind, mret, traced_ret.
  cbn [fst snd fmap list_fmap]. by rewrite app_nil_r.
Qed.

(** Run with an estimator that records its calls, the loops of [PCC]
    return the matrix of [PCC] and make the calls of [PCC_calls], in
    that order. *)
Lemma PCC_M_observed covas regions group :
  PCC_M (observed partial_corr) covas regions group
  = (PCC partial_corr covas regions group, PCC_calls regions).
Proof.
  unfold PCC_M, PCC, PCC_calls. rewrite mapM_traced. f_equal.
  - apply list_fmap_ext. intros _ r1 _. rewrite mapM_traced. cbn [fst].
    apply list_fmap_ext. intros _ r2 _. by case_decide.
  - apply list_bind_ext; [|done]. intros r1. rewrite mapM_traced. cbn [snd].
    apply list_bind_ext; [|done]. intros r2. by case_decide.
Qed.

(** C5, as the program has it, for every region list and every table.
    Run with an estimator that records its calls, the loops of [PCC]
    return the matrix [A] of [PCC] and call the estimator once for every
    ordered pair of positions with different names, row by row.  The
    diagonal of [A] is exactly 1.  For two different names the entries
    (i, j) and (j, i) are the values of two calls, with the two targets
    exchanged, so each unordered pair is estimated twice; the matrix is
    symmetric whenever the estimator returns the same value for both
    orders of its targets. *)
Theorem PCC_diagonal_and_ordered_pairs (covas regions : list string)
    (group : DataFrame F) :
  let A := PCC partial_corr covas regions group in
  PCC_M (observed partial_corr) covas regions group
    = (A, PCC_calls regions) /\
  (forall i, i < length regions -> mget A i i = Some fone) /\
  (forall i j ri rj,
     regions !! i = Some ri -> regions !! j = Some rj -> ri ≠ rj ->
     mget A i j = Some (partial_corr group ri rj covas) /\
     mget A j i = Some (partial_corr group rj ri covas) /\
     (ri, rj) ∈ PCC_calls regions /\ (rj, ri) ∈ PCC_calls regions) /\
  ((forall x y, partial_corr group x y covas = partial_corr group y x covas) ->
   forall i j, i < length regions -> j < length regions ->
     mget A i j = mget A j i).
Proof.
  intros A. unfold A. split; [apply PCC_M_observed|]. split; [|split].
  - intros i Hi. destruct (lookup_lt_is_Some_2 regions i Hi) as [ri Hri].
    rewrite (PCC_entry _ _ _ i i ri ri) by done.
    by rewrite decide_False by (intros Hc; by apply Hc).
  - intros i j ri rj Hi Hj Hne.
    rewrite (PCC_entry _ _ _ i j ri rj), (PCC_entry _ _ _ j i rj ri) by done.
    rewrite !decide_True by done.
    repeat split; try done; apply PCC_calls_elem;
      eauto using list_elem_of_lookup_2.
  - intros Hsym i j Hi Hj.
    destruct (lookup_lt_is_Some_2 regions i Hi) as [ri Hri].
    destruct (lookup_lt_is_Some_2 regions j Hj) as [rj Hrj].
    rewrite (PCC_entry _ _ _ i j ri rj), (PCC_entry _ _ _ j i rj ri) by done.
    destruct (decide (ri = rj)) as [->|Hne]; [done|].
    rewrite !decide_True by done. by rewrite Hsym.
Qed.
End PCC_properties.

(** Three subjects, one covariate, two regions, in binary64; the
    stand-in estimator does not depend on the order of its two target
    columns. *)
Lemma PCC_diagonal_and_ordered_pairs_witness :
  let pc := fun (g : DataFrame float) (x y : string) (_ : list string) =>
              (0.5 / float_of_Z (Z.of_nat (length (rows g))))%float in
  let group := {| columns := ["age"; "r1"; "r2"];
                  rows := [[30; 1; 2]; [40; 2; 1]; [50; 3; 5]]%float |} in
  let A := PCC pc ["age"] ["r1"; "r2"] group in
  PCC_M (observed pc) ["age"] ["r1"; "r2"] group
    = (A, [("r1", "r2"); ("r2", "r1")]) /\
  mget A 0 0 = Some 1%float /\ mget A 1 1 = Some 1%float /\
  mget A 0 1 = mget A 1 0.
Proof.
  intros pc group A.
  destruct (PCC_diagonal_and_ordered_pairs pc ["age"] ["r1"; "r2"] group)
    as (Hrun & Hdiag & _ & Hsym).
  split; [exact Hrun|]. split; [apply Hdiag; simpl; lia|].
  split; [apply Hdiag; simpl; lia|].
  apply Hsym; [done|simpl; lia..].
Defined.

(** C5 fails as stated.  With two regions the loops call the estimator
    twice for the one unordered pair, once in each order, whatever the
    estimator and the table are; entry (0, 1) is the value of the first
    call and entry (1, 0) the value of the second, and nothing
    reconciles the two. *)
Lemma PCC_estimates_each_pair_twice :
  (let pc := fun (g : DataFrame float) (x y : string) (_ : list string) =>
               (0.5 / float_of_Z (Z.of_nat (length (rows g))))%float in
   let group := {| columns := ["age"; "r1"; "r2"];
                   rows := [[30; 1; 2]; [40; 2; 1]; [50; 3; 5]]%float |} in
   (PCC_M (observed pc) ["age"] ["r1"; "r2"] group).2
   = [("r1", "r2"); ("r2", "r1")]) /\
  (forall (pc : DataFrame float -> string -> string -> list string -> float)
          (covas : list string) (group : DataFrame float),
     (PCC_M (observed pc) covas ["r1"; "r2"] group).2
       = [("r1", "r2"); ("r2", "r1")] /\
     mget (PCC pc covas ["r1"; "r2"] group) 0 1
       = Some (pc group "r1" "r2" covas) /\
     mget (PCC pc covas ["r1"; "r2"] group) 1 0
       = Some (pc group "r2" "r1" covas)).
Proof.
  split; [reflexivity|]. intros pc covas group. repeat split.
Qed.

(** ** The Benjamini-Hochberg step *)

Section fdrcorrection_structure.
Context {F : Type} `{Number F}.

Lemma insert_sorted_perm (x : F * nat) l : insert_sorted x l ≡ₚ x :: l.
Proof.
  induction l as [|y l IH]; cbn [insert_sorted]; [done|].
  destruct (sorts_before y.1 x.1); [|done]. rewrite IH.
  apply Permutation_swap.
Qed.

Lemma argsort_perm (pvals : list F) :
  argsort pvals ≡ₚ zip pvals (seq 0 (length pvals)).
Proof.
  unfold argsort. induction (zip pvals (seq 0 (length pvals))) as [|x l IH];
    simpl; [done|].
  by rewrite insert_sorted_perm, IH.
Qed.

Lemma length_argsort (pvals : list F) : length (argsort pvals) = length pvals.
Proof.
  rewrite (Permutation_length (argsort_perm pvals)), length_zip_with, length_seq.
  lia.
Qed.

Lemma argsort_indices (pvals : list F) :
  (argsort pvals).*2 ≡ₚ seq 0 (length pvals).
Proof.
  rewrite (argsort_perm pvals). rewrite snd_zip; [done|].
  by rewrite length_seq.
Qed.

Lemma argsort_lookup (pvals : list F) k v :
  pvals !! k = Some v -> exists r, argsort pvals !! r = Some (v, k).
Proof.
  intros Hk. apply list_elem_of_lookup_1. rewrite (argsort_perm pvals).
  apply list_elem_of_lookup. exists k.
  rewrite lookup_zip_with, Hk. simpl.
  rewrite lookup_seq_lt by (by apply lookup_lt_Some in Hk). done.
Qed.

Lemma length_minimum_accumulate_from acc (l : list F) :
  length (minimum_accumulate_from acc l) = length l.
Proof. revert acc. induction l as [|x l IH]; intros acc; simpl; [done|]. by rewrite IH. Qed.

Lemma length_minimum_accumulate (l : list F) :
  length (minimum_accumulate l) = length l.
Proof. destruct l; simpl; [done|]. by rewrite length_minimum_accumulate_from. Qed.

Lemma length_ecdf nobs : length (ecdf (F := F) nobs) = nobs.
Proof. unfold ecdf. by rewrite length_fmap, length_seq. Qed.

(** Storing through distinct in-range indices: every index receives the
    value paired with it. *)
Lemma scatter_loop_length (ivs : list (nat * F)) (out : list F) :
  length (foldl (fun out iv => <[iv.1 := iv.2]> out) out ivs) = length out.
Proof.
  revert out. induction ivs as [|iv ivs IH]; intros out; simpl; [done|].
  by rewrite IH, length_insert.
Qed.

Lemma scatter_loop_other (ivs : list (nat * F)) (out : list F) i :
  i ∉ ivs.*1 ->
  foldl (fun out iv => <[iv.1 := iv.2]> out) out ivs !! i = out !! i.
Proof.
  revert out. induction ivs as [|iv ivs IH]; intros out Hni; simpl; [done|].
  simpl in Hni. apply not_elem_of_cons in Hni as [Hne Hni].
  rewrite IH by done. by apply list_lookup_insert_ne.
Qed.

Lemma scatter_loop_lookup (ivs : list (nat * F)) (out : list F) k i v :
  NoDup ivs.*1 -> i < length out ->
  ivs !! k = Some (i, v) ->
  foldl (fun out iv => <[iv.1 := iv.2]> out) out ivs !! i = Some v.
Proof.
  revert out k. induction ivs as [|iv ivs IH]; intros out k Hnd Hlt Hk;
    [done|].
  simpl in Hnd. apply NoDup_cons in Hnd as [Hni Hnd]. simpl.
  destruct k as [|k]; simpl in Hk.
  - injection Hk as ->. simpl in *. rewrite scatter_loop_other by done.
    by apply list_lookup_insert_eq.
  - apply (IH _ k); [done| by rewrite length_insert |done].
Qed.

Lemma length_scatter sortind (vals : list F) :
  length (scatter sortind vals) = length vals.
Proof. unfold scatter. by rewrite scatter_loop_length, length_replicate. Qed.

Lemma scatter_lookup sortind (vals : list F) k i v :
  NoDup sortind -> length sortind = length vals -> i < length vals ->
  sortind !! k = Some i -> vals !! k = Some v ->
  scatter sortind vals !! i = Some v.
Proof.
  intros Hnd Hlen Hi Hk Hv. unfold scatter.
  apply (scatter_loop_lookup _ _ k).
  - rewrite fst_zip by lia. done.
  - by rewrite length_replicate.
  - by rewrite lookup_zip_with, Hk, Hv.
Qed.

Lemma length_fdrcorrection (pvals : list F) :
  length (fdrcorrection pvals) = length pvals.
Proof.
  unfold fdrcorrection.
  rewrite length_scatter, length_fmap, length_reverse,
    length_minimum_accumulate, length_reverse, length_zip_with,
    length_ecdf, !length_fmap, length_argsort.
  lia.
Qed.

(** [reverse (minimum_accumulate (reverse l))] takes running minima
    from the right. *)
Lemma minimum_accumulate_from_snoc acc (l : list F) x :
  minimum_accumulate_from acc (l ++ [x])
  = minimum_accumulate_from acc l
    ++ [fmin (default acc (last (minimum_accumulate_from acc l))) x].
Proof.
  revert acc. induction l as [|y l IH]; intros acc; simpl; [done|].
  rewrite IH.
  destruct (minimum_accumulate_from (fmin acc y) l) as [|z t]; simpl; [done|].
  destruct (last (z :: t)) as [w|] eqn:E; [done|]. by apply last_None in E.
Qed.

Lemma suffix_minimum_cons x (l : list F) :
  reverse (minimum_accumulate (reverse (x :: l)))
  = match reverse (minimum_accumulate (reverse l)) with
    | [] => [x]
    | y :: t => fmin y x :: y :: t
    end.
Proof.
  rewrite reverse_cons.
  destruct (reverse l) as [|z t] eqn:E; simpl; [done|].
  rewrite minimum_accumulate_from_snoc, app_comm_cons, reverse_snoc.
  f_equal.
  destruct (minimum_accumulate_from z t) as [|w u] eqn:E2 using rev_ind.
  - done.
  - rewrite last_snoc. simpl.
    by rewrite app_comm_cons, reverse_snoc.
Qed.
End fdrcorrection_structure.

Ltac list_lengths :=
  repeat (rewrite length_fmap || rewrite length_reverse
          || rewrite length_minimum_accumulate || rewrite length_zip_with
          || rewrite length_ecdf || rewrite length_argsort
          || rewrite length_seq).

Section fdrcorrection_entries.
Context {F : Type} `{Number F}.
Open Scope num_scope.

(** Where an adjusted p-value comes from: the entry at position [k] is
    the clipped running minimum at the rank [r] of [pvals[k]] in the
    sorted order. *)
Lemma fdrcorrection_lookup (pvals : list F) k v :
  pvals !! k = Some v ->
  exists r x,
    argsort pvals !! r = Some (v, k) /\
    reverse (minimum_accumulate (reverse
      (zip_with fdiv (argsort pvals).*1
                (ecdf (length (argsort pvals).*1)))))
      !! r = Some x /\
    fdrcorrection pvals !! k = Some (if fone <? x then fone else x).
Proof.
  intros Hk. destruct (argsort_lookup pvals k v Hk) as (r & Hr).
  assert (Hlt : r < length pvals).
  { rewrite <- (length_argsort pvals). by apply lookup_lt_Some in Hr. }
  destruct (lookup_lt_is_Some_2
    (reverse (minimum_accumulate (reverse
      (zip_with fdiv (argsort pvals).*1
                (ecdf (length (argsort pvals).*1)))))) r) as [x Hx].
  { list_lengths. lia. }
  exists r, x. split; [done|]. split; [done|].
  unfold fdrcorrection. apply (scatter_lookup _ _ r).
  - rewrite (argsort_indices pvals). apply NoDup_seq.
  - list_lengths. lia.
  - list_lengths. apply lookup_lt_Some in Hk. lia.
  - by rewrite list_lookup_fmap, Hr.
  - by rewrite list_lookup_fmap, Hx.
Qed.

(** No adjusted p-value is above 1: the comparison [1 < q] is false,
    also where [q] is NaN. *)
Lemma fdrcorrection_not_above_1 (pvals : list F) k q :
  (fone <? fone) = false ->
  fdrcorrection pvals !! k = Some q -> (fone <? q) = false.
Proof.
  intros H1 Hq.
  destruct (lookup_lt_is_Some_2 pvals k) as [v Hv].
  { rewrite <- (length_fdrcorrection pvals). by apply lookup_lt_Some in Hq. }
  destruct (fdrcorrection_lookup pvals k v Hv) as (r & x & _ & _ & Hq').
  rewrite Hq' in Hq. injection Hq as <-.
  by destruct (fone <? x) eqn:E.
Qed.
End fdrcorrection_entries.

(** Over exact rationals the sort is ascending and the adjusted values
    dominate the raw ones. *)
Section fdrcorrection_order.
Open Scope Q_scope.

Lemma Q_flt_true (x y : Q) : flt x y = true -> x < y.
Proof.
  simpl. intros Hlt. apply negb_true_iff in Hlt.
  apply Qnot_le_lt. intros Hle. apply Qle_bool_iff in Hle. congruence.
Qed.

Lemma Q_flt_false (x y : Q) : flt x y = false -> y <= x.
Proof.
  simpl. intros Hlt. apply negb_false_iff in Hlt. by apply Qle_bool_iff.
Qed.

Lemma Q_sorts_before (x y : Q) : sorts_before x y = flt x y.
Proof. unfold sorts_before. cbn [fisnan Q_Number]. apply orb_false_r. Qed.

Lemma insert_sorted_sorted (x : Q * nat) l :
  StronglySorted by_value l -> StronglySorted by_value (insert_sorted x l).
Proof.
  induction 1 as [|y l Hs IH Hy]; cbn [insert_sorted]; [repeat constructor|].
  rewrite Q_sorts_before. destruct (flt y.1 x.1) eqn:E.
  - constructor; [done|]. rewrite insert_sorted_perm. constructor; [|done].
    apply Q_flt_true in E. by apply Qlt_le_weak.
  - apply Q_flt_false in E. constructor; [by constructor|].
    constructor; [done|]. eapply Forall_impl; [exact Hy|].
    intros z Hz. unfold by_value in *. by apply (Qle_trans _ y.1).
Qed.

Lemma argsort_sorted (pvals : list Q) : StronglySorted by_value (argsort pvals).
Proof.
  unfold argsort. induction (zip pvals (seq 0 (length pvals))) as [|x l IH];
    simpl; [constructor|].
  by apply insert_sorted_sorted.
Qed.

Lemma argsort_values (pvals : list Q) : (argsort pvals).*1 ≡ₚ pvals.
Proof.
  rewrite (argsort_perm pvals). rewrite fst_zip; [done|].
  by rewrite length_seq.
Qed.

Lemma ecdf_step_ge (m r : nat) (v : Q) :
  (1 <= r <= m)%nat -> 0 <= v ->
  v <= v / (inject_Z (Z.of_nat r) / inject_Z (Z.of_nat m)).
Proof.
  intros Hr Hv.
  assert (Hm : 0 < inject_Z (Z.of_nat m)).
  { rewrite <- (Zlt_Qlt 0). lia. }
  assert (Hr0 : 0 < inject_Z (Z.of_nat r)).
  { rewrite <- (Zlt_Qlt 0). lia. }
  assert (He : 0 < inject_Z (Z.of_nat r) / inject_Z (Z.of_nat m)).
  { apply Qlt_shift_div_l; [done|]. by rewrite Qmult_0_l. }
  assert (He1 : inject_Z (Z.of_nat r) / inject_Z (Z.of_nat m) <= 1).
  { apply Qle_shift_div_r; [done|]. rewrite Qmult_1_l.
    rewrite <- Zle_Qle. lia. }
  apply Qle_shift_div_l; [done|].
  rewrite <- (Qmult_1_r v) at 2. rewrite !(Qmult_comm v).
  by apply Qmult_le_compat_r.
Qed.

Lemma suffix_minimum_ge (m : nat) (vs : list Q) (r0 : nat) :
  StronglySorted Qle vs -> Forall (Qle 0) vs ->
  (1 <= r0)%nat -> (r0 + length vs <= m + 1)%nat ->
  Forall2 Qle vs
    (reverse (minimum_accumulate (reverse (zip_with fdiv vs
       ((fun k => fofZ (Z.of_nat k) / fofZ (Z.of_nat m))%num
          <$> seq r0 (length vs)))))).
Proof.
  intros Hs. revert r0. induction Hs as [|v vs Hs IH Hv]; intros r0 H0 Hr Hlen.
  { constructor. }
  apply Forall_cons in H0 as [Hv0 H0]. simpl in Hlen.
  cbn [length seq fmap list_fmap zip_with]. rewrite suffix_minimum_cons.
  specialize (IH (S r0) H0 ltac:(lia) ltac:(lia)).
  assert (Hraw : v <= fdiv v (fdiv (fofZ (Z.of_nat r0)) (fofZ (Z.of_nat m)))).
  { simpl. apply ecdf_step_ge; [lia|done]. }
  destruct (reverse _) as [|y t] eqn:E.
  - apply Forall2_nil_inv_r in IH as ->. by repeat constructor.
  - destruct vs as [|v' vs']; [by apply Forall2_nil_cons_inv in IH|].
    apply Forall2_cons in IH as [Hy IH].
    apply Forall_cons in Hv as [Hvv' _].
    constructor; [|by constructor].
    simpl. apply Q.min_glb; [by apply (Qle_trans _ v')|done].
Qed.

(** The adjusted p-value of every entry is at least the raw one. *)
Lemma fdrcorrection_ge (pvals : list Q) k v :
  Forall (fun p => 0 <= p <= 1) pvals ->
  pvals !! k = Some v ->
  exists q, fdrcorrection pvals !! k = Some q /\ v <= q.
Proof.
  intros Hrange Hk.
  destruct (argsort_lookup pvals k v Hk) as (r & Hr).
  assert (Hvals : Forall (fun p => 0 <= p <= 1) (argsort pvals).*1).
  { by rewrite argsort_values. }
  pose proof (suffix_minimum_ge (length (argsort pvals).*1)
    (argsort pvals).*1 1) as Hge.
  assert (Hv : (argsort pvals).*1 !! r = Some v).
  { by rewrite list_lookup_fmap, Hr. }
  assert (Hi : (argsort pvals).*2 !! r = Some k).
  { by rewrite list_lookup_fmap, Hr. }
  destruct (Forall2_lookup_l _ _ _ r v
    (Hge (StronglySorted_fmap fst by_value Qle _ (fun x y Hxy => Hxy)
            (argsort_sorted pvals))
         (Forall_impl _ _ _ Hvals (fun p Hp => proj1 Hp))
         ltac:(lia) ltac:(lia)) Hv) as (q & Hq & Hvq).
  exists (if flt fone q then fone else q). split.
  - unfold fdrcorrection. apply (scatter_lookup _ _ r).
    + rewrite (argsort_indices pvals). apply NoDup_seq.
    + list_lengths. lia.
    + list_lengths. apply lookup_lt_Some in Hk. lia.
    + done.
    + rewrite list_lookup_fmap. unfold ecdf. by rewrite Hq.
  - destruct (flt fone q) eqn:E; [|done].
    rewrite Forall_lookup in Hvals. by destruct (Hvals r v Hv).
Qed.
End fdrcorrection_order.

(** ** [P]: shapes and entries *)

Lemma length_concat_shaped {A} r c (m : list (list A)) :
  shaped r c m -> length (concat m) = r * c.
Proof.
  intros [<- Hrows]. induction Hrows as [|row m Hrow _ IH]; simpl; [done|].
  rewrite length_app, IH, Hrow. done.
Qed.

Lemma concat_lookup_shaped {A} r c (m : list (list A)) i j :
  shaped r c m -> j < c -> concat m !! (i * c + j) = mget m i j.
Proof.
  intros [_ Hrows] Hj. revert i.
  induction Hrows as [|row m Hrow _ IH]; intros i; simpl.
  - unfold mget. by rewrite !lookup_nil.
  - destruct i as [|i]; simpl.
    + unfold mget. simpl. apply lookup_app_l. lia.
    + rewrite lookup_app_r by lia.
      replace (c + i * c + j - length row) with (i * c + j) by lia.
      by rewrite IH.
Qed.

Lemma reshape_shaped {A} r c (l : list A) :
  length l = r * c -> shaped r c (reshape r c l).
Proof.
  revert l. induction r as [|r IH]; intros l Hlen; simpl.
  - by split.
  - destruct (IH (drop c l)) as [Hr Hrows].
    { rewrite length_drop. lia. }
    split; simpl; [by rewrite Hr|].
    constructor; [|done]. rewrite length_take. lia.
Qed.

Lemma reshape_lookup {A} r c (l : list A) i j :
  i < r -> j < c -> mget (reshape r c l) i j = l !! (i * c + j).
Proof.
  revert l i. induction r as [|r IH]; intros l i Hi Hj; [lia|].
  destruct i as [|i]; simpl.
  - unfold mget. simpl. by apply lookup_take_lt.
  - change (mget (reshape r c (drop c l)) i j = l !! (c + i * c + j)).
    rewrite IH by lia. rewrite lookup_drop. f_equal. lia.
Qed.

Section P_properties.
Context {F : Type} `{Number F}.
Variable norm_sf : F -> F.

Lemma P_raw (Z : matrix F) :
  (P norm_sf Z).1 = mmap (fun z => fmul (norm_sf (fabs z)) (fofZ 2)) Z.
Proof. done. Qed.

Lemma P_corrected r c (Z : matrix F) :
  shaped r c Z ->
  shaped r c (P norm_sf Z).2 /\
  forall i j, i < r -> j < c ->
    mget (P norm_sf Z).2 i j
    = fdrcorrection (concat (P norm_sf Z).1) !! (i * c + j).
Proof.
  intros HZ. rewrite P_raw. unfold P. cbn [snd].
  set (p := mmap _ Z).
  assert (Hp : shaped r c p) by (by apply shaped_mmap).
  destruct (decide (0 < r)) as [Hr|Hr].
  - rewrite (shaped_shape r c p Hp Hr). cbn [fst snd]. split.
    + apply reshape_shaped. rewrite length_fdrcorrection.
      by apply length_concat_shaped.
    + intros i j Hi Hj. by apply reshape_lookup.
  - assert (r = 0) as -> by lia. destruct Hp as [Hlen _].
    destruct p; [|done]. simpl. split; [by split|]. intros; lia.
Qed.
End P_properties.

(** ** Claims about [P] *)

(** C7, for a Z matrix of numbers (no NaN), in exact arithmetic.  For
    a tail function with values in [0, 1/2] (what [norm.sf] returns on
    [|z|]), every entry of the FDR-corrected matrix returned by [P] is
    at least the raw two-sided p-value at the same position; the
    correction runs over all entries of the matrix, the diagonal
    included. *)
Theorem P_corrected_ge_raw (norm_sf : Q -> Q) (r c : nat) (Z : matrix Q)
    (i j : nat) :
  (forall x, 0 <= x -> 0 <= norm_sf x /\ norm_sf x <= 1 # 2)%Q ->
  shaped r c Z -> i < r -> j < c ->
  exists p q,
    mget (P norm_sf Z).1 i j = Some p /\
    mget (P norm_sf Z).2 i j = Some q /\
    (P norm_sf Z).2
      = reshape r c (fdrcorrection (concat (P norm_sf Z).1)) /\
    (p <= q)%Q.
Proof.
  intros Hsf HZ Hi Hj.
  destruct (P_corrected norm_sf r c Z HZ) as [Hsh Hget].
  assert (Hp : shaped r c (P norm_sf Z).1).
  { rewrite P_raw. by apply shaped_mmap. }
  destruct (shaped_mget r c _ i j Hp Hi Hj) as [p Hpij].
  assert (Hrange : Forall (fun p => 0 <= p <= 1)%Q (concat (P norm_sf Z).1)).
  { rewrite P_raw. apply Forall_forall. intros x Hx.
    apply list_elem_of_In, in_concat in Hx as (row & Hrow & Hx).
    apply list_elem_of_In, list_elem_of_fmap in Hrow as (zs & -> & _).
    apply list_elem_of_In, list_elem_of_fmap in Hx as (z & -> & _).
    destruct (Hsf (Qabs z) (Qabs_nonneg z)) as [H0 H1]. simpl. split.
    - apply Qmult_le_0_compat; [done|]. discriminate.
    - apply (Qle_trans _ ((1 # 2) * inject_Z 2)).
      + apply Qmult_le_compat_r; [done|]. discriminate.
      + discriminate. }
  destruct (fdrcorrection_ge (concat (P norm_sf Z).1) (i * c + j) p Hrange)
    as (q & Hq & Hpq).
  { by rewrite (concat_lookup_shaped r c). }
  exists p, q. split; [done|]. split; [by rewrite Hget|]. split; [|done].
  unfold P. cbn [fst snd]. fold (mmap (fun z => fmul (norm_sf (fabs z)) (fofZ 2)) Z).
  by rewrite (shaped_shape r c _ (shaped_mmap _ r c Z HZ) ltac:(lia)).
Qed.

Lemma P_corrected_ge_raw_witness :
  let sf := fun x : Q => if Qle_bool 2 x then (1 # 40)%Q else (1 # 4)%Q in
  let Z := [[1; 3]; [3; 1]]%Q in
  exists p q,
    mget (P sf Z).1 0 1 = Some p /\
    mget (P sf Z).2 0 1 = Some q /\
    (P sf Z).2 = reshape 2 2 (fdrcorrection (concat (P sf Z).1)) /\
    (p <= q)%Q.
Proof.
  intros sf Z. apply (P_corrected_ge_raw sf 2 2 Z 0 1).
  - intros x _. unfold sf. destruct (Qle_bool 2 x); split; discriminate.
  - split; [reflexivity | repeat constructor].
  - lia.
  - lia.
Defined.

(** C7 fails as stated on a Z matrix that holds NaN, which [Z_score]
    returns where a zero difference meets a zero denominator.  In
    binary64, with scipy's value of [norm.sf] at 1: the raw p-value at
    (0, 0) is a number, the NaN p-values are sorted last, the running
    minimum from the right is NaN throughout, and every corrected entry
    is NaN, which is not greater than or equal to the raw entry. *)
Lemma P_corrected_nan_not_ge_raw :
  let sf := fun x : float =>
              if PrimFloat.eqb x 1 then 0x1.44ed0bb7cb20cp-3%float
              else nan in
  let Z := [[1; nan]; [nan; 1]]%float in
  (P sf Z).2 = [[nan; nan]; [nan; nan]]%float /\
  exists p q,
    mget (P sf Z).1 0 0 = Some p /\ mget (P sf Z).2 0 0 = Some q /\
    PrimFloat.is_nan p = false /\ PrimFloat.leb p q = false.
Proof.
  split; [reflexivity|]. eexists _, _. repeat split.
Qed.

(** ** [IDSCN] *)

Lemma for_each_Ok_preserves {S A} (Inv : S -> Prop)
    (body : A -> S -> result S) (xs : list A) (s s' : S) :
  Inv s ->
  (forall x s s', Inv s -> body x s = Ok s' -> Inv s') ->
  for_each body xs s = Ok s' -> Inv s'.
Proof.
  intros H0 Hstep. revert s H0.
  induction xs as [|x xs IH]; intros s H0; simpl.
  - by intros [= <-].
  - intros Hrun. apply bind_Ok in Hrun as (s1 & Hb & Hrun).
    apply (IH s1); [|done]. by apply (Hstep x s).
Qed.

Section IDSCN_properties.
Context {F : Type} `{Number F}.
Variable partial_corr : DataFrame F -> string -> string -> list string -> F.
Variable norm_sf : F -> F.

(** The loop body hands [df_n] on as it got it: the row with the count
    goes to [df]. *)
Lemma IDSCN_subject_df_n cova region ctrl PCCn sub_p df df_n dirs
    df' df_n' dirs' :
  IDSCN_subject partial_corr norm_sf cova region ctrl PCCn sub_p
    (df, df_n, dirs) = Ok (df', df_n', dirs') ->
  df_n' = df_n /\
  exists cnt, appended df' = appended df ++ [(sub_p.1, cnt)].
Proof.
  destruct sub_p as [sub p]. unfold IDSCN_subject.
  intros Hrun.
  apply bind_Ok in Hrun as (mixed & _ & Hrun).
  apply bind_Ok in Hrun as (Z & _ & Hrun).
  destruct (P norm_sf Z) as [ori_P correct_P].
  apply bind_Ok in Hrun as (df1 & H1 & Hrun).
  apply bind_Ok in Hrun as (df2 & H2 & Hrun).
  apply bind_Ok in Hrun as (df3 & H3 & Hrun).
  apply bind_Ok in Hrun as (df4 & H4 & Hrun).
  apply bind_Ok in Hrun as (df5 & H5 & Hrun).
  injection Hrun as <- <- <-. split; [done|].
  unfold iloc_assign in *. repeat case_decide; try done.
  injection H1 as <-. injection H2 as <-. injection H3 as <-.
  injection H4 as <-.
  unfold loc_append in H5. case_decide; [|done]. injection H5 as <-.
  simpl. eauto.
Qed.

(** C2 against the program.  Whenever a run completes, the frame
    written to [count_significant.csv] has no row at all: the per-patient
    row is appended to [df], and [df_n] is written as it was created. *)
Theorem IDSCN_count_significant_has_no_rows (cova region : list string)
    (ctrl : DataFrame F) (pati_subs : list string) (pati : DataFrame F)
    (out : outputs F) :
  IDSCN partial_corr norm_sf cova region ctrl pati_subs pati = Ok out ->
  count_significant_csv out = [].
Proof.
  unfold IDSCN. intros Hrun.
  apply bind_Ok in Hrun as (df0 & _ & Hrun).
  apply bind_Ok in Hrun as ([[df df_n] dirs] & Hloop & Hrun).
  injection Hrun as <-. simpl.
  apply (for_each_Ok_preserves (fun st => st.1.2 = [])) in Hloop; [done|done|].
  intros x [[df1 dfn1] dirs1] [[df2 dfn2] dirs2] Hinv Hbody. simpl in *.
  apply IDSCN_subject_df_n in Hbody as [-> _]. done.
Qed.
End IDSCN_properties.

(** One patient, two regions: the run completes, the patient's four
    matrices are written, and [count_significant.csv] has no row for
    the patient. *)
Lemma IDSCN_count_significant_has_no_rows_witness :
  let pc := fun (g : DataFrame float) (x y : string) (_ : list string) =>
              if decide (length (rows g) = 3) then 0.5%float
              else 0.75%float in
  let sf := fun x : float =>
              if PrimFloat.ltb x 2 then 0.25%float else 0.0009765625%float in
  let ctrl := {| columns := ["age"; "r1"; "r2"];
                 rows := [[30; 1; 2]; [40; 2; 4.5]; [50; 3; 6]]%float |} in
  let pati := {| columns := ["age"; "r1"; "r2"];
                 rows := [[35; 3; 1]]%float |} in
  exists out,
    IDSCN pc sf ["age"] ["r1"; "r2"] ctrl ["sub-001"] pati = Ok out /\
    length (subject_dirs out) = 1 /\
    count_significant_csv out = [].
Proof.
  intros pc sf ctrl pati. eexists. split; [vm_compute; reflexivity|].
  split; [reflexivity|].
  apply (IDSCN_count_significant_has_no_rows pc sf ["age"] ["r1"; "r2"]
           ctrl ["sub-001"] pati).
  vm_compute. reflexivity.
Defined.

(** Whatever the estimator and the tail function: with two regions and
    one patient the run completes and leaves [count_significant.csv]
    without a row. *)
Lemma shaped_transpose {A} r c (m : list (list A)) :
  shaped r c m -> 0 < r -> shaped c r (transpose m).
Proof.
  intros Hm Hr. unfold transpose. rewrite (shaped_shape r c m Hm Hr).
  destruct Hm as [<- Hrows]. clear Hr. cbn [snd].
  induction Hrows as [|row m Hrow _ IH]; simpl.
  - split; [apply length_replicate|]. by apply Forall_replicate.
  - destruct IH as [Hlen Hall]. split.
    + rewrite length_zip_with. lia.
    + apply Forall_lookup. intros k col Hcol.
      apply lookup_zip_with_Some in Hcol as (x & t & -> & _ & Ht).
      rewrite Forall_lookup in Hall. simpl. by rewrite (Hall k t Ht).
Qed.

Section IDSCN_two_regions.
Context {F : Type} `{Number F}.
Variable partial_corr : DataFrame F -> string -> string -> list string -> F.
Variable norm_sf : F -> F.

Lemma IDSCN_one_patient_two_regions (cova : list string) (r1 r2 : string)
    (ctrl pati : DataFrame F) (sub : string) (p : list F) :
  rows pati = [p] -> length p = length cova + 2 ->
  exists out,
    IDSCN partial_corr norm_sf cova [r1; r2] ctrl [sub] pati = Ok out /\
    length (subject_dirs out) = 1 /\
    count_significant_csv out = [].
Proof.
  intros Hrows Hp.
  assert (Hsq : forall g, shaped 2 2 (PCC partial_corr cova [r1; r2] g)).
  { intros g. apply (PCC_shaped partial_corr cova [r1; r2] g). }
  assert (Hsh : forall m : matrix F, shaped 2 2 m -> shape (transpose m) = (2, 2)).
  { intros m Hm. apply shaped_shape; [|lia]. apply shaped_transpose; [done|lia]. }
  unfold IDSCN. rewrite Hrows.
  unfold iloc_assign at 1. cbn [nrows ncols length].
  rewrite decide_True by (by apply Hsh). cbn [mbind result_bind].
  cbn [zip_with for_each]. unfold IDSCN_subject.
  unfold mix_group. rewrite decide_True by (rewrite length_app; simpl; lia).
  cbn [mbind result_bind].
  set (ctrl' := pd_concat ctrl _).
  set (PCCn := PCC partial_corr cova [r1; r2] ctrl).
  set (PCCn_1 := PCC partial_corr cova [r1; r2] ctrl').
  assert (Hdelta : shaped 2 2 (map2 fsub PCCn_1 PCCn)).
  { apply shaped_map2; apply Hsq. }
  destruct (Z_score_spec 2 PCCn _ (Hsq ctrl) Hdelta)
    as (d & Z & _ & HZ & HZs & _).
  rewrite HZ. cbn [mbind result_bind].
  destruct (P_corrected norm_sf 2 2 Z HZs) as [HPs _].
  pose proof (P_raw norm_sf Z) as Hraw.
  destruct (P norm_sf Z) as [ori_P correct_P]. cbn [fst snd] in *.
  assert (HoP : shaped 2 2 ori_P) by (rewrite Hraw; by apply shaped_mmap).
  unfold iloc_assign, loc_append.
  repeat (cbn [nrows ncols mbind result_bind];
          rewrite decide_True by (done || apply Hsh; done || apply Hsq)).
  cbn [mbind result_bind].
  eexists. split; [reflexivity|]. done.
Qed.
End IDSCN_two_regions.

(** ** Edge aggregation *)

Lemma argwhere_elem (mask : list (list bool)) i j :
  (i, j) ∈ argwhere mask <-> mget mask i j = Some true.
Proof.
  unfold argwhere, mget. rewrite list_elem_of_In, in_concat. split.
  - intros (l & Hl & Hin). apply list_elem_of_In in Hl, Hin.
    apply elem_of_lookup_imap in Hl as (a & row & -> & Hrow).
    apply list_elem_of_omap in Hin as (o & Ho & Heq). simpl in Heq. subst o.
    apply elem_of_lookup_imap in Ho as (b & x & Hx & Hb).
    destruct x; [|done]. injection Hx as -> ->. by rewrite Hrow.
  - intros Hget. destruct (mask !! i) as [row|] eqn:Hrow; [|done].
    simpl in Hget. eexists. split.
    + apply list_elem_of_In. by apply (elem_of_lookup_imap_2 _ mask row i).
    + apply list_elem_of_In, list_elem_of_omap. exists (Some (i, j)).
      split; [|done].
      by apply (elem_of_lookup_imap_2
                  (fun j (b : bool) => if b then Some (i, j) else None)
                  row true j).
Qed.

Lemma mapM_Ok {A B} (f : A -> result B) (g : A -> B) (l : list A) :
  (forall x, x ∈ l -> f x = Ok (g x)) -> mapM f l = Ok (g <$> l).
Proof.
  induction l as [|x l IH]; intros Hf; simpl; [done|].
  rewrite (Hf x) by apply list_elem_of_here. simpl.
  rewrite IH; [done|]. intros y Hy. apply Hf. by apply list_elem_of_further.
Qed.

Section Aggregation_properties.
Context {F : Type} `{Number F}.
Open Scope num_scope.

(** [significant[rows, cols] = significant[rows, cols] + 1] over the
    positions of a mask of the same shape. *)
Lemma increment_at_spec r c (S : matrix F) (mask : list (list bool)) :
  shaped r c S -> shaped r c mask ->
  exists S', increment_at S (argwhere mask) = Ok S' /\ shaped r c S' /\
    forall i j x, mget S i j = Some x ->
      mget S' i j = Some (if default false (mget mask i j)
                          then x + fone else x).
Proof.
  intros HS Hmask. unfold increment_at.
  assert (Hin : forall i j, (i, j) ∈ argwhere mask -> i < r /\ j < c).
  { intros i j Hij. apply argwhere_elem in Hij. unfold mget in Hij.
    destruct (mask !! i) as [row|] eqn:Hrow; [|done]. simpl in Hij.
    destruct Hmask as [Hlen Hrows]. split.
    - apply lookup_lt_Some in Hrow. lia.
    - rewrite Forall_lookup in Hrows. rewrite <- (Hrows i row Hrow).
      by apply lookup_lt_Some in Hij. }
  rewrite (mapM_Ok _ (fun ij => default fzero (mget S ij.1 ij.2) + fone)).
  2:{ intros [i j] Hij. destruct (Hin i j Hij) as [Hi Hj].
      destruct (shaped_mget r c S i j HS Hi Hj) as [x Hx]. simpl.
      by rewrite Hx. }
  cbn [mbind result_bind].
  set (vals := _ <$> argwhere mask).
  destruct (for_each_invariant
    (fun done s => shaped r c s /\
       forall i j x, mget S i j = Some x ->
         mget s i j = Some (if decide ((i, j) ∈ done.*1)
                            then x + fone else x))
    (fun (w : nat * nat * F) s => mset s w.1.1 w.1.2 w.2)
    (zip (argwhere mask) vals) S) as (S' & Hrun & HS' & Hget).
  - split; [done|]. intros i j x Hx. rewrite decide_False; [done|].
    apply not_elem_of_nil.
  - intros done [[i j] v] s [Hs Hgs] (rest & Hxs).
    assert (Hw : (i, j, v) ∈ zip (argwhere mask) vals).
    { rewrite Hxs. apply elem_of_app. right. apply list_elem_of_here. }
    apply list_elem_of_lookup in Hw as (k & Hk).
    apply lookup_zip_with_Some in Hk as (ij & v' & [= <- <-] & Hij & Hv).
    unfold vals in Hv. rewrite list_lookup_fmap, Hij in Hv.
    injection Hv as <-. cbn [fst snd].
    destruct (Hin i j (list_elem_of_lookup_2 _ _ _ Hij)) as [Hi Hj].
    destruct (mset_spec r c s i j
                (default fzero (mget S i j) + fone) Hs Hi Hj)
      as (s' & Hset & Hs' & Hgs').
    exists s'. split; [done|]. split; [done|]. intros a b x Hx.
    rewrite Hgs', fmap_app, (Hgs a b x Hx). cbn [fmap list_fmap fst].
    destruct (decide (a = i /\ b = j)) as [[-> ->]|Hne].
    + rewrite Hx. cbn [default]. rewrite decide_True; [done|].
      apply elem_of_app. right. apply list_elem_of_here.
    + destruct (decide ((a, b) ∈ done.*1)) as [Hd|Hd].
      * rewrite decide_True; [done|]. apply elem_of_app. by left.
      * rewrite decide_False; [done|]. intros Hc.
        apply elem_of_app in Hc as [Hc|Hc]; [done|].
        apply list_elem_of_singleton in Hc as [= -> ->]. tauto.
  - exists S'. split; [done|]. split; [done|]. intros i j x Hx.
    rewrite (Hget i j x Hx). f_equal. unfold vals.
    rewrite fst_zip by (by rewrite length_fmap).
    destruct (decide ((i, j) ∈ argwhere mask)) as [Hd|Hd].
    + apply argwhere_elem in Hd. by rewrite Hd.
    + destruct (mget mask i j) as [[]|] eqn:E; try done.
      by apply argwhere_elem in E.
Qed.
End Aggregation_properties.

Lemma for_each_ext {M A} (f g : A -> M -> result M) (xs : list A) (s : M) :
  (forall x s, f x s = g x s) -> for_each f xs s = for_each g xs s.
Proof.
  intros Hfg. revert s. induction xs as [|x xs IH]; intros s; simpl; [done|].
  rewrite Hfg. destruct (g x s); simpl; [apply IH|done].
Qed.

Section Counting_properties.
Context {F : Type} `{Number F}.
Open Scope num_scope.

Lemma hits_snoc (sel : matrix F -> matrix F) Zs Z i j :
  hits sel (Zs ++ [Z]) i j
  = (hits sel Zs i j + (if below_at (sel Z) i j then 1 else 0))%nat.
Proof.
  unfold hits. rewrite filter_app, length_app. f_equal.
  rewrite filter_cons, filter_nil. by destruct (below_at (sel Z) i j).
Qed.

Lemma increments_succ k :
  increments (k + 1)%nat = increments (F := F) k + fone.
Proof. unfold increments. by rewrite Nat.add_1_r. Qed.

Lemma below_005_entry (m : matrix F) i j :
  default false (mget (below_005 m) i j) = below_at m i j.
Proof.
  unfold below_005, below_at. rewrite mget_mmap. by destruct (mget m i j).
Qed.

(** The count loop over the patients: each entry ends as the number of
    patients whose selected matrix is below 0.05 there. *)
Lemma count_loop_spec (sel : matrix F -> matrix F) r c (Zs : list (matrix F)) :
  0 < r -> Zs <> [] ->
  (forall Z, Z ∈ Zs -> shaped r c Z /\ shaped r c (sel Z)) ->
  exists M, for_each (count_step sel) Zs None = Ok (Some M) /\
    shaped r c M /\
    forall i j, i < r -> j < c ->
      mget M i j = Some (increments (hits sel Zs i j)).
Proof.
  intros Hr Hne Hsh.
  destruct (for_each_invariant
    (fun done st =>
       match st with
       | None => done = []
       | Some M => done <> [] /\ shaped r c M /\
           forall i j, i < r -> j < c ->
             mget M i j = Some (increments (hits sel done i j))
       end)
    (count_step sel) Zs None) as (st & Hrun & Hinv).
  - done.
  - intros done Z st Hinv (rest & HZs).
    destruct (Hsh Z) as [HZ HselZ].
    { rewrite HZs. apply elem_of_app. right. apply list_elem_of_here. }
    unfold count_step.
    set (S0 := match st with None => np_full fzero (shape Z) | Some s => s end).
    assert (HS0 : shaped r c S0 /\ forall i j, i < r -> j < c ->
              mget S0 i j = Some (increments (hits sel done i j))).
    { unfold S0. destruct st as [M|].
      - by destruct Hinv as (_ & ? & ?).
      - subst done. rewrite (shaped_shape r c Z HZ Hr). split.
        + apply shaped_np_full.
        + intros i j Hi Hj. by rewrite mget_np_full. }
    destruct HS0 as [HS0 Hget0].
    assert (Hmask : shaped r c (below_005 (sel Z))) by (by apply shaped_mmap).
    assert (Hsnoc : done ++ [Z] <> []) by (by destruct done).
    case_decide as Hidx.
    + destruct (increment_at_spec r c S0 _ HS0 Hmask)
        as (M' & HS'run & HS' & Hget').
      rewrite HS'run. cbn [mbind result_bind]. eexists. split; [done|].
      split; [done|]. split; [done|]. intros i j Hi Hj.
      rewrite (Hget' i j _ (Hget0 i j Hi Hj)), below_005_entry, hits_snoc.
      destruct (below_at (sel Z) i j); [by rewrite increments_succ|].
      by rewrite Nat.add_0_r.
    + eexists. split; [done|]. split; [done|]. split; [done|].
      intros i j Hi Hj. rewrite (Hget0 i j Hi Hj), hits_snoc.
      destruct (below_at (sel Z) i j) eqn:E; [|by rewrite Nat.add_0_r].
      exfalso. apply Hidx.
      rewrite <- below_005_entry in E.
      destruct (mget (below_005 (sel Z)) i j) as [[]|] eqn:E2; try done.
      apply argwhere_elem in E2.
      destruct (argwhere (below_005 (sel Z))); [by apply elem_of_nil in E2|].
      simpl. lia.
  - destruct st as [M|]; [|done]. destruct Hinv as (_ & HS & Hget).
    by exists M.
Qed.

Variable norm_sf : F -> F.

Lemma subtype_significant_eq (Zs : list (matrix F)) :
  subtype_significant norm_sf Zs
  = for_each (count_step (fun Z => (P norm_sf Z).2)) Zs None.
Proof.
  unfold subtype_significant. apply for_each_ext. intros Z st.
  unfold count_step. by destruct (P norm_sf Z).
Qed.

Lemma getConnection_significant_eq (fdr : bool) (Zs : list (matrix F)) :
  getConnection_significant norm_sf fdr Zs
  = for_each (count_step (fun Z => if fdr then (P norm_sf Z).2
                                   else (P norm_sf Z).1)) Zs None.
Proof.
  unfold getConnection_significant. apply for_each_ext. intros Z st.
  unfold count_step. by destruct (P norm_sf Z), fdr.
Qed.

(** C9.  Over patients' Z matrices of one shape, both loops complete;
    [subtype] counts at each position the patients whose FDR-corrected
    p-value is below 0.05, [getConnection] with [fdr=False] (its
    default) those whose uncorrected p-value is below 0.05, and
    [getConnection] with [fdr=True] counts what [subtype] counts. *)
Theorem aggregation_thresholds (r c : nat) (Zs : list (matrix F)) :
  0 < r -> Zs <> [] -> Forall (shaped r c) Zs ->
  exists S_fdr S_raw,
    subtype_significant norm_sf Zs = Ok (Some S_fdr) /\
    getConnection_significant norm_sf false Zs = Ok (Some S_raw) /\
    getConnection_significant norm_sf true Zs = Ok (Some S_fdr) /\
    forall i j, i < r -> j < c ->
      mget S_fdr i j
        = Some (increments (hits (fun Z => (P norm_sf Z).2) Zs i j)) /\
      mget S_raw i j
        = Some (increments (hits (fun Z => (P norm_sf Z).1) Zs i j)).
Proof.
  intros Hr Hne Hall. rewrite Forall_forall in Hall.
  destruct (count_loop_spec (fun Z => (P norm_sf Z).2) r c Zs Hr Hne)
    as (S_fdr & Hfdr & _ & Hgf).
  { intros Z HZ. split; [by apply Hall|].
    by apply (P_corrected norm_sf r c Z), Hall. }
  destruct (count_loop_spec (fun Z => (P norm_sf Z).1) r c Zs Hr Hne)
    as (S_raw & Hraw & _ & Hgr).
  { intros Z HZ. split; [by apply Hall|].
    rewrite P_raw. by apply shaped_mmap, Hall. }
  exists S_fdr, S_raw.
  rewrite subtype_significant_eq, !getConnection_significant_eq.
  repeat split; try done.
  - by apply Hgf.
  - by apply Hgr.
Qed.
End Counting_properties.

(** One patient whose off-diagonal raw p-value 0.04 is corrected to
    0.08: [getConnection] counts the edge, [subtype] does not. *)
Lemma aggregation_thresholds_witness :
  let sf := fun x : Q => if Qle_bool 2 x then (1 # 50)%Q else (1 # 4)%Q in
  let Zs := [[[1; 3]; [3; 1]]%Q] in
  exists S_fdr S_raw,
    subtype_significant sf Zs = Ok (Some S_fdr) /\
    getConnection_significant sf false Zs = Ok (Some S_raw) /\
    getConnection_significant sf true Zs = Ok (Some S_fdr) /\
    forall i j, i < 2 -> j < 2 ->
      mget S_fdr i j = Some (increments (hits (fun Z => (P sf Z).2) Zs i j)) /\
      mget S_raw i j = Some (increments (hits (fun Z => (P sf Z).1) Zs i j)).
Proof.
  intros sf Zs. apply (aggregation_thresholds sf 2 2 Zs).
  - lia.
  - discriminate.
  - repeat constructor.
Defined.

Lemma aggregation_thresholds_differ :
  let sf := fun x : Q => if Qle_bool 2 x then (1 # 50)%Q else (1 # 4)%Q in
  let Zs := [[[1; 3]; [3; 1]]%Q] in
  hits (fun Z => (P sf Z).1) Zs 0 1 = 1 /\
  hits (fun Z => (P sf Z).2) Zs 0 1 = 0.
Proof. split; reflexivity. Qed.

(** ** The double loops of [SCN] *)

Lemma for_range_ext {S} lo hi (f g : nat -> S -> result S) (s : S) :
  (forall k s, lo <= k < hi -> f k s = g k s) ->
  for_range lo hi f s = for_range lo hi g s.
Proof.
  intros Hfg. unfold for_range.
  assert (Hin : forall k, k ∈ seq lo (hi - lo) -> lo <= k < hi).
  { intros k Hk. apply elem_of_seq in Hk. lia. }
  revert s Hin. induction (seq lo (hi - lo)) as [|x xs IH]; intros s Hin;
    simpl; [done|].
  rewrite Hfg by (apply Hin, list_elem_of_here).
  destruct (g x s); simpl; [|done].
  apply IH. intros k Hk. apply Hin. by apply list_elem_of_further.
Qed.

Section fill_upper_properties.
Context {F : Type} `{Number F}.

(** Off the diagonal the array holds the value computed for the pair
    taken in ascending order; the diagonal is never stored to and stays
    zero. *)
Lemma fill_upper_spec (n : nat) (val : nat -> nat -> result F)
    (f : nat -> nat -> F) :
  (forall i j, i < j < n -> val i j = Ok (f i j)) ->
  exists M, fill_upper n val = Ok M /\ shaped n n M /\
    forall a b, a < n -> b < n ->
      mget M a b = Some (if decide (a = b) then fzero
                         else f (a `min` b) (a `max` b)).
Proof.
  intros Hval. unfold fill_upper.
  destruct (for_range_invariant
    (fun k M => shaped n n M /\
       forall a b, a < n -> b < n ->
         mget M a b = Some (if decide (a <> b /\ a `min` b < k)
                            then f (a `min` b) (a `max` b) else fzero))
    0 n
    (fun i m => for_range (i + 1) n (fun j m =>
       v ← val i j; m ← mset m i j v; mset m j i v) m)
    (np_full fzero (n, n))) as (M & Hrun & HM & Hget).
  - lia.
  - split; [apply shaped_np_full|]. intros a b Ha Hb.
    rewrite mget_np_full by done. rewrite decide_False; [done|lia].
  - intros i M0 Hi [HM0 Hget0].
    destruct (for_range_invariant
      (fun j M => shaped n n M /\
         forall a b, a < n -> b < n ->
           mget M a b
           = Some (if decide (a <> b /\
                      (a `min` b < i \/ (a `min` b = i /\ a `max` b < j)))
                   then f (a `min` b) (a `max` b) else fzero))
      (i + 1) n
      (fun j m => v ← val i j; m ← mset m i j v; mset m j i v) M0)
      as (M1 & Hrun1 & HM1 & Hget1).
    + lia.
    + split; [done|]. intros a b Ha Hb. rewrite (Hget0 a b Ha Hb).
      repeat case_decide; try done; lia.
    + intros j M Hj [HMs HgetM]. rewrite (Hval i j) by lia.
      cbn [mbind result_bind].
      destruct (mset_spec n n M i j (f i j) HMs) as (M' & Hs1 & HM' & Hg1);
        [lia..|].
      rewrite Hs1. cbn [mbind result_bind].
      destruct (mset_spec n n M' j i (f i j) HM') as (M'' & Hs2 & HM'' & Hg2);
        [lia..|].
      exists M''. split; [done|]. split; [done|]. intros a b Ha Hb.
      rewrite Hg2, Hg1, (HgetM a b Ha Hb).
      destruct (decide (a = j /\ b = i)) as [[-> ->]|Hn1].
      { rewrite decide_True by lia.
        by rewrite Nat.min_r, Nat.max_l by lia. }
      destruct (decide (a = i /\ b = j)) as [[-> ->]|Hn2].
      { rewrite decide_True by lia.
        by rewrite Nat.min_l, Nat.max_r by lia. }
      repeat case_decide; try done; lia.
    + exists M1. split; [done|]. split; [done|]. intros a b Ha Hb.
      rewrite (Hget1 a b Ha Hb). repeat case_decide; try done; lia.
  - exists M. split; [done|]. split; [done|]. intros a b Ha Hb.
    rewrite (Hget a b Ha Hb). repeat case_decide; try done; lia.
Qed.
End fill_upper_properties.

Lemma mapM_Ok_Forall {A B} (f : A -> result B) (Q : B -> Prop) (l : list A) :
  (forall x, x ∈ l -> exists y, f x = Ok y /\ Q y) ->
  exists ys, mapM f l = Ok ys /\ length ys = length l /\ Forall Q ys.
Proof.
  induction l as [|x l IH]; intros Hf; simpl.
  - by exists [].
  - destruct (Hf x) as (y & Hy & HQ); [apply list_elem_of_here|].
    destruct IH as (ys & Hys & Hlen & HQs).
    { intros z Hz. apply Hf. by apply list_elem_of_further. }
    rewrite Hy. cbn [mbind result_bind]. rewrite Hys. cbn [mbind result_bind].
    exists (y :: ys). split; [done|]. split; [by rewrite <- Hlen|].
    by constructor.
Qed.

Section SCN_properties.
Context {F : Type} `{Number F}.
Open Scope num_scope.
Variable partial_corr : DataFrame F -> string -> string -> list string -> F.
Variable arctanh : F -> F.
Variable np_mean : list F -> F.
Variable np_std : list F -> F.

Lemma fill_upper_entries (n : nat) (val : nat -> nat -> result F) :
  (forall i j, (i < j < n)%nat -> exists v, val i j = Ok v) ->
  exists M, fill_upper n val = Ok M /\ shaped n n M /\
    (forall a, (a < n)%nat -> mget M a a = Some fzero) /\
    (forall i j, (i < j < n)%nat ->
       exists v, val i j = Ok v /\
         mget M i j = Some v /\ mget M j i = Some v).
Proof.
  intros Hval.
  destruct (fill_upper_spec n val
    (fun i j => match val i j with Ok v => v | Raise _ => fzero end))
    as (M & Hrun & HM & Hget).
  { intros i j Hij. by destruct (Hval i j Hij) as (v & ->). }
  exists M. split; [done|]. split; [done|]. split.
  - intros a Ha. rewrite (Hget a a Ha Ha). by rewrite decide_True.
  - intros i j Hij. destruct (Hval i j Hij) as (v & Hv). exists v.
    split; [done|].
    rewrite (Hget i j), (Hget j i) by lia.
    rewrite !decide_False by lia.
    rewrite Nat.min_l, Nat.max_r, Nat.min_r, Nat.max_l by lia.
    by rewrite Hv.
Qed.

Lemma SCN_z_matrix_eq n D_obs D_permuted :
  SCN_z_matrix np_mean np_std n D_obs D_permuted
  = fill_upper n (fun i j =>
      obs ← read D_obs i j;
      null ← samples_at D_permuted i j;
      Ok ((obs - np_mean null) / np_std null)).
Proof.
  unfold SCN_z_matrix, fill_upper.
  apply for_range_ext. intros i m _. apply for_range_ext. intros j m' _.
  destruct (read D_obs i j); [|done]. cbn [mbind result_bind].
  by destruct (samples_at D_permuted i j).
Qed.

Lemma SCN_p_matrix_eq n n_permutations diff_real D_permuted :
  SCN_p_matrix n n_permutations diff_real D_permuted
  = fill_upper n (fun i j =>
      d ← read diff_real i j;
      null ← samples_at D_permuted i j;
      Ok (SCN_p_value n_permutations d null)).
Proof.
  unfold SCN_p_matrix, fill_upper.
  apply for_range_ext. intros i m _. apply for_range_ext. intros j m' _.
  destruct (read diff_real i j); [|done]. cbn [mbind result_bind].
  by destruct (samples_at D_permuted i j).
Qed.

Lemma read_shaped r c (m : matrix F) i j :
  shaped r c m -> (i < r)%nat -> (j < c)%nat ->
  exists v, mget m i j = Some v /\ read m i j = Ok v.
Proof.
  intros Hm Hi Hj. destruct (shaped_mget r c m i j Hm Hi Hj) as [v Hv].
  exists v. unfold read. by rewrite Hv.
Qed.

Lemma samples_at_shaped n (D_permuted : list (matrix F)) i j :
  Forall (shaped n n) D_permuted -> (i < n)%nat -> (j < n)%nat ->
  exists null, samples_at D_permuted i j = Ok null /\
    length null = length D_permuted.
Proof.
  intros HD Hi Hj. unfold samples_at.
  destruct (mapM_Ok_Forall (fun D => read D i j) (fun _ => True) D_permuted)
    as (null & Hnull & Hlen & _); [|by exists null].
  intros D HDin. rewrite Forall_forall in HD.
  destruct (read_shaped n n D i j (HD D HDin) Hi Hj) as (v & _ & Hv).
  by exists v.
Qed.

Lemma iloc_rows_in_range (g : DataFrame F) (idx : list nat) :
  Forall (fun k => (k < length (rows g))%nat) idx ->
  exists g', iloc_rows g idx = Ok g'.
Proof.
  intros Hidx. unfold iloc_rows.
  destruct (mapM_Ok_Forall
    (fun k => match rows g !! k with Some r => Ok r | None => Raise IndexError end)
    (fun _ => True) idx) as (rs & Hrs & _).
  - intros k Hk. rewrite Forall_forall in Hidx.
    destruct (lookup_lt_is_Some_2 (rows g) k (Hidx k Hk)) as [r ->].
    by exists r.
  - rewrite Hrs. by eexists.
Qed.

(** With every drawn index inside the pooled table, the permutation
    loop returns one square array per permutation. *)
Lemma SCN_D_permuted_spec cova region (ctrl pati : DataFrame F)
    n_permutations permutation :
  (forall k, (k < n_permutations)%nat ->
     Forall (fun x => (x < length (rows ctrl) + length (rows pati))%nat)
            (permutation k)) ->
  exists D, SCN_D_permuted partial_corr cova region ctrl pati
              n_permutations permutation = Ok D /\
    length D = n_permutations /\
    Forall (shaped (length region) (length region)) D.
Proof.
  intros Hperm. unfold SCN_D_permuted.
  destruct (mapM_Ok_Forall
    (fun k =>
       g1_per ← iloc_rows (pd_concat ctrl pati)
                  (take (length (rows ctrl)) (permutation k));
       g2_per ← iloc_rows (pd_concat ctrl pati)
                  (drop (length (rows ctrl)) (permutation k));
       Ok (map2 fsub (PCC partial_corr cova region g2_per)
                     (PCC partial_corr cova region g1_per)))
    (shaped (length region) (length region)) (seq 0 n_permutations))
    as (D & HD & Hlen & Hsh).
  - intros k Hk. apply elem_of_seq in Hk.
    assert (Hk' : Forall (fun x => (x < length (rows (pd_concat ctrl pati)))%nat)
                         (permutation k)).
    { simpl. rewrite length_app. apply Hperm. lia. }
    destruct (iloc_rows_in_range (pd_concat ctrl pati)
                (take (length (rows ctrl)) (permutation k))) as (g1 & ->).
    { by apply Forall_take. }
    destruct (iloc_rows_in_range (pd_concat ctrl pati)
                (drop (length (rows ctrl)) (permutation k))) as (g2 & ->).
    { by apply Forall_drop. }
    eexists. split; [done|]. apply shaped_map2; apply PCC_shaped.
  - exists D. rewrite length_seq in Hlen. done.
Qed.

(** What a run of [SCN] returns. *)
Lemma SCN_spec cova region (ctrl pati : DataFrame F)
    n_permutations permutation :
  (forall k, (k < n_permutations)%nat ->
     Forall (fun x => (x < length (rows ctrl) + length (rows pati))%nat)
            (permutation k)) ->
  let diff_real := map2 fsub (PCC partial_corr cova region pati)
                             (PCC partial_corr cova region ctrl) in
  exists D z_matrix p_matrix,
    SCN_D_permuted partial_corr cova region ctrl pati
      n_permutations permutation = Ok D /\
    SCN partial_corr arctanh np_mean np_std cova region ctrl pati
      n_permutations permutation = Ok (z_matrix, p_matrix) /\
    (forall i, (i < length region)%nat ->
       mget z_matrix i i = Some fzero /\ mget p_matrix i i = Some fzero) /\
    (forall i j, (i < j < length region)%nat ->
       exists d null,
         mget diff_real i j = Some d /\
         samples_at D i j = Ok null /\
         length null = n_permutations /\
         mget p_matrix i j = Some (SCN_p_value n_permutations d null) /\
         mget p_matrix j i = Some (SCN_p_value n_permutations d null)).
Proof.
  intros Hperm diff_real.
  destruct (SCN_D_permuted_spec cova region ctrl pati n_permutations
              permutation Hperm) as (D & HD & HlenD & HshD).
  set (n := length region) in *.
  assert (Hdiff : shaped n n diff_real).
  { apply shaped_map2; apply PCC_shaped. }
  assert (Hlen : length diff_real = n) by (by destruct Hdiff).
  set (D_obs := mmap fabs (map2 fsub
                  (mmap arctanh (PCC partial_corr cova region ctrl))
                  (mmap arctanh (PCC partial_corr cova region pati)))).
  assert (Hobs : shaped n n D_obs).
  { apply shaped_mmap, shaped_map2; apply shaped_mmap, PCC_shaped. }
  destruct (fill_upper_entries n (fun i j =>
      obs ← read D_obs i j;
      null ← samples_at D i j;
      Ok ((obs - np_mean null) / np_std null)))
    as (z & Hz & _ & Hzd & _).
  { intros i j Hij.
    destruct (read_shaped n n D_obs i j Hobs) as (o & _ & ->); [lia..|].
    destruct (samples_at_shaped n D i j HshD) as (null & -> & _); [lia..|].
    by eexists. }
  destruct (fill_upper_entries n (fun i j =>
      d ← read diff_real i j;
      null ← samples_at D i j;
      Ok (SCN_p_value n_permutations d null)))
    as (p & Hp & _ & Hpd & Hpe).
  { intros i j Hij.
    destruct (read_shaped n n diff_real i j Hdiff) as (o & _ & ->); [lia..|].
    destruct (samples_at_shaped n D i j HshD) as (null & -> & _); [lia..|].
    by eexists. }
  exists D, z, p. split; [done|]. split.
  - unfold SCN. rewrite HD. cbn [mbind result_bind].
    fold diff_real. rewrite Hlen. fold D_obs.
    rewrite SCN_z_matrix_eq, Hz. cbn [mbind result_bind].
    rewrite SCN_p_matrix_eq, Hp. done.
  - split.
    + intros i Hi. split; [by apply Hzd | by apply Hpd].
    + intros i j Hij. destruct (Hpe i j Hij) as (v & Hv & Hij1 & Hji1).
      destruct (read_shaped n n diff_real i j Hdiff) as (d & Hd & Hrd);
        [lia..|].
      destruct (samples_at_shaped n D i j HshD) as (null & Hnull & Hln);
        [lia..|].
      rewrite Hrd, Hnull in Hv. cbn [mbind result_bind] in Hv.
      injection Hv as <-.
      exists d, null. rewrite Hln. done.
Qed.
End SCN_properties.

(** ** Claims about [SCN] *)

(** C8.  When every drawn index lies inside the pooled table, [SCN]
    completes and every diagonal entry of its Z matrix is 0: the loop
    stores only at (i, j) and (j, i) with [i < j].  The Z matrix of
    [Z_score], on square arrays of the same size, has 1 there. *)
Theorem SCN_z_matrix_diagonal_zero {F : Type} `{Number F}
    (partial_corr : DataFrame F -> string -> string -> list string -> F)
    (arctanh : F -> F) (np_mean np_std : list F -> F)
    (cova region : list string) (ctrl pati : DataFrame F)
    (n_permutations : nat) (permutation : nat -> list nat) :
  (forall k, k < n_permutations ->
     Forall (fun x => x < length (rows ctrl) + length (rows pati))
            (permutation k)) ->
  (exists z_matrix p_matrix,
     SCN partial_corr arctanh np_mean np_std cova region ctrl pati
       n_permutations permutation = Ok (z_matrix, p_matrix) /\
     forall i, i < length region -> mget z_matrix i i = Some fzero) /\
  (forall PCCn delta_PCC : matrix F,
     shaped (length region) (length region) PCCn ->
     shaped (length region) (length region) delta_PCC ->
     exists Z, Z_score PCCn delta_PCC = Ok Z /\
       forall i, i < length region -> mget Z i i = Some fone).
Proof.
  intros Hperm. split.
  - destruct (SCN_spec partial_corr arctanh np_mean np_std cova region
                ctrl pati n_permutations permutation Hperm)
      as (D & z & p & _ & Hrun & Hdiag & _).
    exists z, p. split; [done|]. intros i Hi. by apply Hdiag.
  - intros PCCn delta_PCC Hp Hd.
    destruct (Z_score_denominator_spec _ PCCn Hp) as (d & Hd1 & _ & Hdget).
    destruct (Z_score_spec _ PCCn delta_PCC Hp Hd)
      as (d' & Z & Hd' & HZ & _ & HZget).
    assert (d' = d) as -> by congruence.
    exists Z. split; [done|]. intros i Hi.
    destruct (shaped_mget _ _ delta_PCC i i Hd Hi Hi) as [y Hy].
    rewrite (HZget i i fone y Hi); [by rewrite decide_True| |done].
    rewrite Hdget by done. by rewrite decide_True.
Qed.

Lemma SCN_z_matrix_diagonal_zero_witness :
  let pc := fun (g : DataFrame float) (x y : string) (_ : list string) =>
              match rows g with
              | (a :: _) :: _ => (a / 8)%float
              | _ => 0.5%float
              end in
  let arctanh := fun x : float => (x + x * x * x / 3)%float in
  let mean := fun l : list float =>
                (foldr PrimFloat.add 0 l / float_of_Z (Z.of_nat (length l)))%float in
  let std := fun l : list float => 0.25%float in
  let ctrl := {| columns := ["age"; "r1"; "r2"];
                 rows := [[1; 1; 2]; [2; 2; 4.5]]%float |} in
  let pati := {| columns := ["age"; "r1"; "r2"];
                 rows := [[3; 3; 1]; [4; 1; 1]]%float |} in
  let permutation := fun k : nat =>
                       match k with 0 => [2; 0; 3; 1] | _ => [1; 3; 0; 2] end in
  (exists z_matrix p_matrix,
     SCN pc arctanh mean std ["age"] ["r1"; "r2"] ctrl pati 2 permutation
       = Ok (z_matrix, p_matrix) /\
     forall i, i < 2 -> mget z_matrix i i = Some fzero) /\
  (forall PCCn delta_PCC : matrix float,
     shaped 2 2 PCCn -> shaped 2 2 delta_PCC ->
     exists Z, Z_score PCCn delta_PCC = Ok Z /\
       forall i, i < 2 -> mget Z i i = Some fone).
Proof.
  intros pc arctanh mean std ctrl pati permutation.
  apply (SCN_z_matrix_diagonal_zero pc arctanh mean std ["age"] ["r1"; "r2"]
           ctrl pati 2 permutation).
  intros k Hk. destruct k as [|[|k]]; [| |lia];
    repeat constructor; simpl; lia.
Defined.

Lemma SCN_p_value_count {F : Type} `{Number F} (n_permutations : nat)
    (d : F) (null : list F) :
  SCN_p_value n_permutations d null
  = fdiv (fofZ (Z.of_nat (count_true (more_extreme d) null) + 1))
         (fofZ (Z.of_nat n_permutations + 1)).
Proof. unfold SCN_p_value, more_extreme. by destruct (flt fzero d). Qed.

Lemma more_extreme_iff (d s : Q) :
  more_extreme d s = true
  <-> ((0 < d)%Q /\ (d < s)%Q) \/ (~ (0 < d)%Q /\ (s < d)%Q).
Proof.
  unfold more_extreme. change (fzero (F := Q)) with 0%Q.
  destruct (flt 0%Q d) eqn:E.
  - apply Q_flt_true in E. split.
    + intros Hs. left. split; [done|]. by apply Q_flt_true.
    + intros [[_ Hs]|[Hn _]]; [|done].
      destruct (flt d s) eqn:E2; [done|]. apply Q_flt_false in E2.
      by apply Qle_not_lt in E2.
  - apply Q_flt_false in E. apply Qle_not_lt in E. split.
    + intros Hs. right. split; [done|]. by apply Q_flt_true.
    + intros [[Hp _]|[_ Hs]]; [done|].
      destruct (flt s d) eqn:E2; [done|]. apply Q_flt_false in E2.
      by apply Qle_not_lt in E2.
Qed.

Lemma p_value_lower_bound (count n_permutations : nat) :
  (1 / inject_Z (Z.of_nat n_permutations + 1)
   <= inject_Z (Z.of_nat count + 1) / inject_Z (Z.of_nat n_permutations + 1)
   /\ 0 < inject_Z (Z.of_nat count + 1)
          / inject_Z (Z.of_nat n_permutations + 1))%Q.
Proof.
  assert (Hd : (0 < inject_Z (Z.of_nat n_permutations + 1))%Q).
  { rewrite <- (Zlt_Qlt 0). lia. }
  assert (Hn : (1 <= inject_Z (Z.of_nat count + 1))%Q).
  { rewrite <- (Zle_Qle 1). lia. }
  split.
  - apply Qle_shift_div_l; [done|]. unfold Qdiv.
    rewrite <- Qmult_assoc, (Qmult_comm (/ _)), Qmult_inv_r, Qmult_1_r;
      [done|].
    intros Heq. rewrite Heq in Hd. by apply Qlt_irrefl in Hd.
  - apply Qlt_shift_div_l; [done|]. rewrite Qmult_0_l.
    by apply (Qlt_le_trans _ 1).
Qed.

(** The positions of a list at which a test holds: as many as
    [count_true] counts. *)
Lemma count_true_indices {F} (f : F -> bool) (l : list F) :
  exists ks : list nat,
    NoDup ks /\
    (forall k, k ∈ ks <-> exists s, l !! k = Some s /\ f s = true) /\
    length ks = count_true f l.
Proof.
  unfold count_true. induction l as [|x l (ks & Hnd & Hin & Hlen)].
  - exists []. split; [constructor|]. split; [|done].
    intros k. split; [by intros ?%elem_of_nil|]. by intros (s & Hs & _).
  - exists ((if f x then [0] else []) ++ (S <$> ks)).
    assert (H0 : 0 ∉ S <$> ks).
    { by intros (k' & ? & _)%list_elem_of_fmap. }
    split; [|split].
    + apply NoDup_app. split; [|split].
      * destruct (f x); [apply NoDup_singleton|constructor].
      * intros k Hk. destruct (f x); [|by apply elem_of_nil in Hk].
        by apply list_elem_of_singleton in Hk as ->.
      * by apply (NoDup_fmap_2 S).
    + intros k. rewrite elem_of_app, list_elem_of_fmap. split.
      * intros [Hk|(k' & -> & Hk')].
        -- destruct (f x) eqn:E; [|by apply elem_of_nil in Hk].
           apply list_elem_of_singleton in Hk as ->. by exists x.
        -- by apply Hin in Hk'.
      * intros (s & Hs & Hf). destruct k as [|k'].
        -- left. injection Hs as ->. rewrite Hf. apply list_elem_of_here.
        -- right. exists k'. split; [done|]. apply Hin. by exists s.
    + rewrite length_app, length_fmap, Hlen.
      destruct (f x) eqn:E.
      * by rewrite filter_cons_True.
      * rewrite filter_cons_False; [done|]. by rewrite E.
Qed.

Section SCN_p_value_properties.
Context {F : Type} `{Number F}.
Open Scope num_scope.
Variable partial_corr : DataFrame F -> string -> string -> list string -> F.
Variable arctanh : F -> F.
Variable np_mean : list F -> F.
Variable np_std : list F -> F.

(** The p-value of an edge in a run of [SCN] that got as far as the two
    matrices: the null samples of the edge are counted at the positions
    [ks] where the sample is above the real difference [d] (when
    [0 < d]) or below it (otherwise). *)
Lemma SCN_p_value_entry cova region (ctrl pati : DataFrame F)
    n_permutations permutation z_matrix p_matrix i j :
  (forall k, (k < n_permutations)%nat ->
     Forall (fun x => (x < length (rows ctrl) + length (rows pati))%nat)
            (permutation k)) ->
  SCN partial_corr arctanh np_mean np_std cova region ctrl pati
    n_permutations permutation = Ok (z_matrix, p_matrix) ->
  (i < j < length region)%nat ->
  exists D d null (ks : list nat),
    SCN_D_permuted partial_corr cova region ctrl pati
      n_permutations permutation = Ok D /\
    mget (map2 fsub (PCC partial_corr cova region pati)
                    (PCC partial_corr cova region ctrl)) i j = Some d /\
    samples_at D i j = Ok null /\
    length null = n_permutations /\
    NoDup ks /\
    (forall k, k ∈ ks <->
       exists s, null !! k = Some s /\
         (((fzero <? d) = true /\ (d <? s) = true) \/
          ((fzero <? d) = false /\ (s <? d) = true))) /\
    mget p_matrix i j
    = Some (fofZ (Z.of_nat (length ks) + 1)
            / fofZ (Z.of_nat n_permutations + 1)).
Proof.
  intros Hperm Hrun Hij.
  destruct (SCN_spec partial_corr arctanh np_mean np_std cova region
              ctrl pati n_permutations permutation Hperm)
    as (D & z & p & HD & Hrun' & _ & Hedge).
  rewrite Hrun in Hrun'. injection Hrun' as -> ->.
  destruct (Hedge i j Hij) as (d & null & Hd & Hn & Hl & Hp & _).
  unfold SCN_p_value in Hp.
  destruct (fzero <? d) eqn:Hpos.
  - destruct (count_true_indices (fun s => d <? s) null)
      as (ks & Hnd & Hin & Hlen).
    exists D, d, null, ks. repeat (split; [done|]). split.
    + intros k. rewrite Hin. split.
      * intros (s & Hs & Hlt). exists s. split; [done|]. by left.
      * intros (s & Hs & [[_ Hlt]|[? _]]); [|congruence]. exists s. by split.
    + by rewrite Hlen.
  - destruct (count_true_indices (fun s => s <? d) null)
      as (ks & Hnd & Hin & Hlen).
    exists D, d, null, ks. repeat (split; [done|]). split.
    + intros k. rewrite Hin. split.
      * intros (s & Hs & Hlt). exists s. split; [done|]. by right.
      * intros (s & Hs & [[? _]|[_ Hlt]]); [congruence|]. exists s. by split.
    + by rewrite Hlen.
Qed.
End SCN_p_value_properties.

(** C4.  In a run of [SCN] that got as far as the two matrices, in any
    arithmetic (binary64 included): for every edge [i < j] the entry of
    [p_matrix] is the quotient of [c + 1] by [n_permutations + 1],
    where [c] is the number of positions [k] at which the null sample
    of the edge is more extreme than the real signed difference [d]:
    greater than [d] when [0 < d], less than [d] otherwise.  In exact
    arithmetic the entry is therefore at least
    [1 / (n_permutations + 1)] and positive. *)
Theorem SCN_p_value_formula :
  (forall (F : Type) (HF : Number F)
      (partial_corr : DataFrame F -> string -> string -> list string -> F)
      (arctanh : F -> F) (np_mean np_std : list F -> F)
      (cova region : list string) (ctrl pati : DataFrame F)
      (n_permutations : nat) (permutation : nat -> list nat)
      (z_matrix p_matrix : matrix F) (i j : nat),
    (forall k, k < n_permutations ->
       Forall (fun x => x < length (rows ctrl) + length (rows pati))
              (permutation k)) ->
    SCN partial_corr arctanh np_mean np_std cova region ctrl pati
      n_permutations permutation = Ok (z_matrix, p_matrix) ->
    i < j < length region ->
    exists D d null (ks : list nat),
      SCN_D_permuted partial_corr cova region ctrl pati
        n_permutations permutation = Ok D /\
      mget (map2 fsub (PCC partial_corr cova region pati)
                      (PCC partial_corr cova region ctrl)) i j = Some d /\
      samples_at D i j = Ok null /\
      length null = n_permutations /\
      NoDup ks /\
      (forall k, k ∈ ks <->
         exists s, null !! k = Some s /\
           ((flt fzero d = true /\ flt d s = true) \/
            (flt fzero d = false /\ flt s d = true))) /\
      mget p_matrix i j
      = Some (fdiv (fofZ (Z.of_nat (length ks) + 1))
                   (fofZ (Z.of_nat n_permutations + 1)))) /\
  (forall (partial_corr : DataFrame Q -> string -> string -> list string -> Q)
      (arctanh : Q -> Q) (np_mean np_std : list Q -> Q)
      (cova region : list string) (ctrl pati : DataFrame Q)
      (n_permutations : nat) (permutation : nat -> list nat)
      (z_matrix p_matrix : matrix Q) (i j : nat),
    (forall k, k < n_permutations ->
       Forall (fun x => x < length (rows ctrl) + length (rows pati))
              (permutation k)) ->
    SCN partial_corr arctanh np_mean np_std cova region ctrl pati
      n_permutations permutation = Ok (z_matrix, p_matrix) ->
    i < j < length region ->
    exists p, mget p_matrix i j = Some p /\
      (1 / inject_Z (Z.of_nat n_permutations + 1) <= p)%Q /\ (0 < p)%Q).
Proof.
  split.
  - intros F HF. apply SCN_p_value_entry.
  - intros pc arctanh mean std cova region ctrl pati n perm z p i j
      Hperm Hrun Hij.
    destruct (SCN_p_value_entry pc arctanh mean std cova region ctrl pati
                n perm z p i j Hperm Hrun Hij)
      as (D & d & null & ks & _ & _ & _ & _ & _ & _ & Hp).
    eexists. split; [exact Hp|]. apply p_value_lower_bound.
Qed.

(** Three controls, three patients, two regions and three permutations
    in binary64: one of the three null samples of the edge is above the
    real difference, and the p-value is [(1 + 1) / (3 + 1)]. *)
Lemma SCN_p_value_formula_witness :
  let pc := fun (g : DataFrame float) (x y : string) (_ : list string) =>
              match rows g with
              | (_ :: a :: _) :: _ => (a / 8)%float
              | _ => 0.5%float
              end in
  let arctanh := fun x : float => x in
  let mean := fun l : list float => 0%float in
  let std := fun l : list float => 1%float in
  let ctrl := {| columns := ["age"; "r1"; "r2"];
                 rows := [[30; 1; 2]; [40; 2; 1]; [50; 3; 5]]%float |} in
  let pati := {| columns := ["age"; "r1"; "r2"];
                 rows := [[35; 4; 2]; [45; 6; 1]; [55; 5; 3]]%float |} in
  let permutation := fun k : nat =>
                       match k with
                       | 0 => [3; 4; 5; 0; 1; 2]
                       | 1 => [1; 0; 2; 5; 3; 4]
                       | _ => [0; 1; 2; 4; 3; 5]
                       end in
  exists z_matrix p_matrix,
    SCN pc arctanh mean std ["age"] ["r1"; "r2"] ctrl pati 3 permutation
      = Ok (z_matrix, p_matrix) /\
    mget p_matrix 0 1 = Some 0.5%float /\
    exists D d null (ks : list nat),
      SCN_D_permuted pc ["age"] ["r1"; "r2"] ctrl pati 3 permutation = Ok D /\
      mget (map2 fsub (PCC pc ["age"] ["r1"; "r2"] pati)
                      (PCC pc ["age"] ["r1"; "r2"] ctrl)) 0 1 = Some d /\
      samples_at D 0 1 = Ok null /\
      length null = 3 /\
      NoDup ks /\
      (forall k, k ∈ ks <->
         exists s, null !! k = Some s /\
           ((flt fzero d = true /\ flt d s = true) \/
            (flt fzero d = false /\ flt s d = true))) /\
      mget p_matrix 0 1
      = Some (fdiv (fofZ (Z.of_nat (length ks) + 1))
                   (fofZ (Z.of_nat 3 + 1))).
Proof.
  intros pc arctanh mean std ctrl pati permutation.
  eexists _, _. split; [vm_compute; reflexivity|]. split; [reflexivity|].
  eapply (proj1 SCN_p_value_formula float _ pc arctanh mean std
            ["age"] ["r1"; "r2"] ctrl pati 3 permutation).
  - intros k Hk. destruct k as [|[|[|k]]]; [| | |lia];
      repeat constructor; simpl; lia.
  - vm_compute. reflexivity.
  - simpl. lia.
Defined.

(** The run completes only without patients, or with two regions and a
    single patient: appending the two-element row to [df] needs two
    columns, and once it is appended the next patient's matrices no
    longer fit the frame. *)
Section IDSCN_failures.
Context {F : Type} `{Number F}.
Variable partial_corr : DataFrame F -> string -> string -> list string -> F.
Variable norm_sf : F -> F.

Lemma IDSCN_subject_run (cova region : list string) (ctrl : DataFrame F)
    (PCCn : matrix F) (sub : string) (p : list F) (df : frame)
    (df_n : list (string * nat)) (dirs : list (string * subject_files F)) :
  let n := length region in
  0 < n -> shaped n n PCCn -> length p = length cova + n ->
  (nrows df = n /\ ncols df = n /\ n = 2 ->
   exists cnt files,
     IDSCN_subject partial_corr norm_sf cova region ctrl PCCn (sub, p)
       (df, df_n, dirs)
     = Ok ({| nrows := S n; ncols := n;
              appended := appended df ++ [(sub, cnt)] |},
           df_n, dirs ++ [(sub, files)])) /\
  (~ (nrows df = n /\ ncols df = n /\ n = 2) ->
   IDSCN_subject partial_corr norm_sf cova region ctrl PCCn (sub, p)
     (df, df_n, dirs) = Raise ValueError).
Proof.
  intros n Hn HPCCn Hp.
  assert (Hsh : forall m : matrix F, shaped n n m -> shape (transpose m) = (n, n)).
  { intros m Hm. apply shaped_shape; [|done]. by apply shaped_transpose. }
  unfold IDSCN_subject, mix_group.
  rewrite decide_True by (rewrite length_app; fold n; lia).
  cbn [mbind result_bind].
  set (PCCn_1 := PCC partial_corr cova region _).
  assert (H1 : shaped n n PCCn_1) by apply PCC_shaped.
  assert (Hdelta : shaped n n (map2 fsub PCCn_1 PCCn)) by (by apply shaped_map2).
  destruct (Z_score_spec n PCCn _ HPCCn Hdelta) as (d & Z & _ & HZ & HZs & _).
  rewrite HZ. cbn [mbind result_bind].
  destruct (P_corrected norm_sf n n Z HZs) as [HPs _].
  pose proof (P_raw norm_sf Z) as Hraw.
  destruct (P norm_sf Z) as [ori_P correct_P]. cbn [fst snd] in *.
  assert (HoP : shaped n n ori_P) by (rewrite Hraw; by apply shaped_mmap).
  unfold iloc_assign, loc_append.
  rewrite !Hsh by done.
  destruct (decide ((n, n) = (nrows df, ncols df))) as [Heq|Hne].
  - do 3 (cbn [mbind result_bind]; rewrite decide_True by done).
    cbn [mbind result_bind]. injection Heq as Hr Hc.
    destruct (decide (ncols df = 2)) as [Hc2|Hc2].
    + split; [|intros Hnot; exfalso; apply Hnot; lia].
      intros _. cbn [mbind result_bind]. rewrite <- Hr, <- Hc.
      by eexists _, _.
    + split; [intros (_ & _ & ?); lia|]. done.
  - split; [|done]. intros (Hr & Hc & _). exfalso. apply Hne. congruence.
Qed.

Lemma IDSCN_raises_unless_two_regions (cova region : list string)
    (ctrl pati : DataFrame F) (sub : string) (subs : list string)
    (p : list F) (ps : list (list F)) :
  0 < length region -> length region <> 2 ->
  rows pati = p :: ps -> length p = length cova + length region ->
  IDSCN partial_corr norm_sf cova region ctrl (sub :: subs) pati
  = Raise ValueError.
Proof.
  intros Hn Hn2 Hrows Hp. unfold IDSCN. rewrite Hrows.
  unfold iloc_assign at 1. cbn [nrows ncols].
  rewrite decide_True.
  2:{ apply shaped_shape; [|done]. apply shaped_transpose; [|done].
      apply PCC_shaped. }
  cbn [mbind result_bind zip_with for_each].
  destruct (IDSCN_subject_run cova region ctrl
    (PCC partial_corr cova region ctrl) sub p
    {| nrows := length region; ncols := length region; appended := [] |}
    [] [] Hn (PCC_shaped _ _ _ _) Hp) as [_ Hfail].
  rewrite Hfail; [done|]. intros (_ & _ & ?). done.
Qed.

Lemma IDSCN_raises_on_second_patient (cova : list string) (r1 r2 : string)
    (ctrl pati : DataFrame F) (s1 s2 : string) (subs : list string)
    (p1 p2 : list F) (ps : list (list F)) :
  rows pati = p1 :: p2 :: ps ->
  length p1 = length cova + 2 -> length p2 = length cova + 2 ->
  IDSCN partial_corr norm_sf cova [r1; r2] ctrl (s1 :: s2 :: subs) pati
  = Raise ValueError.
Proof.
  intros Hrows Hp1 Hp2. unfold IDSCN. rewrite Hrows.
  unfold iloc_assign at 1. cbn [nrows ncols].
  rewrite decide_True.
  2:{ apply shaped_shape; [|simpl; lia]. apply shaped_transpose; [|simpl; lia].
      apply (PCC_shaped partial_corr cova [r1; r2]). }
  cbn [mbind result_bind zip_with for_each length].
  destruct (IDSCN_subject_run cova [r1; r2] ctrl
    (PCC partial_corr cova [r1; r2] ctrl) s1 p1
    {| nrows := 2; ncols := 2; appended := [] |} [] []
    ltac:(simpl; lia) (PCC_shaped _ _ _ _) Hp1) as [Hok _].
  destruct Hok as (cnt & files & Hok); [done|].
  cbn [length appended] in Hok. rewrite Hok. cbn [mbind result_bind].
  destruct (IDSCN_subject_run cova [r1; r2] ctrl
    (PCC partial_corr cova [r1; r2] ctrl) s2 p2
    {| nrows := 3; ncols := 2; appended := [] ++ [(s1, cnt)] |} []
    ([] ++ [(s1, files)])
    ltac:(simpl; lia) (PCC_shaped _ _ _ _) Hp2) as [_ Hfail].
  cbn [length] in Hfail. rewrite Hfail; [done|]. cbn [nrows]. lia.
Qed.
End IDSCN_failures.

(** * Further properties *)

(** ** [Z_score] on arrays of any shape *)

Lemma for_each_app {S A} (body : A -> S -> result S) (l1 l2 : list A) (s : S) :
  for_each body (l1 ++ l2) s = for_each body l1 s ≫= for_each body l2.
Proof.
  revert s. induction l1 as [|x l1 IH]; intros s; simpl; [done|].
  destruct (body x s) as [s'|e]; simpl; [apply IH|done].
Qed.

Lemma for_range_split {S} (lo k hi : nat) (body : nat -> S -> result S) (s : S) :
  lo <= k <= hi ->
  for_range lo hi body s = for_range lo k body s ≫= for_range k hi body.
Proof.
  intros Hk. unfold for_range.
  replace (hi - lo) with ((k - lo) + (hi - k)) by lia.
  rewrite seq_app, for_each_app. by replace (lo + (k - lo)) with k by lia.
Qed.

Lemma for_range_first {S} (lo hi : nat) (body : nat -> S -> result S) (s : S) :
  lo < hi ->
  for_range lo hi body s = body lo s ≫= for_range (Datatypes.S lo) hi body.
Proof.
  intros Hlt. unfold for_range.
  replace (hi - lo) with (Datatypes.S (hi - Datatypes.S lo)) by lia. done.
Qed.

(** The diagonal loop on an array with [r] rows and [c] columns, run
    over the first [n] diagonal positions. *)
Lemma set_diagonal_rect {F} r c n (m : matrix F) (v : F) :
  shaped r c m -> n <= r -> n <= c ->
  exists m', for_range 0 n (fun i d => mset d i i v) m = Ok m' /\
    shaped r c m' /\
    forall a b,
      mget m' a b = if decide (a = b /\ a < n) then Some v else mget m a b.
Proof.
  intros Hm Hr Hc.
  destruct (for_range_invariant
    (fun k s => shaped r c s /\
       forall a b, mget s a b =
         if decide (a = b /\ a < k) then Some v else mget m a b)
    0 n (fun i d => mset d i i v) m) as (m' & Hrun & Hsh & Hget).
  - lia.
  - split; [done|]. intros a b. rewrite decide_False; [done|lia].
  - intros k s Hk [Hs Hgs].
    destruct (mset_spec r c s k k v Hs) as (s' & Hset & Hs' & Hgs'); [lia..|].
    exists s'. split; [done|]. split; [done|]. intros a b.
    rewrite Hgs', Hgs. repeat case_decide; try done; lia.
  - by exists m'.
Qed.

(** With more rows than columns the loop runs off the last column. *)
Lemma set_diagonal_tall {F} r c (m : matrix F) (v : F) :
  shaped r c m -> c < r ->
  for_range 0 r (fun i d => mset d i i v) m = Raise IndexError.
Proof.
  intros Hm Hcr. rewrite (for_range_split 0 c r) by lia.
  destruct (set_diagonal_rect r c c m v Hm) as (m' & -> & Hm' & _); [lia..|].
  cbn [mbind result_bind]. rewrite for_range_first by done.
  destruct (shaped_lookup r c m' c Hm' Hcr) as (row & Hrow & Hlen).
  unfold mset. rewrite Hrow, decide_False by lia. done.
Qed.

Section Z_score_shapes.
Context {F : Type} `{Number F}.
Open Scope num_scope.

(** What [Z_score] does on two non-empty arrays: AssertionError when
    the shapes differ; IndexError when the common shape has more rows
    than columns (the diagonal loop runs over the rows); otherwise an
    array of that shape. *)
Theorem Z_score_outcomes (r c r' c' : nat) (PCCn delta_PCC : matrix F) :
  shaped r c PCCn -> shaped r' c' delta_PCC -> (0 < r)%nat -> (0 < r')%nat ->
  ((r, c) <> (r', c') -> Z_score PCCn delta_PCC = Raise AssertionError) /\
  ((r, c) = (r', c') -> (c < r)%nat ->
     Z_score PCCn delta_PCC = Raise IndexError) /\
  ((r, c) = (r', c') -> (r <= c)%nat ->
     exists Z, Z_score PCCn delta_PCC = Ok Z /\ shaped r c Z /\
       forall i, (i < r)%nat -> mget Z i i = Some fone).
Proof.
  intros Hp Hd Hr Hr'. unfold Z_score, Z_score_denominator.
  rewrite (shaped_shape r c PCCn Hp Hr), (shaped_shape r' c' delta_PCC Hd Hr').
  replace (length PCCn) with r by (by destruct Hp).
  assert (Hden : shaped r c (map2 fsub (np_full fone (r, c))
                               (map2 fmul PCCn PCCn))).
  { apply shaped_map2; [apply shaped_np_full|]. by apply shaped_map2. }
  split; [|split].
  - intros Hne. by rewrite decide_False.
  - intros Heq Hcr. rewrite decide_True by done.
    by rewrite (set_diagonal_tall r c _ fone Hden Hcr).
  - intros Heq Hrc. rewrite decide_True by done. injection Heq as <- <-.
    destruct (set_diagonal_rect r c r _ fone Hden) as (d & -> & Hds & _);
      [lia..|].
    cbn [mbind result_bind].
    destruct (set_diagonal_rect r c r
      (map2 fdiv (mmap (fmul (fofZ (Z.of_nat r - 1))) delta_PCC) d) fone)
      as (Z & -> & HZ & Hget); [|lia..|].
    { apply shaped_map2; [by apply shaped_mmap|done]. }
    exists Z. split; [done|]. split; [done|]. intros i Hi.
    rewrite Hget. by rewrite decide_True.
Qed.

(** On square arrays [Z_score] returns the array whose off-diagonal
    entry (i, j) is [(n - 1) * delta[i][j] / (1 - PCCn[i][j]^2)], with
    [n] the size of the array, and whose diagonal is 1. *)
Theorem Z_score_entries (n : nat) (PCCn delta_PCC : matrix F) :
  shaped n n PCCn -> shaped n n delta_PCC ->
  exists Z, Z_score PCCn delta_PCC = Ok Z /\ shaped n n Z /\
    forall i j x y, (i < n)%nat -> (j < n)%nat ->
      mget PCCn i j = Some x -> mget delta_PCC i j = Some y ->
      mget Z i j = Some (if decide (i = j) then fone
                         else fofZ (Z.of_nat n - 1) * y / (fone - x * x)).
Proof.
  intros Hp Hd.
  destruct (Z_score_denominator_spec n PCCn Hp) as (d & Hden & _ & Hdget).
  destruct (Z_score_spec n PCCn delta_PCC Hp Hd)
    as (d' & Z & Hd' & HZ & HZs & HZget).
  assert (d' = d) as -> by congruence.
  exists Z. split; [done|]. split; [done|]. intros i j x y Hi Hj Hx Hy.
  destruct (decide (i = j)) as [->|Hne].
  - rewrite (HZget j j fone y Hi); [by rewrite decide_True| |done].
    rewrite Hdget by done. by rewrite decide_True.
  - rewrite (HZget i j (fone - x * x) y Hi); [by rewrite decide_False| |done].
    rewrite Hdget by done. rewrite decide_False by done. by rewrite Hx.
Qed.

(** A symmetric baseline and a symmetric difference give a symmetric Z
    matrix. *)
Theorem Z_score_symmetric (n : nat) (PCCn delta_PCC : matrix F) :
  shaped n n PCCn -> shaped n n delta_PCC ->
  (forall i j, mget PCCn i j = mget PCCn j i) ->
  (forall i j, mget delta_PCC i j = mget delta_PCC j i) ->
  exists Z, Z_score PCCn delta_PCC = Ok Z /\
    forall i j, (i < n)%nat -> (j < n)%nat -> mget Z i j = mget Z j i.
Proof.
  intros Hp Hd Hps Hds.
  destruct (Z_score_denominator_spec n PCCn Hp) as (d & Hden & _ & Hdget).
  destruct (Z_score_spec n PCCn delta_PCC Hp Hd)
    as (d' & Z & Hd' & HZ & HZs & HZget).
  assert (d' = d) as -> by congruence.
  exists Z. split; [done|]. intros i j Hi Hj.
  destruct (shaped_mget n n PCCn i j Hp Hi Hj) as [x Hx].
  destruct (shaped_mget n n delta_PCC i j Hd Hi Hj) as [y Hy].
  assert (Hdij : forall a b, (a < n)%nat -> mget PCCn a b = Some x ->
            mget d a b = Some (if decide (a = b) then fone else fone - x * x)).
  { intros a b Ha Hab. rewrite Hdget by done. case_decide; [done|].
    by rewrite Hab. }
  rewrite (HZget i j _ y Hi (Hdij i j Hi Hx) Hy).
  rewrite (HZget j i _ y Hj (Hdij j i Hj ltac:(by rewrite <- Hps))
             ltac:(by rewrite <- Hds)).
  repeat case_decide; try done; congruence.
Qed.
End Z_score_shapes.

Lemma Z_score_outcomes_witness :
  let A := [[1; 0.5]; [0.5; 1]; [0.25; 0.75]]%float in
  let B := [[0; 0.25]; [0.25; 0]; [1; 1]]%float in
  Z_score A B = Raise IndexError.
Proof.
  intros A B.
  refine (proj1 (proj2 (Z_score_outcomes 3 2 3 2 A B _ _ _ _)) _ _);
    try (split; [reflexivity | repeat constructor]); try lia; reflexivity.
Defined.

Lemma Z_score_entries_witness :
  exists Z, Z_score [[1; 1 # 2]; [1 # 2; 1]]%Q [[0; 1 # 4]; [1 # 4; 0]]%Q = Ok Z /\
    shaped 2 2 Z /\
    forall i j x y, i < 2 -> j < 2 ->
      mget [[1; 1 # 2]; [1 # 2; 1]]%Q i j = Some x ->
      mget [[0; 1 # 4]; [1 # 4; 0]]%Q i j = Some y ->
      mget Z i j = Some (if decide (i = j) then fone
                         else fdiv (fmul (fofZ (Z.of_nat 2 - 1)) y)
                                   (fsub fone (fmul x x))).
Proof.
  apply (Z_score_entries 2);
    (split; [reflexivity | repeat constructor]).
Defined.

Lemma Z_score_symmetric_witness :
  exists Z, Z_score [[1; 0.5]; [0.5; 1]]%float [[0; 0.25]; [0.25; 0]]%float = Ok Z /\
    forall i j, i < 2 -> j < 2 -> mget Z i j = mget Z j i.
Proof.
  apply (Z_score_symmetric 2);
    try (split; [reflexivity | repeat constructor]).
  - intros [|[|i]] [|[|j]]; try reflexivity; by destruct j.
  - intros [|[|i]] [|[|j]]; try reflexivity; by destruct j.
Defined.

(** ** The cost of [PCC] *)

Lemma length_bind_const {A B} (f : A -> list B) (l : list A) (k : nat) :
  (forall x, x ∈ l -> length (f x) = k) -> length (l ≫= f) = length l * k.
Proof.
  induction l as [|x l IH]; intros Hf; [done|].
  rewrite bind_cons, length_app, (Hf x) by apply list_elem_of_here.
  rewrite IH; [simpl; lia|]. intros y Hy. apply Hf. by apply list_elem_of_further.
Qed.

Lemma PCC_calls_row (r1 : string) (l : list string) :
  NoDup l ->
  length (l ≫= fun r2 => if decide (r1 ≠ r2) then [(r1, r2)] else [])
  + (if decide (r1 ∈ l) then 1 else 0) = length l.
Proof.
  induction 1 as [|y l Hy Hnd IH]; [done|].
  rewrite bind_cons, length_app. cbn [length].
  destruct (decide (r1 ≠ y)) as [Hne|Heq].
  - cbn [length]. destruct (decide (r1 ∈ l)) as [Hin|Hin].
    + rewrite decide_True in * by (by apply list_elem_of_further). lia.
    + rewrite decide_False in *; [lia|].
      intros [?|?]%elem_of_cons; done.
  - assert (r1 = y) as -> by (by destruct (decide (r1 = y))).
    rewrite decide_True by apply list_elem_of_here.
    rewrite decide_False in IH by done. cbn [length]. lia.
Qed.

Lemma PCC_calls_count (regions : list string) :
  NoDup regions ->
  length (PCC_calls regions) = length regions * (length regions - 1) /\
  NoDup (PCC_calls regions).
Proof.
  intros Hnd. split.
  - unfold PCC_calls. apply length_bind_const. intros r1 Hr1.
    pose proof (PCC_calls_row r1 regions Hnd) as Hrow.
    rewrite decide_True in Hrow by done. lia.
  - unfold PCC_calls. apply NoDup_bind; [| |done].
    + intros x1 x2 [a b] _ _ H1 H2.
      apply list_elem_of_bind in H1 as (y1 & H1 & _).
      apply list_elem_of_bind in H2 as (y2 & H2 & _).
      repeat case_decide; try by apply elem_of_nil in H1.
      * apply list_elem_of_singleton in H1, H2. congruence.
      * by apply elem_of_nil in H2.
    + intros r1 _. apply NoDup_bind; [| |done].
      * intros x1 x2 [a b] _ _ H1 H2.
        repeat case_decide; try by apply elem_of_nil in H1.
        -- apply list_elem_of_singleton in H1, H2. congruence.
        -- by apply elem_of_nil in H2.
      * intros r2 _. case_decide; [apply NoDup_singleton | apply NoDup_nil_2].
Qed.

(** For [n] distinct region names the loops of [PCC], run with an
    estimator that records its calls, call it [n (n - 1)] times: once
    for every ordered pair of different regions, never twice with the
    same ordered pair, which is twice the number of unordered pairs. *)
Theorem PCC_call_count {F : Type} `{Number F}
    (partial_corr : DataFrame F -> string -> string -> list string -> F)
    (covas regions : list string) (group : DataFrame F) :
  NoDup regions ->
  let calls := (PCC_M (observed partial_corr) covas regions group).2 in
  length calls = length regions * (length regions - 1) /\
  NoDup calls /\
  forall x y, (x, y) ∈ calls <-> x ∈ regions /\ y ∈ regions /\ x ≠ y.
Proof.
  intros Hnd calls. unfold calls. rewrite PCC_M_observed. cbn [snd].
  destruct (PCC_calls_count regions Hnd) as [Hlen Hnodup].
  split; [done|]. split; [done|]. intros x y. apply PCC_calls_elem.
Qed.

Lemma PCC_call_count_witness :
  let pc := fun (g : DataFrame float) (x y : string) (_ : list string) =>
              (0.5 / float_of_Z (Z.of_nat (length (rows g))))%float in
  let group := {| columns := ["age"; "r1"; "r2"; "r3"];
                  rows := [[30; 1; 2; 3]; [40; 2; 1; 3]; [50; 3; 5; 1]]%float |} in
  let calls := (PCC_M (observed pc) ["age"] ["r1"; "r2"; "r3"] group).2 in
  length calls = 3 * (3 - 1) /\
  NoDup calls /\
  forall x y, (x, y) ∈ calls
    <-> x ∈ ["r1"; "r2"; "r3"] /\ y ∈ ["r1"; "r2"; "r3"] /\ x ≠ y.
Proof.
  intros pc group.
  apply (PCC_call_count pc ["age"] ["r1"; "r2"; "r3"] group).
  apply (bool_decide_unpack _). vm_compute. exact I.
Defined.

(** ** More on [P] and the Benjamini-Hochberg step *)

Lemma concat_reshape {A} r c (l : list A) :
  length l = r * c -> concat (reshape r c l) = l.
Proof.
  revert l. induction r as [|r IH]; intros l Hlen; simpl.
  - by destruct l.
  - rewrite IH by (rewrite length_drop; lia). apply take_drop.
Qed.

Section P_shape_properties.
Context {F : Type} `{Number F}.
Variable norm_sf : F -> F.

Lemma P_corrected_flat r c (Z : matrix F) :
  shaped r c Z ->
  concat (P norm_sf Z).2 = fdrcorrection (concat (P norm_sf Z).1).
Proof.
  intros HZ. rewrite P_raw. unfold P. cbn [snd].
  set (p := mmap _ Z).
  assert (Hp : shaped r c p) by (by apply shaped_mmap).
  destruct (decide (0 < r)) as [Hr|Hr].
  - rewrite (shaped_shape r c p Hp Hr). cbn [fst snd].
    apply concat_reshape. rewrite length_fdrcorrection.
    by apply length_concat_shaped.
  - assert (r = 0) as -> by lia. destruct Hp as [Hlen _].
    by destruct p.
Qed.

(** Both matrices returned by [P] have the shape of [Z], and the raw
    one holds [2 * sf(|z|)] entry by entry. *)
Theorem P_shapes (r c : nat) (Z : matrix F) :
  shaped r c Z ->
  shaped r c (P norm_sf Z).1 /\ shaped r c (P norm_sf Z).2 /\
  forall i j z, mget Z i j = Some z ->
    mget (P norm_sf Z).1 i j = Some (fmul (norm_sf (fabs z)) (fofZ 2)).
Proof.
  intros HZ. split; [|split].
  - rewrite P_raw. by apply shaped_mmap.
  - by apply P_corrected.
  - intros i j z Hz. by rewrite P_raw, mget_mmap, Hz.
Qed.
End P_shape_properties.

Lemma P_shapes_witness :
  let sf := fun x : float => (1 / (2 + x))%float in
  let Z := [[1; 3; 0]; [3; 1; 2]]%float in
  shaped 2 3 (P sf Z).1 /\ shaped 2 3 (P sf Z).2 /\
  forall i j z, mget Z i j = Some z ->
    mget (P sf Z).1 i j = Some (fmul (sf (fabs z)) (fofZ 2)).
Proof.
  intros sf Z. apply (P_shapes sf 2 3 Z).
  split; [reflexivity | repeat constructor].
Defined.

Section fdrcorrection_bounds.
Open Scope Q_scope.

Lemma scatter_Forall (P : Q -> Prop) sortind (vals : list Q) :
  P fzero -> Forall P vals -> Forall P (scatter sortind vals).
Proof.
  intros H0 Hvals. unfold scatter.
  assert (Hgen : forall (ivs : list (nat * Q)) out,
            Forall P out -> Forall (fun iv => P iv.2) ivs ->
            Forall P (foldl (fun out iv => <[iv.1 := iv.2]> out) out ivs)).
  { induction ivs as [|iv ivs IH]; intros out Hout Hivs; simpl; [done|].
    apply Forall_cons in Hivs as [Hiv Hivs].
    apply IH; [|done]. by apply Forall_insert. }
  apply Hgen; [by apply Forall_replicate|].
  apply Forall_forall. intros [i v] Hin.
  apply list_elem_of_lookup in Hin as (k & Hk).
  apply lookup_zip_with_Some in Hk as (i' & v' & Heq & _ & Hv).
  assert (v = v') as -> by congruence.
  rewrite Forall_forall in Hvals. apply Hvals.
  by apply list_elem_of_lookup_2 in Hv.
Qed.

(** No adjusted p-value exceeds 1, whatever the input. *)
Lemma fdrcorrection_le_1 (pvals : list Q) :
  Forall (fun q => q <= 1) (fdrcorrection pvals).
Proof.
  unfold fdrcorrection. apply scatter_Forall; [by vm_compute|].
  apply Forall_fmap, Forall_forall. intros x _. simpl.
  destruct (negb (Qle_bool x (inject_Z 1))) eqn:E; [by vm_compute|].
  apply negb_false_iff in E. by apply Qle_bool_iff in E.
Qed.

End fdrcorrection_bounds.

(** No FDR-corrected entry returned by [P] is above 1, whatever the
    tail function returns and in any arithmetic in which [1 < 1] is
    false: the comparison [1 < q] is false for every corrected entry
    [q].  In binary64 such a [q] is at most 1 or NaN (a NaN in [Z]
    leaves NaN in the corrected matrix); in exact arithmetic it is at
    most 1. *)
Theorem P_corrected_le_1 {F : Type} `{Number F} (norm_sf : F -> F)
    (r c : nat) (Z : matrix F) (i j : nat) :
  flt fone fone = false ->
  shaped r c Z -> i < r -> j < c ->
  exists q, mget (P norm_sf Z).2 i j = Some q /\ flt fone q = false.
Proof.
  intros H1 HZ Hi Hj.
  destruct (P_corrected norm_sf r c Z HZ) as [Hsh Hget].
  destruct (shaped_mget r c _ i j Hsh Hi Hj) as [q Hq].
  exists q. split; [done|].
  rewrite (Hget i j Hi Hj) in Hq.
  by apply (fdrcorrection_not_above_1 _ _ _ H1 Hq).
Qed.

(** In binary64, on a matrix holding NaN: the stand-in for [norm.sf]
    has scipy's value at 1 and NaN elsewhere. *)
Lemma P_corrected_le_1_witness :
  let sf := fun x : float =>
              if PrimFloat.eqb x 1 then 0x1.44ed0bb7cb20cp-3%float
              else nan in
  exists q, mget (P sf [[1; nan]; [nan; 1]]%float).2 1 1 = Some q /\
    flt fone q = false.
Proof.
  intros sf. apply (P_corrected_le_1 sf 2 2 [[1; nan]; [nan; 1]]%float 1 1).
  - reflexivity.
  - split; [reflexivity | repeat constructor].
  - lia.
  - lia.
Defined.

(** ** Monotonicity of the Benjamini-Hochberg step *)

Section fdrcorrection_monotone.
Open Scope Q_scope.

Lemma suffix_minimum_tail (x : Q) (l : list Q) :
  tail (reverse (minimum_accumulate (reverse (x :: l))))
  = reverse (minimum_accumulate (reverse l)).
Proof.
  rewrite suffix_minimum_cons.
  destruct (reverse (minimum_accumulate (reverse l))) eqn:E; [|done].
  apply (f_equal length) in E.
  rewrite length_reverse, length_minimum_accumulate, length_reverse in E.
  by destruct l.
Qed.

Lemma suffix_minimum_drop (r : nat) (l : list Q) :
  drop r (reverse (minimum_accumulate (reverse l)))
  = reverse (minimum_accumulate (reverse (drop r l))).
Proof.
  revert l. induction r as [|r IH]; intros l; [done|].
  destruct l as [|x l]; [done|].
  change (drop (S r) (x :: l)) with (drop r l).
  rewrite <- (IH l), <- (suffix_minimum_tail x l).
  destruct (reverse (minimum_accumulate (reverse (x :: l)))); simpl;
    [by rewrite drop_nil|done].
Qed.

(** The head of the running minima from the right is the greatest
    lower bound of the list. *)
Lemma suffix_minimum_head (l : list Q) (h : Q) (t : list Q) :
  reverse (minimum_accumulate (reverse l)) = h :: t ->
  Forall (fun x => h <= x) l /\
  forall b, Forall (fun x => b <= x) l -> b <= h.
Proof.
  revert h t. induction l as [|x l IH]; intros h t Hsm.
  { rewrite reverse_nil in Hsm. done. }
  rewrite suffix_minimum_cons in Hsm.
  destruct (reverse (minimum_accumulate (reverse l))) as [|y u] eqn:E.
  - injection Hsm as <- <-.
    apply (f_equal length) in E.
    rewrite length_reverse, length_minimum_accumulate, length_reverse in E.
    destruct l; [|done]. split.
    + constructor; [apply Qle_refl|constructor].
    + intros b Hb. by apply Forall_cons in Hb as [? _].
  - injection Hsm as <- <-. destruct (IH y u eq_refl) as [Hle Hglb]. split.
    + constructor; [apply Q.le_min_r|].
      eapply Forall_impl; [exact Hle|]. intros z Hz. simpl in *.
      apply (Qle_trans _ y); [apply Q.le_min_l|done].
    + intros b Hb. apply Forall_cons in Hb as [Hbx Hbl].
      simpl. apply Q.min_glb; [by apply Hglb|done].
Qed.

Lemma suffix_minimum_lookup (l : list Q) (r : nat) (h : Q) :
  reverse (minimum_accumulate (reverse l)) !! r = Some h ->
  (forall t x, (r <= t)%nat -> l !! t = Some x -> h <= x) /\
  forall b, (forall t x, (r <= t)%nat -> l !! t = Some x -> b <= x) -> b <= h.
Proof.
  intros Hr.
  assert (Hd : exists u, reverse (minimum_accumulate (reverse (drop r l)))
                         = h :: u).
  { rewrite <- suffix_minimum_drop.
    destruct (drop r _) as [|h' u] eqn:E.
    - apply (f_equal (fun k => k !! 0%nat)) in E.
      rewrite lookup_drop, Nat.add_0_r, Hr in E. done.
    - apply (f_equal (fun k => k !! 0%nat)) in E.
      rewrite lookup_drop, Nat.add_0_r, Hr in E. injection E as ->. by exists u. }
  destruct Hd as (u & Hd).
  destruct (suffix_minimum_head _ _ _ Hd) as [Hle Hglb]. split.
  - intros t x Ht Hx. rewrite Forall_lookup in Hle.
    apply (Hle (t - r)%nat). rewrite lookup_drop.
    by replace (r + (t - r))%nat with t by lia.
  - intros b Hb. apply Hglb. apply Forall_lookup. intros k x Hk.
    rewrite lookup_drop in Hk. apply (Hb (r + k)%nat x); [lia|done].
Qed.

Lemma StronglySorted_lookup_le (l : list (Q * nat)) i j x y :
  StronglySorted by_value l -> (i <= j)%nat ->
  l !! i = Some x -> l !! j = Some y -> x.1 <= y.1.
Proof.
  intros Hs. revert i j. induction Hs as [|z l Hs IH Hz]; intros i j Hij Hi Hj.
  { done. }
  destruct i as [|i], j as [|j]; simpl in *; try lia.
  - injection Hi as <-. injection Hj as <-. apply Qle_refl.
  - injection Hi as <-. rewrite Forall_lookup in Hz. by apply (Hz j).
  - apply (IH i j); [lia|done..].
Qed.

Lemma ecdf_quotient_antitone (m t t' : nat) (v v' : Q) :
  (1 <= t <= t')%nat -> (t' <= m)%nat -> 0 <= v -> v == v' ->
  v' / (inject_Z (Z.of_nat t') / inject_Z (Z.of_nat m))
  <= v / (inject_Z (Z.of_nat t) / inject_Z (Z.of_nat m)).
Proof.
  intros Ht Htm Hv Hvv.
  assert (Hm : 0 < inject_Z (Z.of_nat m)) by (rewrite <- (Zlt_Qlt 0); lia).
  set (e := inject_Z (Z.of_nat t) / inject_Z (Z.of_nat m)).
  set (e' := inject_Z (Z.of_nat t') / inject_Z (Z.of_nat m)).
  assert (He : 0 < e).
  { apply Qlt_shift_div_l; [done|]. rewrite Qmult_0_l, <- (Zlt_Qlt 0). lia. }
  assert (He' : 0 < e').
  { apply Qlt_shift_div_l; [done|]. rewrite Qmult_0_l, <- (Zlt_Qlt 0). lia. }
  assert (Hee : e <= e').
  { unfold e, e', Qdiv. apply Qmult_le_compat_r.
    - rewrite <- Zle_Qle. lia.
    - apply Qlt_le_weak, Qinv_lt_0_compat, Hm. }
  assert (Hne' : ~ e' == 0).
  { intros Heq. rewrite Heq in He'. by apply Qlt_irrefl in He'. }
  assert (Ha : 0 <= v' / e').
  { apply Qle_shift_div_l; [done|]. by rewrite Qmult_0_l, <- Hvv. }
  apply Qle_shift_div_l; [done|].
  apply (Qle_trans _ (v' / e' * e')).
  - rewrite !(Qmult_comm (v' / e')). by apply Qmult_le_compat_r.
  - rewrite Qmult_comm, Qmult_div_r by done. rewrite Hvv. apply Qle_refl.
Qed.

Lemma clip_monotone (x y : Q) :
  x <= y ->
  (if flt fone x then fone else x) <= (if flt fone y then fone else y).
Proof.
  intros Hxy. destruct (flt fone x) eqn:Ex, (flt fone y) eqn:Ey.
  - apply Qle_refl.
  - apply Q_flt_true in Ex. apply Q_flt_false in Ey.
    apply Qlt_le_weak. by apply (Qlt_le_trans _ x).
  - by apply Q_flt_false in Ex.
  - done.
Qed.

(** A smaller (or equal) raw p-value never gets a larger adjusted one;
    in particular equal raw p-values get equal adjusted ones. *)
Lemma fdrcorrection_monotone (pvals : list Q) a b pa pb :
  Forall (Qle 0) pvals ->
  pvals !! a = Some pa -> pvals !! b = Some pb -> pa <= pb ->
  exists qa qb, fdrcorrection pvals !! a = Some qa /\
    fdrcorrection pvals !! b = Some qb /\ qa <= qb.
Proof.
  intros Hpos Ha Hb Hab.
  destruct (argsort_lookup pvals a pa Ha) as (ra & Hra).
  destruct (argsort_lookup pvals b pb Hb) as (rb & Hrb).
  set (vs := (argsort pvals).*1).
  set (m := length vs).
  set (raw := zip_with fdiv vs (ecdf m)).
  set (sm := reverse (minimum_accumulate (reverse raw))).
  assert (Hm : m = length pvals) by (unfold m, vs; list_lengths; done).
  assert (Hlen : length sm = m).
  { unfold sm, raw. list_lengths. lia. }
  assert (Hraw : forall t x, raw !! t = Some x -> exists v,
            vs !! t = Some v /\ (t < m)%nat /\
            x = v / (inject_Z (Z.of_nat (S t)) / inject_Z (Z.of_nat m))).
  { intros t x Hx. unfold raw in Hx.
    apply lookup_zip_with_Some in Hx as (v & e & -> & Hv & He).
    unfold ecdf in He. rewrite list_lookup_fmap in He.
    destruct (seq 1 m !! t) as [k|] eqn:Hk; [|done].
    apply lookup_seq in Hk as [-> Hk]. injection He as <-.
    exists v. by repeat split. }
  assert (Hvs0 : forall t v, vs !! t = Some v -> 0 <= v).
  { intros t v Hv. assert (Hin : v ∈ pvals).
    { rewrite <- (argsort_values pvals). by eapply list_elem_of_lookup_2. }
    rewrite Forall_forall in Hpos. by apply Hpos. }
  assert (Hsorted : forall i j x y, (i <= j)%nat ->
            vs !! i = Some x -> vs !! j = Some y -> x <= y).
  { intros i j x y Hij Hx Hy. unfold vs in Hx, Hy.
    rewrite list_lookup_fmap in Hx, Hy.
    destruct (argsort pvals !! i) as [px|] eqn:Hpx; [|done].
    destruct (argsort pvals !! j) as [py|] eqn:Hpy; [|done].
    injection Hx as <-. injection Hy as <-.
    by apply (StronglySorted_lookup_le _ i j _ _ (argsort_sorted pvals)). }
  assert (Hout : forall k r p, pvals !! k = Some p ->
            argsort pvals !! r = Some (p, k) ->
            exists s, sm !! r = Some s /\
              fdrcorrection pvals !! k
              = Some (if flt fone s then fone else s)).
  { intros k r p Hk Hr.
    destruct (lookup_lt_is_Some_2 sm r) as [s Hs].
    { rewrite Hlen, Hm, <- (length_argsort pvals).
      by apply lookup_lt_Some in Hr. }
    exists s. split; [done|]. unfold fdrcorrection.
    apply (scatter_lookup _ _ r).
    - rewrite (argsort_indices pvals). apply NoDup_seq.
    - list_lengths. lia.
    - list_lengths. apply lookup_lt_Some in Hk. lia.
    - by rewrite list_lookup_fmap, Hr.
    - rewrite list_lookup_fmap. fold vs m raw sm. by rewrite Hs. }
  destruct (Hout a ra pa Ha Hra) as (sa & Hsa & Hqa).
  destruct (Hout b rb pb Hb Hrb) as (sb & Hsb & Hqb).
  eexists _, _. split; [exact Hqa|]. split; [exact Hqb|].
  apply clip_monotone.
  destruct (suffix_minimum_lookup raw ra sa Hsa) as [Hale Haglb].
  destruct (suffix_minimum_lookup raw rb sb Hsb) as [Hble Hbglb].
  apply Hbglb. intros t x Ht Hx.
  destruct (decide (ra <= t)%nat) as [Hrat|Hrat]; [by apply (Hale t)|].
  (* rb <= t < ra: the values from rb to ra are all equal *)
  assert (Hva : vs !! ra = Some pa) by (unfold vs; by rewrite list_lookup_fmap, Hra).
  assert (Hvb : vs !! rb = Some pb) by (unfold vs; by rewrite list_lookup_fmap, Hrb).
  destruct (Hraw t x Hx) as (v & Hv & Htm & ->).
  assert (Hba : pb <= pa) by (apply (Hsorted rb ra); [lia|done..]).
  assert (Hvpa : v == pa).
  { apply Qle_antisym.
    - apply (Hsorted t ra); [lia|done..].
    - apply (Qle_trans _ pb); [done|]. by apply (Hsorted rb t). }
  destruct (lookup_lt_is_Some_2 raw ra) as [xa Hxa].
  { unfold raw. list_lengths. apply lookup_lt_Some in Hva. fold vs m in Hva |- *.
    unfold m. lia. }
  destruct (Hraw ra xa Hxa) as (va & Hva' & Ham & ->).
  assert (va = pa) as -> by congruence.
  apply (Qle_trans _ _ _ (Hale ra _ ltac:(lia) Hxa)).
  apply ecdf_quotient_antitone; [lia|lia|by apply (Hvs0 t)|done].
Qed.
End fdrcorrection_monotone.

(** ** Consequences for [P] and for the counts *)

Lemma filter_length_Forall2 {A B} (R : A -> B -> Prop)
    (P : A -> Prop) (Q : B -> Prop)
    `{!forall x, Decision (P x)} `{!forall y, Decision (Q y)}
    (l : list A) (k : list B) :
  Forall2 R l k -> (forall x y, R x y -> Q y -> P x) ->
  length (filter Q k) <= length (filter P l).
Proof.
  intros HR Himp. induction HR as [|x y l k Hxy HR IH]; [done|].
  rewrite !filter_cons. destruct (decide (Q y)) as [Hq|Hq].
  - rewrite decide_True by (by apply (Himp x y)). simpl. lia.
  - destruct (decide (P x)); simpl; lia.
Qed.

Lemma filter_length_impl {A} (P Q : A -> Prop)
    `{!forall x, Decision (P x)} `{!forall x, Decision (Q x)} (l : list A) :
  (forall x, x ∈ l -> P x -> Q x) ->
  length (filter P l) <= length (filter Q l).
Proof.
  induction l as [|x l IH]; intros Himp; [done|].
  rewrite !filter_cons.
  assert (IH' : length (filter P l) <= length (filter Q l)).
  { apply IH. intros y Hy. apply Himp. by apply list_elem_of_further. }
  destruct (decide (P x)) as [Hp|Hp].
  - rewrite decide_True by (apply Himp; [apply list_elem_of_here|done]).
    simpl. lia.
  - destruct (decide (Q x)); simpl; lia.
Qed.

Section P_order.
Open Scope Q_scope.
Variable norm_sf : Q -> Q.

Lemma P_entry r c (Z : matrix Q) i j :
  shaped r c Z -> (i < r)%nat -> (j < c)%nat ->
  exists z, mget Z i j = Some z /\
    mget (P norm_sf Z).1 i j = Some (norm_sf (Qabs z) * inject_Z 2) /\
    concat (P norm_sf Z).1 !! (i * c + j)%nat
      = Some (norm_sf (Qabs z) * inject_Z 2) /\
    mget (P norm_sf Z).2 i j
      = fdrcorrection (concat (P norm_sf Z).1) !! (i * c + j)%nat.
Proof.
  intros HZ Hi Hj. destruct (shaped_mget r c Z i j HZ Hi Hj) as [z Hz].
  destruct (P_shapes norm_sf r c Z HZ) as (Hp & _ & Hraw).
  destruct (P_corrected norm_sf r c Z HZ) as [_ Hget].
  exists z. split; [done|]. split; [by apply Hraw|]. split.
  - rewrite (concat_lookup_shaped r c) by done. by apply Hraw.
  - by apply Hget.
Qed.

Lemma P_raw_nonneg (Z : matrix Q) :
  (forall x, 0 <= norm_sf x) -> Forall (Qle 0) (concat (P norm_sf Z).1).
Proof.
  intros Hsf. rewrite P_raw. apply Forall_forall. intros x Hx.
  apply list_elem_of_In, in_concat in Hx as (row & Hrow & Hx).
  apply list_elem_of_In, list_elem_of_fmap in Hrow as (zs & -> & _).
  apply list_elem_of_In, list_elem_of_fmap in Hx as (z & -> & _).
  simpl. apply Qmult_le_0_compat; [apply Hsf|by vm_compute].
Qed.

Lemma P_raw_range (Z : matrix Q) :
  (forall x, 0 <= x -> 0 <= norm_sf x /\ norm_sf x <= 1 # 2) ->
  Forall (fun p => 0 <= p <= 1) (concat (P norm_sf Z).1).
Proof.
  intros Hsf. rewrite P_raw. apply Forall_forall. intros x Hx.
  apply list_elem_of_In, in_concat in Hx as (row & Hrow & Hx).
  apply list_elem_of_In, list_elem_of_fmap in Hrow as (zs & -> & _).
  apply list_elem_of_In, list_elem_of_fmap in Hx as (z & -> & _).
  destruct (Hsf (Qabs z) (Qabs_nonneg z)) as [H0 H1]. simpl. split.
  - apply Qmult_le_0_compat; [done|by vm_compute].
  - apply (Qle_trans _ ((1 # 2) * inject_Z 2)).
    + apply Qmult_le_compat_r; [done|by vm_compute].
    + by vm_compute.
Qed.

(** For a Z matrix of numbers (no NaN), in exact arithmetic, and a
    non-negative tail function: the correction keeps the order of the
    entries; where the raw p-value is not larger, the corrected one is
    not larger.  (With a NaN in [Z] every corrected entry is NaN, see
    [P_nan_poisons].) *)
Theorem P_corrected_monotone (r c : nat) (Z : matrix Q) (i j i' j' : nat) :
  (forall x, 0 <= norm_sf x) ->
  shaped r c Z -> (i < r)%nat -> (j < c)%nat -> (i' < r)%nat -> (j' < c)%nat ->
  exists p p' q q',
    mget (P norm_sf Z).1 i j = Some p /\
    mget (P norm_sf Z).1 i' j' = Some p' /\
    mget (P norm_sf Z).2 i j = Some q /\
    mget (P norm_sf Z).2 i' j' = Some q' /\
    (p <= p' -> q <= q').
Proof.
  intros Hsf HZ Hi Hj Hi' Hj'.
  destruct (P_entry r c Z i j HZ Hi Hj) as (z & _ & Hp & Hflat & Hq).
  destruct (P_entry r c Z i' j' HZ Hi' Hj') as (z' & _ & Hp' & Hflat' & Hq').
  destruct (lookup_lt_is_Some_2 (fdrcorrection (concat (P norm_sf Z).1))
              (i * c + j)) as [q Hqv].
  { rewrite length_fdrcorrection. by apply lookup_lt_Some in Hflat. }
  destruct (lookup_lt_is_Some_2 (fdrcorrection (concat (P norm_sf Z).1))
              (i' * c + j')) as [q' Hqv'].
  { rewrite length_fdrcorrection. by apply lookup_lt_Some in Hflat'. }
  eexists _, _, q, q'. split; [exact Hp|]. split; [exact Hp'|].
  split; [by rewrite Hq|]. split; [by rewrite Hq'|].
  intros Hle.
  destruct (fdrcorrection_monotone _ _ _ _ _ (P_raw_nonneg Z Hsf)
              Hflat Hflat' Hle) as (qa & qb & Ha & Hb & Hab).
  congruence.
Qed.

(** For a Z matrix of numbers (no NaN), in exact arithmetic, and a
    non-negative tail function: the correction over the whole flattened
    matrix keeps a symmetric matrix symmetric; mirrored entries of [Z]
    that agree give the same raw p-value and equal corrected
    p-values. *)
Theorem P_symmetric (n : nat) (Z : matrix Q) (i j : nat) :
  (forall x, 0 <= norm_sf x) ->
  shaped n n Z -> (i < n)%nat -> (j < n)%nat ->
  mget Z i j = mget Z j i ->
  mget (P norm_sf Z).1 i j = mget (P norm_sf Z).1 j i /\
  exists q q', mget (P norm_sf Z).2 i j = Some q /\
    mget (P norm_sf Z).2 j i = Some q' /\ q == q'.
Proof.
  intros Hsf HZ Hi Hj Hsym.
  destruct (P_entry n n Z i j HZ Hi Hj) as (z & Hz & Hp & Hflat & Hq).
  destruct (P_entry n n Z j i HZ Hj Hi) as (z' & Hz' & Hp' & Hflat' & Hq').
  assert (z' = z) as -> by congruence.
  split; [by rewrite Hp, Hp'|].
  destruct (fdrcorrection_monotone _ _ _ _ _ (P_raw_nonneg Z Hsf)
              Hflat Hflat' (Qle_refl _)) as (qa & qb & Ha & Hb & Hab).
  destruct (fdrcorrection_monotone _ _ _ _ _ (P_raw_nonneg Z Hsf)
              Hflat' Hflat (Qle_refl _)) as (qb' & qa' & Hb' & Ha' & Hba).
  exists qa, qb. split; [by rewrite Hq|]. split; [by rewrite Hq'|].
  apply Qle_antisym; [done|]. congruence.
Qed.

(** The number of entries below 0.05 that [IDSCN] computes for a
    patient from the corrected matrix is at most the number of raw
    p-values below 0.05. *)
Theorem P_significant_count (r c : nat) (Z : matrix Q) :
  (forall x, 0 <= x -> 0 <= norm_sf x /\ norm_sf x <= 1 # 2) ->
  shaped r c Z ->
  (count_below_005 (P norm_sf Z).2 <= count_below_005 (P norm_sf Z).1)%nat.
Proof.
  intros Hsf HZ. unfold count_below_005.
  rewrite (P_corrected_flat norm_sf r c Z HZ).
  apply (filter_length_Forall2 Qle).
  - apply Forall2_same_length_lookup_2; [by rewrite length_fdrcorrection|].
    intros k x y Hx Hy.
    destruct (fdrcorrection_ge _ k x (P_raw_range Z Hsf) Hx) as (q & Hq & Hle).
    congruence.
  - intros x y Hxy Hy. apply Q_flt_true in Hy.
    destruct (flt x alpha_005) eqn:E; [done|]. apply Q_flt_false in E.
    exfalso. apply (Qlt_irrefl y).
    apply (Qlt_le_trans _ alpha_005); [done|]. by apply (Qle_trans _ x).
Qed.
End P_order.

Lemma P_corrected_monotone_witness :
  let sf := fun x : Q => if Qle_bool 2 x then (1 # 50)%Q else (1 # 4)%Q in
  let Z := [[1; 3]; [3; 1]]%Q in
  exists p p' q q',
    mget (P sf Z).1 0 1 = Some p /\ mget (P sf Z).1 0 0 = Some p' /\
    mget (P sf Z).2 0 1 = Some q /\ mget (P sf Z).2 0 0 = Some q' /\
    ((p <= p')%Q -> (q <= q')%Q).
Proof.
  intros sf Z. apply (P_corrected_monotone sf 2 2 Z 0 1 0 0); try lia.
  - intros x. unfold sf. by destruct (Qle_bool 2 x).
  - split; [reflexivity | repeat constructor].
Defined.

Lemma P_symmetric_witness :
  let sf := fun x : Q => if Qle_bool 2 x then (1 # 50)%Q else (1 # 4)%Q in
  let Z := [[1; 3]; [3; 1]]%Q in
  mget (P sf Z).1 0 1 = mget (P sf Z).1 1 0 /\
  exists q q', mget (P sf Z).2 0 1 = Some q /\
    mget (P sf Z).2 1 0 = Some q' /\ (q == q')%Q.
Proof.
  intros sf Z. apply (P_symmetric sf 2 Z 0 1); try lia.
  - intros x. unfold sf. by destruct (Qle_bool 2 x).
  - split; [reflexivity | repeat constructor].
  - reflexivity.
Defined.

Lemma P_significant_count_witness :
  let sf := fun x : Q => if Qle_bool 2 x then (1 # 50)%Q else (1 # 4)%Q in
  let Z := [[1; 3]; [3; 1]]%Q in
  count_below_005 (P sf Z).2 <= count_below_005 (P sf Z).1.
Proof.
  intros sf Z. apply (P_significant_count sf 2 2 Z).
  - intros x _. unfold sf. by destruct (Qle_bool 2 x).
  - split; [reflexivity | repeat constructor].
Defined.

(** ** Bounds on the aggregated counts *)

Lemma increments_Q (k : nat) : (increments (F := Q) k == inject_Z (Z.of_nat k))%Q.
Proof.
  induction k as [|k IH]; [reflexivity|].
  unfold increments in *. cbn [Nat.iter].
  change (Nat.iter k (fun x : Q => fadd x fone) fzero + 1
          == inject_Z (Z.of_nat (S k)))%Q.
  rewrite IH, Nat2Z.inj_succ, <- Z.add_1_r, inject_Z_plus. reflexivity.
Qed.

(** Over patients' Z matrices of one shape: at every position the
    count of [subtype] (FDR-corrected p below 0.05) is at most the
    count of [getConnection] with [fdr=False] (raw p below 0.05), which
    is at most the number of patients. *)
Theorem aggregation_counts_bounded (norm_sf : Q -> Q) (r c : nat)
    (Zs : list (matrix Q)) :
  (forall x, 0 <= x -> 0 <= norm_sf x /\ norm_sf x <= 1 # 2)%Q ->
  0 < r -> Zs <> [] -> Forall (shaped r c) Zs ->
  exists S_fdr S_raw,
    subtype_significant norm_sf Zs = Ok (Some S_fdr) /\
    getConnection_significant norm_sf false Zs = Ok (Some S_raw) /\
    forall i j, i < r -> j < c ->
      exists k_fdr k_raw x_fdr x_raw,
        mget S_fdr i j = Some x_fdr /\ mget S_raw i j = Some x_raw /\
        (x_fdr == inject_Z (Z.of_nat k_fdr))%Q /\
        (x_raw == inject_Z (Z.of_nat k_raw))%Q /\
        k_fdr <= k_raw <= length Zs.
Proof.
  intros Hsf Hr Hne Hall. rewrite Forall_forall in Hall.
  destruct (count_loop_spec (fun Z => (P norm_sf Z).2) r c Zs Hr Hne)
    as (S_fdr & Hfdr & _ & Hgf).
  { intros Z HZ. split; [by apply Hall|].
    by apply (P_corrected norm_sf r c Z), Hall. }
  destruct (count_loop_spec (fun Z => (P norm_sf Z).1) r c Zs Hr Hne)
    as (S_raw & Hraw & _ & Hgr).
  { intros Z HZ. split; [by apply Hall|].
    rewrite P_raw. by apply shaped_mmap, Hall. }
  exists S_fdr, S_raw.
  rewrite subtype_significant_eq, getConnection_significant_eq.
  split; [done|]. split; [done|]. intros i j Hi Hj.
  eexists _, _, _, _. split; [by apply Hgf|]. split; [by apply Hgr|].
  split; [apply increments_Q|]. split; [apply increments_Q|]. split.
  - unfold hits. apply filter_length_impl. intros Z HZ Hbelow.
    destruct (P_entry norm_sf r c Z i j (Hall Z HZ) Hi Hj)
      as (z & _ & Hp & Hflat & Hq).
    destruct (fdrcorrection_ge _ _ _ (P_raw_range norm_sf Z Hsf) Hflat)
      as (q & Hqv & Hle).
    unfold below_at in *. rewrite Hq, Hqv in Hbelow. rewrite Hp.
    apply Q_flt_true in Hbelow.
    destruct (flt _ alpha_005) eqn:E; [done|]. apply Q_flt_false in E.
    exfalso. apply (Qlt_irrefl q).
    apply (Qlt_le_trans _ alpha_005); [done|]. by apply (Qle_trans _ _ _ E).
  - unfold hits. apply length_filter.
Qed.

Lemma aggregation_counts_bounded_witness :
  let sf := fun x : Q => if Qle_bool 2 x then (1 # 50)%Q else (1 # 4)%Q in
  let Zs := [[[1; 3]; [3; 1]]%Q; [[1; 0]; [0; 1]]%Q] in
  exists S_fdr S_raw,
    subtype_significant sf Zs = Ok (Some S_fdr) /\
    getConnection_significant sf false Zs = Ok (Some S_raw) /\
    forall i j, i < 2 -> j < 2 ->
      exists k_fdr k_raw x_fdr x_raw,
        mget S_fdr i j = Some x_fdr /\ mget S_raw i j = Some x_raw /\
        (x_fdr == inject_Z (Z.of_nat k_fdr))%Q /\
        (x_raw == inject_Z (Z.of_nat k_raw))%Q /\
        k_fdr <= k_raw <= length Zs.
Proof.
  intros sf Zs. apply (aggregation_counts_bounded sf 2 2 Zs).
  - intros x _. unfold sf. by destruct (Qle_bool 2 x).
  - lia.
  - discriminate.
  - repeat constructor.
Defined.

(** ** [getTopLocs] in general *)

Lemma total_of_nonneg {K} (groups : list (rank_group K)) : (0 <= total_of groups)%Z.
Proof. induction groups as [|g gs IH]; simpl; lia. Qed.

Lemma getTopLocs_loop_spec {K} (count : list (rank_group K)) (num c : Z)
    (locs : list (nat * nat)) :
  ((c + total_of count < num)%Z ->
   getTopLocs_loop count num c locs = Raise IndexError) /\
  ((num <= c + total_of count)%Z ->
   exists k, k <= length count /\
     getTopLocs_loop count num c locs = Ok (locs ++ edges_of (take k count)) /\
     (num <= c + total_of (take k count))%Z /\
     forall k', k' < k -> (c + total_of (take k' count) < num)%Z).
Proof.
  revert c locs. induction count as [|g count IH]; intros c locs.
  - simpl. split.
    + intros Hlt. by rewrite (proj2 (Z.ltb_lt c num)) by lia.
    + intros Hle. exists 0. rewrite (proj2 (Z.ltb_ge c num)) by lia.
      split; [done|]. split; [by rewrite app_nil_r|].
      split; [simpl in *; lia|]. lia.
  - cbn [getTopLocs_loop total_of foldr]. fold (total_of count).
    destruct (IH (c + Z.of_nat g.2.1)%Z (locs ++ g.2.2)) as [IHr IHo].
    destruct (c <? num)%Z eqn:E.
    + apply Z.ltb_lt in E. split.
      * intros Hlt. apply IHr. lia.
      * intros Hle. destruct IHo as (k & Hk & Hrun & Hnum & Hmin); [lia|].
        exists (S k). split; [simpl; lia|]. split.
        { rewrite Hrun. unfold edges_of. cbn [take]. rewrite bind_cons.
          by rewrite app_assoc. }
        split.
        { cbn [take total_of foldr]. fold (total_of (take k count)). lia. }
        intros [|k'] Hk'; [simpl; lia|].
        cbn [take total_of foldr]. fold (total_of (take k' count)).
        specialize (Hmin k' ltac:(lia)). lia.
    + apply Z.ltb_ge in E. split.
      * intros Hlt. pose proof (total_of_nonneg count). lia.
      * intros _. exists 0. split; [lia|]. split; [by rewrite app_nil_r|].
        split; [simpl; lia|]. lia.
Qed.

(** [getTopLocs] returns the edges of the shortest run of leading
    groups whose edge numbers add up to at least [num] (no group at
    all when [num <= 0]), and raises IndexError when all the groups
    together carry fewer than [num]. *)
Theorem getTopLocs_spec {K} (count : list (rank_group K)) (num : Z) :
  ((total_of count < num)%Z -> getTopLocs count num = Raise IndexError) /\
  ((num <= total_of count)%Z ->
   exists k, k <= length count /\
     getTopLocs count num = Ok (edges_of (take k count)) /\
     (num <= total_of (take k count))%Z /\
     (forall k', k' < k -> (total_of (take k' count) < num)%Z) /\
     ((num <= 0)%Z -> k = 0)).
Proof.
  destruct (getTopLocs_loop_spec count num 0 []) as [Hr Ho]. split.
  - intros Hlt. apply Hr. lia.
  - intros Hle. destruct Ho as (k & Hk & Hrun & Hnum & Hmin); [lia|].
    exists k. split; [done|]. split; [done|]. split; [lia|]. split.
    + intros k' Hk'. specialize (Hmin k' Hk'). lia.
    + intros H0. destruct k as [|k]; [done|].
      specialize (Hmin 0 ltac:(lia)). simpl in Hmin. lia.
Qed.

Lemma getTopLocs_spec_witness :
  getTopLocs [(3%Z, (1, [(1, 0)])); (2%Z, (2, [(2, 0); (2, 1)]))] 5
  = Raise IndexError.
Proof.
  apply (proj1 (getTopLocs_spec
                  [(3%Z, (1, [(1, 0)])); (2%Z, (2, [(2, 0); (2, 1)]))] 5)).
  reflexivity.
Defined.


Lemma total_of_lengths {K} (groups : list (rank_group K)) :
  Forall (fun g => g.2.1 = length g.2.2) groups ->
  total_of groups = Z.of_nat (length (edges_of groups)).
Proof.
  induction 1 as [|g gs Hg _ IH]; [done|].
  unfold edges_of in *. rewrite bind_cons, length_app. simpl.
  rewrite IH, Hg. lia.
Qed.

(** When every group carries the number of its edges, as the groups of
    [draw_signifcant] do, a successful call returns at least [num]
    edges, and the groups before the last one consumed hold fewer than
    [num]. *)
Theorem getTopLocs_at_least {K} (count : list (rank_group K)) (num : Z)
    (locs : list (nat * nat)) :
  Forall (fun g => g.2.1 = length g.2.2) count ->
  getTopLocs count num = Ok locs ->
  (num <= Z.of_nat (length locs))%Z /\
  exists k, locs = edges_of (take k count) /\
    forall k', k' < k ->
      (Z.of_nat (length (edges_of (take k' count))) < num)%Z.
Proof.
  intros Hall Hrun. unfold getTopLocs in Hrun.
  destruct (getTopLocs_loop_spec count num 0 []) as [Hr Ho].
  destruct (decide (total_of count < num)%Z) as [Hlt|Hge].
  { rewrite Hr in Hrun by lia. done. }
  destruct Ho as (k & Hk & Hrun' & Hnum & Hmin); [lia|].
  rewrite Hrun' in Hrun. injection Hrun as <-. cbn [app].
  rewrite total_of_lengths in Hnum by (by apply Forall_take).
  split; [lia|]. exists k. split; [done|]. intros k' Hk'.
  rewrite <- total_of_lengths by (by apply Forall_take).
  specialize (Hmin k' Hk'). lia.
Qed.

Lemma getTopLocs_at_least_witness :
  let count := [(3%Z, (1, [(1, 0)])); (2%Z, (2, [(2, 0); (2, 1)]));
                (0%Z, (3, [(0, 0); (1, 1); (2, 2)]))] in
  let locs : list (nat * nat) := [(1, 0); (2, 0); (2, 1)] in
  (2 <= Z.of_nat (length locs))%Z /\
  exists k, locs = edges_of (take k count) /\
    forall k', k' < k ->
      (Z.of_nat (length (edges_of (take k' count))) < 2)%Z.
Proof.
  intros count locs. apply (getTopLocs_at_least count 2 locs).
  - repeat constructor.
  - reflexivity.
Defined.

(** ** [draw_signifcant] *)

Lemma for_each_fmap {S A B} (f : A -> B) (body : B -> S -> result S)
    (l : list A) (s : S) :
  for_each body (f <$> l) s = for_each (fun x => body (f x)) l s.
Proof.
  revert s. induction l as [|x l IH]; intros s; simpl; [done|].
  destruct (body (f x) s); simpl; [apply IH|done].
Qed.

Lemma for_each_bind {S A B} (f : A -> list B) (body : B -> S -> result S)
    (l : list A) (s : S) :
  for_each body (l ≫= f) s
  = for_each (fun x s => for_each body (f x) s) l s.
Proof.
  revert s. induction l as [|x l IH]; intros s; [done|].
  rewrite bind_cons, for_each_app. simpl.
  destruct (for_each body (f x) s); simpl; [apply IH|done].
Qed.

Lemma lower_positions_elem (n i j : nat) :
  (i, j) ∈ (seq 0 n ≫= fun i => (fun j => (i, j)) <$> seq 0 (i + 1))
  <-> j <= i < n.
Proof.
  rewrite list_elem_of_bind. split.
  - intros (i' & Hin & Hi'). apply list_elem_of_fmap in Hin as (j' & [= -> ->] & Hj').
    apply elem_of_seq in Hi', Hj'. lia.
  - intros Hij. exists i. split; [|apply elem_of_seq; lia].
    apply list_elem_of_fmap. exists j. split; [done|]. apply elem_of_seq. lia.
Qed.

Lemma lower_positions_NoDup (n : nat) :
  NoDup (seq 0 n ≫= fun i => (fun j => (i, j)) <$> seq 0 (i + 1)).
Proof.
  apply NoDup_bind; [| |apply NoDup_seq].
  - intros i1 i2 [a b] _ _ H1 H2.
    apply list_elem_of_fmap in H1 as (? & [= -> ->] & _).
    apply list_elem_of_fmap in H2 as (? & [= -> _] & _). done.
  - intros i _. apply NoDup_fmap_2; [|apply NoDup_seq].
    by intros j1 j2 [= ->].
Qed.

Section Ranking_properties.
Context {K : Type} `{EqDecision K}.

Lemma index_dict_add_keys (c : K) loc (d : list (rank_group K)) :
  (index_dict_add c loc d).*1 = if decide (c ∈ d.*1) then d.*1 else d.*1 ++ [c].
Proof.
  induction d as [|g d IH]; [done|]. cbn [index_dict_add fmap list_fmap].
  destruct (decide (g.1 = c)) as [<-|Hne].
  - by rewrite decide_True by apply list_elem_of_here.
  - cbn [fmap list_fmap]. rewrite IH.
    destruct (decide (c ∈ d.*1)) as [Hin|Hin].
    + by rewrite decide_True by (by apply list_elem_of_further).
    + rewrite decide_False; [done|].
      intros [?|?]%elem_of_cons; [congruence|done].
Qed.

Lemma index_dict_add_Forall (P : rank_group K -> Prop) (c : K) loc
    (d : list (rank_group K)) :
  Forall P d -> P (c, (1, [loc])) ->
  (forall g, P g -> g.1 = c -> P (g.1, (S g.2.1, g.2.2 ++ [loc]))) ->
  Forall P (index_dict_add c loc d).
Proof.
  intros Hd Hnew Hupd. induction Hd as [|g d Hg Hd IH]; simpl.
  - by repeat constructor.
  - destruct (decide (g.1 = c)) as [Heq|Hne]; constructor; auto.
Qed.

Lemma index_dict_add_edges (c : K) loc (d : list (rank_group K)) :
  edges_of (index_dict_add c loc d) ≡ₚ edges_of d ++ [loc].
Proof.
  unfold edges_of. induction d as [|g d IH]; [done|].
  cbn [index_dict_add]. destruct (decide (g.1 = c)) as [Heq|Hne].
  - rewrite !bind_cons. cbn [snd]. rewrite <- !app_assoc.
    apply Permutation_app_head, Permutation_app_comm.
  - rewrite !bind_cons, IH. by rewrite app_assoc.
Qed.

(** The dictionary loop on a square array: the groups have distinct
    keys, each carries the number of its edges, an edge sits in the
    group keyed by the array's entry there, and the edges of all groups
    are the positions of the lower triangle, diagonal included, each
    once. *)
Lemma index_dict_of_spec (n : nat) (count : matrix K) :
  shaped n n count ->
  exists d, index_dict_of count = Ok d /\
    NoDup d.*1 /\
    Forall (fun g => g.2.1 = length g.2.2 /\
              forall loc, loc ∈ g.2.2 -> mget count loc.1 loc.2 = Some g.1) d /\
    edges_of d ≡ₚ (seq 0 n ≫= fun i => (fun j => (i, j)) <$> seq 0 (i + 1)).
Proof.
  intros Hc.
  set (body := fun (ij : nat * nat) (d : list (rank_group K)) =>
                 c ← read count ij.1 ij.2; Ok (index_dict_add c ij d)).
  set (L := seq 0 n ≫= fun i => (fun j => (i, j)) <$> seq 0 (i + 1)).
  assert (Hflat : index_dict_of count = for_each body L []).
  { unfold index_dict_of, for_range, L. destruct Hc as [-> _].
    rewrite Nat.sub_0_r, for_each_bind. apply for_each_ext. intros i d.
    by rewrite for_each_fmap, Nat.sub_0_r. }
  rewrite Hflat.
  destruct (for_each_invariant
    (fun done d =>
       NoDup d.*1 /\
       Forall (fun g => g.2.1 = length g.2.2 /\
                 forall loc, loc ∈ g.2.2 ->
                   mget count loc.1 loc.2 = Some g.1) d /\
       edges_of d ≡ₚ done)
    body L []) as (d & Hrun & Hinv).
  - split; [apply NoDup_nil_2|]. split; [constructor|done].
  - intros done [i j] d (Hnd & Hall & Hperm) (rest & HL).
    assert (Hij : j <= i < n).
    { apply lower_positions_elem. fold L. rewrite HL.
      apply elem_of_app. right. apply list_elem_of_here. }
    unfold body. cbn [fst snd].
    destruct (shaped_mget n n count i j Hc) as [c Hcv]; [lia..|].
    unfold read. rewrite Hcv. cbn [mbind result_bind].
    eexists. split; [done|]. split; [|split].
    + rewrite index_dict_add_keys. case_decide; [done|].
      apply NoDup_app. split; [done|]. split; [|apply NoDup_singleton].
      intros x Hx [= ->]%list_elem_of_singleton. done.
    + apply index_dict_add_Forall; [done| |].
      * split; [done|]. by intros loc [= ->]%list_elem_of_singleton.
      * intros g [Hlen Hlocs] Hkey. cbn [fst snd]. split.
        { rewrite length_app, Hlen. simpl. lia. }
        intros loc [Hin|[= ->]%list_elem_of_singleton]%elem_of_app;
          [by apply Hlocs|]. by rewrite Hkey.
    + by rewrite index_dict_add_edges, Hperm.
  - exists d. by destruct Hinv as (? & ? & ?).
Qed.

Variable key_lt : K -> K -> bool.

Lemma insert_descending_perm (g : rank_group K) l :
  insert_descending key_lt g l ≡ₚ g :: l.
Proof.
  induction l as [|h l IH]; simpl; [done|].
  destruct (key_lt g.1 h.1); [|done]. rewrite IH. apply Permutation_swap.
Qed.

Lemma sorted_reverse_perm (l : list (rank_group K)) :
  sorted_reverse key_lt l ≡ₚ l.
Proof.
  induction l as [|g l IH]; [done|].
  cbn [sorted_reverse foldr]. fold (sorted_reverse key_lt l).
  by rewrite insert_descending_perm, IH.
Qed.

Hypothesis key_lt_trans :
  forall a b c, key_lt a b = true -> key_lt b c = true -> key_lt a c = true.
Hypothesis key_lt_total :
  forall a b, a <> b -> key_lt a b = true \/ key_lt b a = true.

Lemma insert_descending_sorted (g : rank_group K) l :
  g.1 ∉ l.*1 ->
  StronglySorted (descending key_lt) l ->
  StronglySorted (descending key_lt) (insert_descending key_lt g l).
Proof using key_lt_trans key_lt_total.
  intros Hg Hs. induction Hs as [|h l Hs IH Hh]; cbn [insert_descending].
  { repeat constructor. }
  cbn [fmap list_fmap] in Hg. apply not_elem_of_cons in Hg as [Hne Hg].
  destruct (key_lt g.1 h.1) eqn:E.
  - constructor; [by apply IH|]. rewrite insert_descending_perm.
    by constructor.
  - assert (Hhg : key_lt h.1 g.1 = true).
    { destruct (key_lt_total g.1 h.1 Hne); congruence. }
    constructor; [by constructor|]. constructor; [done|].
    eapply Forall_impl; [exact Hh|]. intros x Hx. unfold descending in *.
    by apply (key_lt_trans _ h.1).
Qed.

Lemma sorted_reverse_sorted (l : list (rank_group K)) :
  NoDup l.*1 -> StronglySorted (descending key_lt) (sorted_reverse key_lt l).
Proof using key_lt_trans key_lt_total.
  induction l as [|g l IH]; intros Hnd; [constructor|].
  cbn [fmap list_fmap] in Hnd. apply NoDup_cons in Hnd as [Hg Hnd].
  cbn [sorted_reverse foldr]. fold (sorted_reverse key_lt l).
  apply insert_descending_sorted; [|by apply IH].
  by rewrite (sorted_reverse_perm l).
Qed.

(** On a square count array [draw_signifcant] returns rank groups with
    strictly descending keys; each group carries the number of its
    edges; every position of the lower triangle, the diagonal included,
    occurs in exactly one group, the one keyed by the count at that
    position. *)
Theorem draw_signifcant_spec (n : nat) (count : matrix K) :
  shaped n n count ->
  exists groups, draw_signifcant key_lt count = Ok groups /\
    StronglySorted (descending key_lt) groups /\
    Forall (fun g => g.2.1 = length g.2.2 /\
              forall loc, loc ∈ g.2.2 -> mget count loc.1 loc.2 = Some g.1)
           groups /\
    NoDup (edges_of groups) /\
    forall i j, (i, j) ∈ edges_of groups <-> j <= i < n.
Proof using key_lt_trans key_lt_total.
  intros Hc. destruct (index_dict_of_spec n count Hc)
    as (d & Hrun & Hnd & Hall & Hperm).
  exists (sorted_reverse key_lt d). unfold draw_signifcant. rewrite Hrun.
  split; [done|]. split; [by apply sorted_reverse_sorted|].
  assert (Hedges : edges_of (sorted_reverse key_lt d)
                   ≡ₚ (seq 0 n ≫= fun i => (fun j => (i, j)) <$> seq 0 (i + 1))).
  { rewrite <- Hperm. unfold edges_of. by rewrite (sorted_reverse_perm d). }
  split; [by rewrite (sorted_reverse_perm d)|]. split.
  - rewrite Hedges. apply lower_positions_NoDup.
  - intros i j. rewrite Hedges. apply lower_positions_elem.
Qed.
End Ranking_properties.

Lemma draw_signifcant_spec_witness :
  let count := [[0; 9; 9]; [2; 0; 9]; [2; 1; 0]]%Z in
  exists groups, draw_signifcant Z.ltb count = Ok groups /\
    StronglySorted (descending Z.ltb) groups /\
    Forall (fun g => g.2.1 = length g.2.2 /\
              forall loc, loc ∈ g.2.2 -> mget count loc.1 loc.2 = Some g.1)
           groups /\
    NoDup (edges_of groups) /\
    forall i j, (i, j) ∈ edges_of groups <-> j <= i < 3.
Proof.
  intros count. apply (draw_signifcant_spec Z.ltb).
  - intros a b c Hab Hbc. apply Z.ltb_lt in Hab, Hbc. apply Z.ltb_lt. lia.
  - intros a b Hne. rewrite !Z.ltb_lt. lia.
  - split; [reflexivity | repeat constructor].
Defined.

(** ** Ranking and selection together *)

Lemma StronglySorted_lookup {A} (R : A -> A -> Prop) (l : list A) i j x y :
  StronglySorted R l -> i < j ->
  l !! i = Some x -> l !! j = Some y -> R x y.
Proof.
  intros Hs. revert i j. induction Hs as [|z l Hs IH Hz]; intros i j Hij Hi Hj.
  { done. }
  destruct i as [|i], j as [|j]; simpl in *; try lia.
  - injection Hi as <-. rewrite Forall_lookup in Hz. by apply (Hz j).
  - apply (IH i j); [lia|done..].
Qed.

Lemma edges_of_elem {K} (groups : list (rank_group K)) e :
  e ∈ edges_of groups <-> exists a g, groups !! a = Some g /\ e ∈ g.2.2.
Proof.
  unfold edges_of. rewrite list_elem_of_bind. split.
  - intros (g & He & Hg). apply list_elem_of_lookup in Hg as (a & Ha). eauto.
  - intros (a & g & Ha & He). exists g. split; [done|].
    by eapply list_elem_of_lookup_2.
Qed.

Section Selection.
Context {K : Type} `{EqDecision K}.
Variable key_lt : K -> K -> bool.
Hypothesis key_lt_trans :
  forall a b c, key_lt a b = true -> key_lt b c = true -> key_lt a c = true.
Hypothesis key_lt_total :
  forall a b, a <> b -> key_lt a b = true \/ key_lt b a = true.

(** The edges [getTopLocs] selects from the ranking of
    [draw_signifcant] are the best ones: every selected position has a
    strictly larger count than every position of the lower triangle
    that is left out. *)
Theorem selected_edges_have_top_counts (n : nat) (count : matrix K)
    (groups : list (rank_group K)) (num : Z) (locs : list (nat * nat))
    (e e' : nat * nat) :
  shaped n n count ->
  draw_signifcant key_lt count = Ok groups ->
  getTopLocs groups num = Ok locs ->
  e ∈ locs -> e'.2 <= e'.1 < n -> e' ∉ locs ->
  exists c c', mget count e.1 e.2 = Some c /\
    mget count e'.1 e'.2 = Some c' /\ key_lt c' c = true.
Proof using key_lt_trans key_lt_total.
  intros Hc Hdraw Htop He He' Hout.
  destruct (index_dict_of_spec n count Hc) as (d & Hrun & Hnd & Hall & Hperm).
  unfold draw_signifcant in Hdraw. rewrite Hrun in Hdraw.
  injection Hdraw as <-.
  pose proof (sorted_reverse_sorted key_lt key_lt_trans key_lt_total d Hnd)
    as Hsorted.
  assert (Hall' : Forall (fun g => g.2.1 = length g.2.2 /\
              forall loc, loc ∈ g.2.2 -> mget count loc.1 loc.2 = Some g.1)
            (sorted_reverse key_lt d)).
  { by rewrite (sorted_reverse_perm key_lt d). }
  set (groups := sorted_reverse key_lt d) in *.
  assert (Hlocs : exists k, locs = edges_of (take k groups)).
  { destruct (getTopLocs_loop_spec groups num 0 []) as [Hr Ho].
    unfold getTopLocs in Htop.
    destruct (decide (0 + total_of groups < num)%Z) as [Hlt|Hge].
    - rewrite (Hr Hlt) in Htop. done.
    - destruct Ho as (k & _ & Hrun' & _); [lia|]. exists k.
      rewrite app_nil_l in Hrun'. congruence. }
  destruct Hlocs as (k & ->).
  apply edges_of_elem in He as (a & g & Ha & Heg).
  apply lookup_take_Some in Ha as [Ha Hak].
  assert (He'in : e' ∈ edges_of groups).
  { unfold groups, edges_of. rewrite (sorted_reverse_perm key_lt d).
    fold (edges_of d). rewrite Hperm. destruct e' as [i j].
    by apply lower_positions_elem. }
  apply edges_of_elem in He'in as (b & g' & Hb & Heg').
  assert (Hkb : k <= b).
  { destruct (decide (k <= b)) as [|Hlt]; [done|]. exfalso. apply Hout.
    apply edges_of_elem. exists b, g'. split; [|done].
    apply lookup_take_Some. split; [done|lia]. }
  rewrite Forall_lookup in Hall'.
  destruct (Hall' a g Ha) as [_ Hcg]. destruct (Hall' b g' Hb) as [_ Hcg'].
  exists g.1, g'.1. split; [by apply Hcg|]. split; [by apply Hcg'|].
  apply (StronglySorted_lookup (descending key_lt) groups a b g g' Hsorted);
    [lia|done..].
Qed.
End Selection.

Lemma selected_edges_have_top_counts_witness :
  let count := [[0; 9; 9]; [2; 0; 9]; [2; 1; 0]]%Z in
  exists c c', mget count 2 0 = Some c /\ mget count 1 1 = Some c' /\
    (c' <? c)%Z = true.
Proof.
  intros count.
  apply (selected_edges_have_top_counts Z.ltb
    ltac:(intros a b c Hab Hbc; apply Z.ltb_lt in Hab, Hbc; apply Z.ltb_lt; lia)
    ltac:(intros a b Hne; rewrite !Z.ltb_lt; lia)
    3 count
    [(2%Z, (2, [(1, 0); (2, 0)])); (1%Z, (1, [(2, 1)]));
     (0%Z, (3, [(0, 0); (1, 1); (2, 2)]))]
    3 [(1, 0); (2, 0); (2, 1)] (2, 0) (1, 1)).
  - split; [reflexivity | repeat constructor].
  - reflexivity.
  - reflexivity.
  - apply list_elem_of_further, list_elem_of_here.
  - simpl. lia.
  - intros Hin.
    repeat (apply elem_of_cons in Hin as [Hin|Hin]; [congruence|]).
    by apply elem_of_nil in Hin.
Defined.

(** ** More on [SCN] *)

Section SCN_symmetry.
Context {F : Type} `{Number F}.
Open Scope num_scope.
Variable partial_corr : DataFrame F -> string -> string -> list string -> F.
Variable arctanh : F -> F.
Variable np_mean : list F -> F.
Variable np_std : list F -> F.

(** When every drawn index lies inside the pooled table, the Z matrix
    and the p matrix of [SCN] are symmetric, whatever the estimator
    returns: each value is computed once for [i < j] and stored at both
    positions. *)
Theorem SCN_symmetric cova region (ctrl pati : DataFrame F)
    n_permutations permutation :
  (forall k, (k < n_permutations)%nat ->
     Forall (fun x => (x < length (rows ctrl) + length (rows pati))%nat)
            (permutation k)) ->
  exists z_matrix p_matrix,
    SCN partial_corr arctanh np_mean np_std cova region ctrl pati
      n_permutations permutation = Ok (z_matrix, p_matrix) /\
    shaped (length region) (length region) z_matrix /\
    shaped (length region) (length region) p_matrix /\
    forall i j, (i < length region)%nat -> (j < length region)%nat ->
      mget z_matrix i j = mget z_matrix j i /\
      mget p_matrix i j = mget p_matrix j i.
Proof.
  intros Hperm.
  destruct (SCN_D_permuted_spec partial_corr cova region ctrl pati
              n_permutations permutation Hperm) as (D & HD & HlenD & HshD).
  set (n := length region) in *.
  set (diff_real := map2 fsub (PCC partial_corr cova region pati)
                              (PCC partial_corr cova region ctrl)).
  assert (Hdiff : shaped n n diff_real).
  { apply shaped_map2; apply PCC_shaped. }
  assert (Hlen : length diff_real = n) by (by destruct Hdiff).
  set (D_obs := mmap fabs (map2 fsub
                  (mmap arctanh (PCC partial_corr cova region ctrl))
                  (mmap arctanh (PCC partial_corr cova region pati)))).
  assert (Hobs : shaped n n D_obs).
  { apply shaped_mmap, shaped_map2; apply shaped_mmap, PCC_shaped. }
  destruct (fill_upper_entries n (fun i j =>
      obs ← read D_obs i j;
      null ← samples_at D i j;
      Ok ((obs - np_mean null) / np_std null)))
    as (z & Hz & Hzs & _ & Hze).
  { intros i j Hij.
    destruct (read_shaped n n D_obs i j Hobs) as (o & _ & ->); [lia..|].
    destruct (samples_at_shaped n D i j HshD) as (null & -> & _); [lia..|].
    by eexists. }
  destruct (fill_upper_entries n (fun i j =>
      d ← read diff_real i j;
      null ← samples_at D i j;
      Ok (SCN_p_value n_permutations d null)))
    as (p & Hp & Hps & _ & Hpe).
  { intros i j Hij.
    destruct (read_shaped n n diff_real i j Hdiff) as (o & _ & ->); [lia..|].
    destruct (samples_at_shaped n D i j HshD) as (null & -> & _); [lia..|].
    by eexists. }
  exists z, p. split.
  - unfold SCN. rewrite HD. cbn [mbind result_bind].
    fold diff_real. rewrite Hlen. fold D_obs.
    rewrite SCN_z_matrix_eq, Hz. cbn [mbind result_bind].
    rewrite SCN_p_matrix_eq, Hp. done.
  - split; [done|]. split; [done|]. intros i j Hi Hj.
    destruct (decide (i = j)) as [->|Hne]; [done|].
    destruct (decide (i < j)%nat) as [Hlt|Hge].
    + destruct (Hze i j) as (v & _ & -> & ->); [lia|].
      destruct (Hpe i j) as (w & _ & -> & ->); [lia|]. done.
    + destruct (Hze j i) as (v & _ & -> & ->); [lia|].
      destruct (Hpe j i) as (w & _ & -> & ->); [lia|]. done.
Qed.
End SCN_symmetry.

Lemma count_true_le {F} (f : F -> bool) (l : list F) :
  count_true f l <= length l.
Proof. unfold count_true. apply length_filter. Qed.

(** In exact arithmetic no permutation p-value exceeds 1: at most all
    of the [n_permutations] null samples are more extreme. *)
Theorem SCN_p_value_at_most_1
    (partial_corr : DataFrame Q -> string -> string -> list string -> Q)
    (arctanh : Q -> Q) (np_mean np_std : list Q -> Q)
    (cova region : list string) (ctrl pati : DataFrame Q)
    (n_permutations : nat) (permutation : nat -> list nat) :
  (forall k, k < n_permutations ->
     Forall (fun x => x < length (rows ctrl) + length (rows pati))
            (permutation k)) ->
  exists z_matrix p_matrix,
    SCN partial_corr arctanh np_mean np_std cova region ctrl pati
      n_permutations permutation = Ok (z_matrix, p_matrix) /\
    forall i j, i < length region -> j < length region -> i <> j ->
      exists p, mget p_matrix i j = Some p /\ (p <= 1)%Q.
Proof.
  intros Hperm.
  destruct (SCN_spec partial_corr arctanh np_mean np_std cova region
              ctrl pati n_permutations permutation Hperm)
    as (D & z & p & HD & Hrun & _ & Hedge).
  exists z, p. split; [done|].
  assert (Hbound : forall d null, length null = n_permutations ->
            (SCN_p_value n_permutations d null <= 1)%Q).
  { intros d null Hl. rewrite SCN_p_value_count. simpl.
    pose proof (count_true_le (more_extreme d) null) as Hc.
    apply Qle_shift_div_r.
    - rewrite <- (Zlt_Qlt 0). lia.
    - rewrite Qmult_1_l, <- Zle_Qle. lia. }
  intros i j Hi Hj Hne. destruct (decide (i < j)) as [Hlt|Hge].
  - destruct (Hedge i j) as (d & null & _ & _ & Hl & Hp & _); [lia|].
    eexists. split; [exact Hp|]. by apply Hbound.
  - destruct (Hedge j i) as (d & null & _ & _ & Hl & _ & Hp); [lia|].
    eexists. split; [exact Hp|]. by apply Hbound.
Qed.

Lemma SCN_symmetric_witness :
  let pc := fun (g : DataFrame float) (x y : string) (_ : list string) =>
              match rows g with
              | (a :: _) :: _ => (a / 8)%float
              | _ => 0.5%float
              end in
  let arctanh := fun x : float => (x + x * x * x / 3)%float in
  let mean := fun l : list float =>
                (foldr PrimFloat.add 0 l / float_of_Z (Z.of_nat (length l)))%float in
  let std := fun l : list float => 0.25%float in
  let ctrl := {| columns := ["age"; "r1"; "r2"];
                 rows := [[1; 1; 2]; [2; 2; 4.5]]%float |} in
  let pati := {| columns := ["age"; "r1"; "r2"];
                 rows := [[3; 3; 1]; [4; 1; 1]]%float |} in
  let permutation := fun k : nat =>
                       match k with 0 => [2; 0; 3; 1] | _ => [1; 3; 0; 2] end in
  exists z_matrix p_matrix,
    SCN pc arctanh mean std ["age"] ["r1"; "r2"] ctrl pati 2 permutation
      = Ok (z_matrix, p_matrix) /\
    shaped 2 2 z_matrix /\ shaped 2 2 p_matrix /\
    forall i j, i < 2 -> j < 2 ->
      mget z_matrix i j = mget z_matrix j i /\
      mget p_matrix i j = mget p_matrix j i.
Proof.
  intros pc arctanh mean std ctrl pati permutation.
  apply (SCN_symmetric pc arctanh mean std ["age"] ["r1"; "r2"]
           ctrl pati 2 permutation).
  intros k Hk. destruct k as [|[|k]]; [| |lia];
    repeat constructor; simpl; lia.
Defined.

Lemma SCN_p_value_at_most_1_witness :
  let pc := fun (g : DataFrame Q) (x y : string) (_ : list string) =>
              match rows g with
              | (a :: _) :: _ => (a / 8)%Q
              | _ => (1 # 2)%Q
              end in
  let arctanh := fun x : Q => (x + x * x * x / 3)%Q in
  let mean := fun l : list Q =>
                (foldr Qplus 0 l / inject_Z (Z.of_nat (length l)))%Q in
  let std := fun l : list Q => (1 # 4)%Q in
  let ctrl := {| columns := ["age"; "r1"; "r2"];
                 rows := [[1; 1; 2]; [2; 2; 9 # 2]]%Q |} in
  let pati := {| columns := ["age"; "r1"; "r2"];
                 rows := [[3; 3; 1]; [4; 1; 1]]%Q |} in
  let permutation := fun k : nat =>
                       match k with 0 => [2; 0; 3; 1] | _ => [1; 3; 0; 2] end in
  exists z_matrix p_matrix,
    SCN pc arctanh mean std ["age"] ["r1"; "r2"] ctrl pati 2 permutation
      = Ok (z_matrix, p_matrix) /\
    forall i j, i < 2 -> j < 2 -> i <> j ->
      exists p, mget p_matrix i j = Some p /\ (p <= 1)%Q.
Proof.
  intros pc arctanh mean std ctrl pati permutation.
  apply (SCN_p_value_at_most_1 pc arctanh mean std ["age"] ["r1"; "r2"]
           ctrl pati 2 permutation).
  intros k Hk. destruct k as [|[|k]]; [| |lia];
    repeat constructor; simpl; lia.
Defined.

(** ** The FDR step of [SCN] *)

Lemma triu_indices_elem (n i j : nat) : (i, j) ∈ triu_indices n <-> i < j < n.
Proof.
  unfold triu_indices. rewrite list_elem_of_bind. split.
  - intros (i' & Hin & Hi'). apply list_elem_of_bind in Hin as (j' & Hin & Hj').
    apply list_elem_of_singleton in Hin as [= -> ->].
    apply elem_of_seq in Hi', Hj'. lia.
  - intros Hij. exists i. split; [|apply elem_of_seq; lia].
    apply list_elem_of_bind. exists j. split; [by apply list_elem_of_singleton|].
    apply elem_of_seq. lia.
Qed.

Lemma tril_indices_elem (n i j : nat) : (i, j) ∈ tril_indices n <-> j < i < n.
Proof.
  unfold tril_indices. rewrite list_elem_of_bind. split.
  - intros (i' & Hin & Hi'). apply list_elem_of_bind in Hin as (j' & Hin & Hj').
    apply list_elem_of_singleton in Hin as [= -> ->].
    apply elem_of_seq in Hi', Hj'. lia.
  - intros Hij. exists i. split; [|apply elem_of_seq; lia].
    apply list_elem_of_bind. exists j. split; [by apply list_elem_of_singleton|].
    apply elem_of_seq. lia.
Qed.

Lemma index_pairs_NoDup (n : nat) (cols : nat -> list nat) :
  (forall i, NoDup (cols i)) ->
  NoDup (i ← seq 0 n; j ← cols i; [(i, j)]).
Proof.
  intros Hcols. apply NoDup_bind; [| |apply NoDup_seq].
  - intros i1 i2 [a b] _ _ H1 H2.
    apply list_elem_of_bind in H1 as (? & [= -> ->]%list_elem_of_singleton & _).
    apply list_elem_of_bind in H2 as (? & [= -> _]%list_elem_of_singleton & _).
    done.
  - intros i _. apply NoDup_bind; [| |apply Hcols].
    + intros j1 j2 [a b] _ _ [= _ ->]%list_elem_of_singleton
        [= _ ->]%list_elem_of_singleton. done.
    + intros j _. apply NoDup_singleton.
Qed.

Lemma transpose_rows_shaped {F} c (m : matrix F) :
  Forall (fun row => length row = c) m ->
  shaped c (length m) (transpose_rows c m).
Proof.
  induction 1 as [|row m Hrow _ IH]; simpl.
  - split; [apply length_replicate|]. by apply Forall_replicate.
  - destruct IH as [Hlen Hall]. split.
    + rewrite length_zip_with. lia.
    + apply Forall_lookup. intros k col Hcol.
      apply lookup_zip_with_Some in Hcol as (x & t & -> & _ & Ht).
      rewrite Forall_lookup in Hall. simpl. by rewrite (Hall k t Ht).
Qed.

Lemma transpose_rows_lookup {F} c (m : matrix F) i j :
  Forall (fun row => length row = c) m -> i < c ->
  mget (transpose_rows c m) i j = mget m j i.
Proof.
  intros Hrows Hi. revert j.
  induction Hrows as [|row m Hrow Hrows IH]; intros j; simpl.
  - unfold mget. rewrite lookup_replicate_2 by done. simpl.
    by rewrite !lookup_nil.
  - unfold mget in *. rewrite lookup_zip_with.
    destruct (lookup_lt_is_Some_2 row i) as [x Hx]; [lia|]. rewrite Hx.
    destruct (lookup_lt_is_Some_2 (transpose_rows c m) i) as [t Ht].
    { destruct (transpose_rows_shaped c m Hrows) as [-> _]. done. }
    rewrite Ht. simpl. destruct j as [|j]; simpl; [by rewrite Hx|].
    specialize (IH j). by rewrite Ht in IH.
Qed.

Lemma transpose_lookup {F} r c (m : matrix F) i j :
  shaped r c m -> 0 < r -> i < c ->
  mget (transpose m) i j = mget m j i.
Proof.
  intros Hm Hr Hi. unfold transpose. rewrite (shaped_shape r c m Hm Hr).
  apply transpose_rows_lookup; [by destruct Hm|done].
Qed.

Lemma mapM_Ok_lookup {A B} (f : A -> result B) (l : list A) :
  (forall x, x ∈ l -> exists y, f x = Ok y) ->
  exists ys, mapM f l = Ok ys /\ length ys = length l /\
    forall k x y, l !! k = Some x -> ys !! k = Some y -> f x = Ok y.
Proof.
  induction l as [|x l IH]; intros Hf; simpl.
  - exists []. split; [done|]. split; [done|]. by intros k x y Hx.
  - destruct (Hf x) as (y & Hy); [apply list_elem_of_here|].
    destruct IH as (ys & Hys & Hlen & Hget).
    { intros z Hz. apply Hf. by apply list_elem_of_further. }
    rewrite Hy. cbn [mbind result_bind]. rewrite Hys. cbn [mbind result_bind].
    exists (y :: ys). split; [done|]. split; [by rewrite <- Hlen|].
    intros [|k] x' y' Hx' Hy'; simpl in *; [congruence|by eapply Hget].
Qed.

(** Reading through an index list inside the array. *)
Lemma take_at_spec {F} r c (m : matrix F) (idx : list (nat * nat)) :
  shaped r c m -> (forall ij, ij ∈ idx -> ij.1 < r /\ ij.2 < c) ->
  exists vals, take_at m idx = Ok vals /\ length vals = length idx /\
    forall k ij, idx !! k = Some ij -> vals !! k = mget m ij.1 ij.2.
Proof.
  intros Hm Hin. unfold take_at.
  destruct (mapM_Ok_lookup (fun ij : nat * nat => read m ij.1 ij.2) idx)
    as (vals & Hrun & Hlen & Hget).
  - intros ij Hij. destruct (Hin ij Hij) as [Hi Hj].
    destruct (read_shaped r c m ij.1 ij.2 Hm Hi Hj) as (v & _ & Hv). eauto.
  - exists vals. split; [done|]. split; [done|]. intros k ij Hk.
    destruct (lookup_lt_is_Some_2 vals k) as [v Hv].
    { rewrite Hlen. by apply lookup_lt_Some in Hk. }
    rewrite Hv. specialize (Hget k ij v Hk Hv). unfold read in Hget.
    by destruct (mget m ij.1 ij.2); simplify_eq.
Qed.

(** Storing through an index list without repetition inside the array:
    the listed positions receive their values, the others keep
    theirs. *)
Lemma store_at_spec {F} r c (m : matrix F) (idx : list (nat * nat))
    (vals : list F) :
  shaped r c m -> NoDup idx -> length idx = length vals ->
  (forall ij, ij ∈ idx -> ij.1 < r /\ ij.2 < c) ->
  exists m', store_at m idx vals = Ok m' /\ shaped r c m' /\
    (forall k ij, idx !! k = Some ij -> mget m' ij.1 ij.2 = vals !! k) /\
    (forall a b, (a, b) ∉ idx -> mget m' a b = mget m a b).
Proof.
  intros Hm Hnd Hlen Hin. unfold store_at. rewrite decide_True by done.
  destruct (for_each_invariant
    (fun done s => shaped r c s /\
       (forall w, w ∈ done -> mget s w.1.1 w.1.2 = Some w.2) /\
       (forall a b, (a, b) ∉ done.*1 -> mget s a b = mget m a b))
    (fun (w : nat * nat * F) s => mset s w.1.1 w.1.2 w.2)
    (zip idx vals) m) as (m' & Hrun & Hs & Hdone & Hother).
  - split; [done|]. split; [by intros w Hw%elem_of_nil|done].
  - intros done [[i j] v] s (Hs & Hd & Ho) (rest & Hz).
    assert (Hfst : idx = done.*1 ++ (i, j) :: rest.*1).
    { rewrite <- (fst_zip idx vals) by lia. rewrite Hz, fmap_app. done. }
    assert (Hfresh : (i, j) ∉ done.*1).
    { rewrite Hfst in Hnd. apply NoDup_app in Hnd as (_ & Hdis & _).
      intros Hc. apply (Hdis _ Hc). apply list_elem_of_here. }
    destruct (Hin (i, j)) as [Hi Hj].
    { rewrite Hfst. apply elem_of_app. right. apply list_elem_of_here. }
    cbn [fst snd] in *.
    destruct (mset_spec r c s i j v Hs Hi Hj) as (s' & Hset & Hs' & Hget).
    exists s'. split; [done|]. split; [done|]. split.
    + intros w [Hw|Hw%list_elem_of_singleton]%elem_of_app.
      * rewrite Hget. rewrite decide_False; [by apply Hd|].
        intros [Ha Hb]. apply Hfresh. apply list_elem_of_fmap.
        exists w. split; [|done]. destruct w as [[a b] v']. simpl in *.
        congruence.
      * subst w. cbn [fst snd]. rewrite Hget. by rewrite decide_True.
    + intros a b Hab. rewrite fmap_app in Hab.
      apply not_elem_of_app in Hab as [Hab1 Hab2].
      rewrite Hget. rewrite decide_False; [by apply Ho|].
      intros [-> ->]. apply Hab2. apply list_elem_of_here.
  - exists m'. split; [done|]. split; [done|]. split.
    + intros k [a b] Hk. destruct (lookup_lt_is_Some_2 vals k) as [v Hv].
      { rewrite <- Hlen. by apply lookup_lt_Some in Hk. }
      rewrite Hv. apply (Hdone (a, b, v)).
      apply list_elem_of_lookup. exists k.
      by rewrite lookup_zip_with, Hk, Hv.
    + intros a b Hab. apply Hother. by rewrite fst_zip by lia.
Qed.

Section SCN_fdr_structure.
Context {F : Type} `{Number F}.

Lemma take_at_omap (m : matrix F) (idx : list (nat * nat)) (vals : list F) :
  take_at m idx = Ok vals ->
  omap (fun ij : nat * nat => mget m ij.1 ij.2) idx = vals.
Proof.
  unfold take_at, read. revert vals.
  induction idx as [|ij idx IH]; intros vals; simpl.
  - by intros [= <-].
  - destruct (mget m ij.1 ij.2) as [v|]; simpl; [|done].
    destruct (mapM _ idx) as [vs|e]; simpl; [|done].
    intros [= <-]. f_equal. by apply IH.
Qed.

Lemma triu_indices_small (n : nat) : n < 2 -> triu_indices n = [].
Proof. intros Hn. destruct n as [|[|n]]; [done|done|lia]. Qed.

(** With fewer than two regions the upper triangle is empty and the
    correction divides by zero. *)
Lemma SCN_fdr_p_small (n : nat) (p_matrix : matrix F) :
  n < 2 -> SCN_fdr_p n p_matrix = Raise ZeroDivisionError.
Proof.
  intros Hn. unfold SCN_fdr_p. by rewrite (triu_indices_small n Hn).
Qed.

(** The FDR step of [SCN] (lines 603-607) on an [n] by [n] array,
    [n >= 2]: the result is [n] by [n], 1 on the diagonal, equal to its
    transpose, and above the diagonal it holds the Benjamini-Hochberg
    values of the upper triangle of [p_matrix], taken row by row. *)
Lemma SCN_fdr_p_structure (n : nat) (p_matrix : matrix F) :
  shaped n n p_matrix -> 2 <= n ->
  exists fdr_p, SCN_fdr_p n p_matrix = Ok fdr_p /\
    shaped n n fdr_p /\
    (forall i, i < n -> mget fdr_p i i = Some fone) /\
    (forall i j, i < n -> j < n -> mget fdr_p i j = mget fdr_p j i) /\
    length (upper_triangle n p_matrix) = length (triu_indices n) /\
    (forall k i j, triu_indices n !! k = Some (i, j) ->
       upper_triangle n p_matrix !! k = mget p_matrix i j /\
       mget fdr_p i j = fdrcorrection (upper_triangle n p_matrix) !! k).
Proof.
  intros Hp Hn.
  assert (Htriu : forall ij, ij ∈ triu_indices n -> ij.1 < n /\ ij.2 < n).
  { intros [i j] Hij%triu_indices_elem. simpl. lia. }
  assert (Htril : forall ij, ij ∈ tril_indices n -> ij.1 < n /\ ij.2 < n).
  { intros [i j] Hij%tril_indices_elem. simpl. lia. }
  assert (Hnd_u : NoDup (triu_indices n)).
  { apply index_pairs_NoDup. intros i. apply NoDup_seq. }
  assert (Hnd_l : NoDup (tril_indices n)).
  { apply index_pairs_NoDup. intros i. apply NoDup_seq. }
  destruct (take_at_spec n n p_matrix (triu_indices n) Hp Htriu)
    as (pvals & Hpvals & Hlen_p & Hget_p).
  rewrite (take_at_omap _ _ _ Hpvals : upper_triangle n p_matrix = pvals).
  assert (Hne : length pvals <> 0).
  { rewrite Hlen_p.
    assert (Hin : (0, 1) ∈ triu_indices n) by (apply triu_indices_elem; lia).
    destruct (triu_indices n); [by apply elem_of_nil in Hin|done]. }
  destruct (store_at_spec n n (np_full fzero (n, n)) (triu_indices n)
              (fdrcorrection pvals) (shaped_np_full _ n n) Hnd_u)
    as (m1 & Hm1 & Hs1 & Hin1 & Hout1); [|done|].
  { by rewrite length_fdrcorrection. }
  assert (Hs1T : shaped n n (transpose m1)).
  { apply shaped_transpose; [done|lia]. }
  destruct (take_at_spec n n (transpose m1) (tril_indices n) Hs1T Htril)
    as (lower & Hlower & Hlen_l & Hget_l).
  destruct (store_at_spec n n m1 (tril_indices n) lower Hs1 Hnd_l)
    as (m2 & Hm2 & Hs2 & Hin2 & Hout2); [done|done|].
  destruct (set_diagonal_spec n m2 fone Hs2) as (m3 & Hm3 & Hs3 & Hget3).
  assert (Hupper : forall k i j, triu_indices n !! k = Some (i, j) ->
            mget m3 i j = fdrcorrection pvals !! k /\
            mget m3 j i = fdrcorrection pvals !! k).
  { intros k i j Hk.
    assert (Hij : i < j < n).
    { by apply triu_indices_elem, list_elem_of_lookup_2 with k. }
    assert (Hl : (j, i) ∈ tril_indices n) by (apply tril_indices_elem; lia).
    apply list_elem_of_lookup in Hl as [k' Hk'].
    split.
    - rewrite Hget3 by lia. rewrite decide_False by lia.
      rewrite Hout2; [apply (Hin1 k (i, j) Hk)|].
      intros Hc%tril_indices_elem. lia.
    - rewrite Hget3 by lia. rewrite decide_False by lia.
      pose proof (Hin2 k' (j, i) Hk') as Hji. cbn [fst snd] in Hji.
      rewrite Hji. rewrite (Hget_l k' (j, i) Hk').
      cbn [fst snd]. rewrite (transpose_lookup n n m1 j i Hs1) by lia.
      apply (Hin1 k (i, j) Hk). }
  exists m3. split.
  { unfold SCN_fdr_p, multipletests_fdr_bh. rewrite Hpvals.
    cbn [mbind result_bind]. rewrite decide_False by done.
    cbn [mbind result_bind]. rewrite Hm1. cbn [mbind result_bind].
    rewrite Hlower. cbn [mbind result_bind]. rewrite Hm2.
    cbn [mbind result_bind]. exact Hm3. }
  split; [done|]. split; [|split; [|split; [done|]]].
  - intros i Hi. rewrite Hget3 by done. by rewrite decide_True.
  - intros i j Hi Hj.
    destruct (lt_eq_lt_dec i j) as [[Hlt| ->]|Hlt]; [|done|].
    + assert (Hu : (i, j) ∈ triu_indices n) by by apply triu_indices_elem.
      apply list_elem_of_lookup in Hu as [k Hk].
      destruct (Hupper k i j Hk) as [-> ->]. done.
    + assert (Hu : (j, i) ∈ triu_indices n) by by apply triu_indices_elem.
      apply list_elem_of_lookup in Hu as [k Hk].
      destruct (Hupper k j i Hk) as [-> ->]. done.
  - intros k i j Hk. split; [apply (Hget_p k (i, j) Hk)|].
    by destruct (Hupper k i j Hk).
Qed.
End SCN_fdr_structure.

(** ** Clustering on the selected edges *)

Section select_k_properties.
Open Scope Q_scope.
Variable fit_predict : nat -> list (list Q) -> list nat.
Variable silhouette_score : list (list Q) -> list nat -> Q.
Variable cluster_source : list (list Q).

Lemma select_k_fold (ks : list nat) (st0 : option (list nat) * Q * nat) :
  let score k := silhouette_score cluster_source (fit_predict k cluster_source) in
  let st := foldl (fun st k =>
              select_k_step fit_predict silhouette_score cluster_source k st)
              st0 ks in
  (st = st0 /\ Forall (fun k => score k <= st0.1.2) ks) \/
  (exists pre k post, ks = pre ++ k :: post /\
     st = (Some (fit_predict k cluster_source), score k, k) /\
     st0.1.2 < score k /\
     Forall (fun k' => score k' < score k) pre /\
     Forall (fun k' => score k' <= score k) post).
Proof.
  intros score. revert st0.
  induction ks as [|k ks IH]; intros st0; cbn zeta; cbn [foldl].
  - left. by split.
  - assert (Hstep : select_k_step fit_predict silhouette_score cluster_source
                     k st0
                   = if flt st0.1.2 (score k)
                     then (Some (fit_predict k cluster_source), score k, k)
                     else st0) by reflexivity.
    rewrite Hstep. clear Hstep.
    destruct (flt st0.1.2 (score k)) eqn:Hlt.
    + apply Q_flt_true in Hlt.
      destruct (IH (Some (fit_predict k cluster_source), score k, k))
        as [[Hst Hall]|(pre & k' & post & Hks & Hst & Hk' & Hpre & Hpost)].
      * right. exists [], k, ks. split; [done|]. split; [exact Hst|].
        split; [done|]. split; [constructor|done].
      * right. exists (k :: pre), k', post. split; [by rewrite Hks|].
        split; [exact Hst|].
        cbn [fst snd] in Hk'. split; [by apply (Qlt_trans _ (score k))|].
        split; [by constructor|done].
    + apply Q_flt_false in Hlt.
      destruct (IH st0)
        as [[Hst Hall]|(pre & k' & post & Hks & Hst & Hk' & Hpre & Hpost)].
      * left. split; [exact Hst|]. by constructor.
      * right. exists (k :: pre), k', post. split; [by rewrite Hks|].
        split; [exact Hst|].
        split; [done|]. split; [|done].
        constructor; [by apply (Qle_lt_trans _ st0.1.2)|done].
Qed.

(** The choice of the number of clusters in [subtype] (lines 403-413):
    either no candidate among 2, 3, 4, 5 scores above -2 and the state
    stays [(None, -2, 1)], or the loop ends on the smallest [k] whose
    silhouette score is the largest one, with the labels and the score
    of that [k]. *)
Theorem select_k_spec :
  let score k := silhouette_score cluster_source (fit_predict k cluster_source) in
  (select_k fit_predict silhouette_score cluster_source
     = (None, inject_Z (-2), 1%nat) /\
   forall k, (2 <= k <= 5)%nat -> score k <= inject_Z (-2)) \/
  (exists k, (2 <= k <= 5)%nat /\
     select_k fit_predict silhouette_score cluster_source
       = (Some (fit_predict k cluster_source), score k, k) /\
     inject_Z (-2) < score k /\
     (forall k', (2 <= k' < k)%nat -> score k' < score k) /\
     (forall k', (k < k' <= 5)%nat -> score k' <= score k)).
Proof.
  intros score. unfold select_k.
  destruct (select_k_fold (seq 2 4) (None, fofZ (-2), 1%nat))
    as [[Hst Hall]|(pre & k & post & Hks & Hst & Hk & Hpre & Hpost)].
  - left. split; [exact Hst|]. intros k Hk. rewrite Forall_forall in Hall.
    apply (Hall k). apply elem_of_seq. lia.
  - right. exists k. cbn [fst snd] in Hk.
    assert (Hin : k ∈ seq 2 4).
    { rewrite Hks. apply elem_of_app. right. apply list_elem_of_here. }
    apply elem_of_seq in Hin.
    assert (Hsplit : pre = seq 2 (k - 2) /\ post = seq (S k) (5 - k)).
    { assert (Hk4 : (k = 2 \/ k = 3 \/ k = 4 \/ k = 5)%nat) by lia.
      cbn [seq] in Hks.
      destruct pre as [|a [|b [|c [|d pre]]]]; simplify_eq/=;
        try (by split); try lia.
      destruct pre; simplify_eq/=. }
    destruct Hsplit as [-> ->].
    split; [lia|]. split; [exact Hst|]. split; [exact Hk|]. split.
    + intros k' Hk'. rewrite Forall_forall in Hpre. apply (Hpre k').
      apply elem_of_seq. lia.
    + intros k' Hk'. rewrite Forall_forall in Hpost. apply (Hpost k').
      apply elem_of_seq. lia.
Qed.
End select_k_properties.

(** The grouping of the patients by label in [subtype] (lines 414-417):
    when every label is below [k_last] the loop returns [k_last] lists,
    and list [c] holds exactly the patients labelled [c], in the order
    of [pati]. *)
Theorem assign_clusters_spec (k_last : nat) (pati : list string)
    (dist_pred : list nat) :
  Forall (fun pc : string * nat => pc.2 < k_last) (zip pati dist_pred) ->
  exists clusters,
    assign_clusters k_last pati dist_pred = Ok clusters /\
    length clusters = k_last /\
    forall c, c < k_last ->
      clusters !! c
        = Some (filter (fun pc : string * nat => pc.2 = c)
                       (zip pati dist_pred)).*1.
Proof.
  intros Hall. unfold assign_clusters.
  apply (for_each_invariant
    (fun (done : list (string * nat)) (clusters : list (list string)) =>
       length clusters = k_last /\
       forall c, c < k_last ->
         clusters !! c
           = Some (filter (fun pc : string * nat => pc.2 = c) done).*1)).
  - split; [apply length_replicate|]. intros c Hc.
    by rewrite lookup_replicate_2.
  - intros done [p c] clusters [Hlen Hget] (rest & Hzip).
    assert (Hc : c < k_last).
    { rewrite Forall_forall in Hall. apply (Hall (p, c)).
      rewrite Hzip. apply elem_of_app. right. apply list_elem_of_here. }
    cbn [fst snd]. rewrite (Hget c Hc).
    eexists. split; [done|]. split; [by rewrite length_insert|].
    intros c' Hc'. rewrite filter_app, fmap_app.
    destruct (decide (c' = c)) as [->|Hne].
    + rewrite list_lookup_insert_eq by lia.
      rewrite filter_cons_True by done. done.
    + rewrite list_lookup_insert_ne by done.
      rewrite filter_cons_False by (simpl; congruence).
      rewrite filter_nil, app_nil_r. by apply Hget.
Qed.

Lemma assign_clusters_spec_witness :
  exists clusters,
    assign_clusters 2 ["a"; "b"; "c"] [1; 0; 1] = Ok clusters /\
    length clusters = 2 /\
    forall c, c < 2 ->
      clusters !! c
        = Some (filter (fun pc : string * nat => pc.2 = c)
                       (zip ["a"; "b"; "c"] [1; 0; 1])).*1.
Proof.
  apply (assign_clusters_spec 2 ["a"; "b"; "c"] [1; 0; 1]).
  repeat constructor.
Defined.

(** A label outside [range(k_last)] stops the grouping with
    IndexError. *)
Theorem assign_clusters_out_of_range (k_last : nat) (pati : list string)
    (dist_pred : list nat) :
  Exists (fun pc : string * nat => k_last <= pc.2) (zip pati dist_pred) ->
  assign_clusters k_last pati dist_pred = Raise IndexError.
Proof.
  unfold assign_clusters.
  assert (Hgen : forall (l : list (string * nat)) (clusters : list (list string)),
            Exists (fun pc : string * nat => length clusters <= pc.2) l ->
            for_each (fun (pc : string * nat) clusters =>
              match clusters !! pc.2 with
              | Some cl => Ok (<[pc.2 := cl ++ [pc.1]]> clusters)
              | None => Raise IndexError
              end) l clusters = Raise IndexError).
  { induction l as [|pc l IH]; intros clusters Hex.
    - by apply Exists_nil in Hex.
    - cbn [for_each]. destruct (clusters !! pc.2) as [cl|] eqn:Hcl; [|done].
      cbn [mbind result_bind]. apply IH. rewrite length_insert.
      apply Exists_cons in Hex as [Hhd|Htl]; [|done].
      apply lookup_lt_Some in Hcl. lia. }
  intros Hex. apply Hgen. by rewrite length_replicate.
Qed.

Lemma assign_clusters_out_of_range_witness :
  assign_clusters 2 ["a"; "b"; "c"] [1; 2; 0] = Raise IndexError.
Proof.
  apply (assign_clusters_out_of_range 2 ["a"; "b"; "c"] [1; 2; 0]).
  apply Exists_cons_tl, Exists_cons_hd. simpl. lia.
Defined.

(** ** The features handed to the clustering *)

Section cluster_features_properties.
Context {F : Type} `{Number F}.
Open Scope num_scope.

(** With a non-empty selection of edges inside every patient's matrix,
    [subtype] builds one feature row per patient, and entry [e] of
    patient [p] is one minus the patient's correlation at edge [e]. *)
Theorem cluster_features_spec (n : nat) (selected_edges : list (nat * nat))
    (PCCs : list (matrix F)) :
  selected_edges <> [] ->
  Forall (fun ij : nat * nat => (ij.1 < n /\ ij.2 < n)%nat) selected_edges ->
  Forall (shaped n n) PCCs ->
  exists cluster_source,
    cluster_features selected_edges PCCs = Ok cluster_source /\
    shaped (length PCCs) (length selected_edges) cluster_source /\
    forall p e PCCn_1 ij,
      PCCs !! p = Some PCCn_1 -> selected_edges !! e = Some ij ->
      exists v, mget PCCn_1 ij.1 ij.2 = Some v /\
        mget cluster_source p e = Some (fone - v).
Proof.
  intros Hne Hin HPCCs. unfold cluster_features.
  rewrite decide_False by done.
  assert (Hrow : forall PCCn_1, PCCn_1 ∈ PCCs ->
            exists vals, take_at PCCn_1 selected_edges = Ok vals /\
              length vals = length selected_edges /\
              (forall k ij, selected_edges !! k = Some ij ->
                 vals !! k = mget PCCn_1 ij.1 ij.2) /\
              edge_distances selected_edges PCCn_1
                = Ok ((fun v : F => fone - v) <$> vals)).
  { intros PCCn_1 Hp. rewrite Forall_forall in HPCCs.
    destruct (take_at_spec n n PCCn_1 selected_edges (HPCCs _ Hp))
      as (vals & Hvals & Hlen & Hget).
    { intros ij Hij. rewrite Forall_forall in Hin. by apply Hin. }
    exists vals. split; [done|]. split; [done|]. split; [done|].
    unfold edge_distances. by rewrite Hvals. }
  destruct (mapM_Ok_lookup (edge_distances selected_edges) PCCs)
    as (rows & Hrun & Hlen & Hget).
  { intros PCCn_1 Hp. destruct (Hrow _ Hp) as (vals & _ & _ & _ & Hd). eauto. }
  exists rows. split; [done|].
  assert (Hrows : forall p PCCn_1 row, PCCs !! p = Some PCCn_1 ->
            rows !! p = Some row ->
            exists vals, row = (fun v : F => fone - v) <$> vals /\
              length vals = length selected_edges /\
              forall k ij, selected_edges !! k = Some ij ->
                vals !! k = mget PCCn_1 ij.1 ij.2).
  { intros p PCCn_1 row Hp Hr. specialize (Hget p PCCn_1 row Hp Hr).
    destruct (Hrow PCCn_1) as (vals & _ & Hlv & Hv & Hd).
    { by apply list_elem_of_lookup_2 with p. }
    rewrite Hd in Hget. injection Hget as <-. by exists vals. }
  split; [split; [done|]|].
  - apply Forall_lookup. intros p row Hr.
    destruct (lookup_lt_is_Some_2 PCCs p) as [PCCn_1 Hp].
    { rewrite <- Hlen. by apply lookup_lt_Some in Hr. }
    destruct (Hrows p PCCn_1 row Hp Hr) as (vals & -> & Hlv & _).
    by rewrite length_fmap.
  - intros p e PCCn_1 ij Hp He.
    destruct (lookup_lt_is_Some_2 rows p) as [row Hr].
    { rewrite Hlen. by apply lookup_lt_Some in Hp. }
    destruct (Hrows p PCCn_1 row Hp Hr) as (vals & -> & Hlv & Hv).
    rewrite Forall_forall in Hin. rewrite Forall_forall in HPCCs.
    destruct (Hin ij) as [Hi Hj]; [by apply list_elem_of_lookup_2 with e|].
    destruct (shaped_mget n n PCCn_1 ij.1 ij.2) as [v Hmv];
      [by apply HPCCs, list_elem_of_lookup_2 with p|done..|].
    exists v. split; [done|]. unfold mget. rewrite Hr. cbn [mbind option_bind].
    by rewrite list_lookup_fmap, (Hv e ij He), Hmv.
Qed.

(** Asking [subtype] for no edge at all ([select_num <= 0]) selects
    nothing, and unpacking the empty selection into rows and columns
    raises ValueError, whatever the ranking and the patients. *)
Theorem subtype_cluster_source_nonpositive {K}
    (sorted_edges : list (rank_group K)) (select_num : Z)
    (PCCs : list (matrix F)) :
  (select_num <= 0)%Z ->
  subtype_cluster_source sorted_edges select_num PCCs = Raise ValueError.
Proof.
  intros Hnum. unfold subtype_cluster_source, getTopLocs.
  destruct sorted_edges as [|g gs]; cbn [getTopLocs_loop];
    rewrite (proj2 (Z.ltb_ge 0 select_num)) by lia; done.
Qed.
End cluster_features_properties.

Lemma cluster_features_spec_witness :
  let PCCs := [[[1; 1 # 2]; [1 # 2; 1]]; [[1; 1 # 4]; [1 # 4; 1]]]%Q in
  exists cluster_source,
    cluster_features [(1, 0)] PCCs = Ok cluster_source /\
    shaped 2 1 cluster_source /\
    forall p e PCCn_1 ij,
      PCCs !! p = Some PCCn_1 -> [(1, 0)] !! e = Some ij ->
      exists v, mget PCCn_1 ij.1 ij.2 = Some v /\
        mget cluster_source p e = Some (fsub fone v).
Proof.
  intros PCCs. apply (cluster_features_spec 2 [(1, 0)] PCCs).
  - done.
  - repeat constructor.
  - repeat constructor.
Defined.

Lemma subtype_cluster_source_nonpositive_witness :
  subtype_cluster_source [(3%Z, (1, [(1, 0)]))] 0
    [[[1; 1 # 2]; [1 # 2; 1]]%Q] = Raise ValueError.
Proof.
  apply (subtype_cluster_source_nonpositive (F := Q)). lia.
Defined.

(** ** The clean-up of the directory arguments *)

Lemma last_char_split (s : string) :
  s = EmptyString \/
  exists a, last_char s = Some a /\
    s = String.append (drop_last_char s) (String a EmptyString).
Proof.
  induction s as [|b s IH]; [by left|]. right.
  destruct IH as [->|(a & Ha & Hs)].
  - exists b. by split.
  - exists a. destruct s as [|c s]; [discriminate|].
    split; [exact Ha|].
    change (String b (String c s)
            = String b (String.append (drop_last_char (String c s))
                                      (String a EmptyString))).
    by rewrite <- Hs.
Qed.

(** The clean-up at the head of [generate_dataset], [IDSCN],
    [subtype], [getConnection] and [SCN]: the empty path raises
    IndexError; a path ending in [/] or [\] loses that one character
    and nothing more; any other path is kept. *)
Theorem strip_separator_spec (outpath : string) :
  match strip_separator outpath with
  | Raise e => e = IndexError /\ outpath = EmptyString
  | Ok s =>
      outpath = String.append s "/" \/ outpath = String.append s "\" \/
      (outpath = s /\ exists a, last_char s = Some a /\
         a <> "/"%char /\ a <> "\"%char)
  end.
Proof.
  unfold strip_separator.
  destruct (last_char_split outpath) as [->|(a & Ha & Hs)]; [done|].
  rewrite Ha. destruct (decide _) as [[->| ->]|Hnot].
  - by left.
  - right. by left.
  - right. right. split; [done|]. exists a. split; [done|].
    split; intros ->; apply Hnot; [by left|by right].
Qed.

(** ** Which runs of [IDSCN] can complete *)

Section IDSCN_runs.
Context {F : Type} `{Number F}.
Variable partial_corr : DataFrame F -> string -> string -> list string -> F.
Variable norm_sf : F -> F.

(** A patient row of the wrong length stops the loop in [mix_group]. *)
Lemma IDSCN_subject_malformed (cova region : list string)
    (ctrl : DataFrame F) (PCCn : matrix F) (sub : string) (p : list F)
    (st : frame * list (string * nat) * list (string * subject_files F)) :
  length p <> length cova + length region ->
  IDSCN_subject partial_corr norm_sf cova region ctrl PCCn (sub, p) st
  = Raise ValueError.
Proof.
  intros Hp. destruct st as [[df df_n] dirs].
  unfold IDSCN_subject, mix_group.
  rewrite decide_False by (by rewrite length_app). done.
Qed.

(** A patient met with a frame that is not the 2 by 2 frame of two
    regions stops the loop, whatever the patient's row is. *)
Lemma IDSCN_subject_raises (cova region : list string) (ctrl : DataFrame F)
    (PCCn : matrix F) (sub : string) (p : list F) (df : frame)
    (df_n : list (string * nat)) (dirs : list (string * subject_files F)) :
  0 < length region ->
  shaped (length region) (length region) PCCn ->
  ~ (nrows df = length region /\ ncols df = length region
     /\ length region = 2) ->
  IDSCN_subject partial_corr norm_sf cova region ctrl PCCn (sub, p)
    (df, df_n, dirs) = Raise ValueError.
Proof.
  intros Hn HPCCn Hnot.
  destruct (decide (length p = length cova + length region)) as [Hp|Hp].
  - by apply (IDSCN_subject_run partial_corr norm_sf cova region ctrl PCCn
                sub p df df_n dirs Hn HPCCn Hp).
  - by apply IDSCN_subject_malformed.
Qed.

(** A run of [IDSCN] over at least one region that completes had no
    patient to process, or exactly two regions and exactly one patient:
    with any other input the loop over the patients stops in an
    exception (the two-element row appended to the frame of region
    columns needs two columns, and once it is appended the next
    patient's matrices no longer fit the frame). *)
Theorem IDSCN_completes (cova region : list string) (ctrl pati : DataFrame F)
    (pati_subs : list string) (out : outputs F) :
  0 < length region ->
  length pati_subs = length (rows pati) ->
  IDSCN partial_corr norm_sf cova region ctrl pati_subs pati = Ok out ->
  rows pati = [] \/ (length region = 2 /\ length (rows pati) = 1).
Proof.
  intros Hn Hsubs Hrun.
  destruct (rows pati) as [|p ps] eqn:Hpati; [by left|]. right.
  destruct pati_subs as [|sub subs]; [done|].
  unfold IDSCN in Hrun. rewrite Hpati in Hrun.
  unfold iloc_assign at 1 in Hrun. cbn [nrows ncols] in Hrun.
  rewrite decide_True in Hrun.
  2:{ apply shaped_shape; [|done]. apply shaped_transpose; [|done].
      apply PCC_shaped. }
  cbn [mbind result_bind zip_with for_each] in Hrun.
  pose proof (PCC_shaped partial_corr cova region ctrl) as HPCCn.
  destruct (decide (length region = 2)) as [Hn2|Hn2].
  - split; [done|]. destruct ps as [|p2 ps]; [done|]. exfalso.
    destruct subs as [|sub2 subs]; [done|].
    destruct (decide (length p = length cova + length region)) as [Hp|Hp].
    + destruct (IDSCN_subject_run partial_corr norm_sf cova region ctrl
        (PCC partial_corr cova region ctrl) sub p
        {| nrows := length region; ncols := length region; appended := [] |}
        [] [] Hn HPCCn Hp) as [Hok _].
      destruct Hok as (cnt & files & Hok); [done|].
      rewrite Hok in Hrun. cbn [mbind result_bind zip_with for_each] in Hrun.
      rewrite IDSCN_subject_raises in Hrun; [done|done|done|].
      cbn [nrows ncols]. lia.
    + by rewrite IDSCN_subject_malformed in Hrun.
  - exfalso. rewrite IDSCN_subject_raises in Hrun; [done|done|done|].
    cbn [nrows ncols]. lia.
Qed.
End IDSCN_runs.

(** A run that completes: two regions and one patient, in binary64. *)
Lemma IDSCN_completes_witness :
  let pc := fun (g : DataFrame float) (x y : string) (_ : list string) =>
              (0.5 / float_of_Z (Z.of_nat (length (rows g))))%float in
  let sf := fun x : float => (0.5 / (1 + x * x))%float in
  let ctrl := {| columns := ["age"; "r1"; "r2"];
                 rows := [[30; 1; 2]; [40; 2; 1]; [50; 3; 5]]%float |} in
  let pati := {| columns := ["age"; "r1"; "r2"];
                 rows := [[35; 2; 2]]%float |} in
  (exists out, IDSCN pc sf ["age"] ["r1"; "r2"] ctrl ["s1"] pati = Ok out) /\
  (rows pati = [] \/ (length ["r1"; "r2"] = 2 /\ length (rows pati) = 1)).
Proof.
  intros pc sf ctrl pati.
  assert (Hrun : exists out,
            IDSCN pc sf ["age"] ["r1"; "r2"] ctrl ["s1"] pati = Ok out).
  { eexists. vm_compute. reflexivity. }
  split; [exact Hrun|]. destruct Hrun as [out Hout].
  apply (IDSCN_completes pc sf ["age"] ["r1"; "r2"] ctrl pati ["s1"] out);
    [simpl; lia|reflexivity|exact Hout].
Defined.

(** ** The FDR matrix written by [SCN] *)

Section SCN_P_FDR.
Open Scope Q_scope.
Variable partial_corr : DataFrame Q -> string -> string -> list string -> Q.
Variable arctanh : Q -> Q.
Variable np_mean : list Q -> Q.
Variable np_std : list Q -> Q.

Lemma SCN_p_matrix_shaped cova region (ctrl pati : DataFrame Q)
    n_permutations permutation z_matrix p_matrix :
  (forall k, (k < n_permutations)%nat ->
     Forall (fun x => (x < length (rows ctrl) + length (rows pati))%nat)
            (permutation k)) ->
  SCN partial_corr arctanh np_mean np_std cova region ctrl pati
    n_permutations permutation = Ok (z_matrix, p_matrix) ->
  shaped (length region) (length region) p_matrix.
Proof.
  intros Hperm.
  destruct (SCN_D_permuted_spec partial_corr cova region ctrl pati
              n_permutations permutation Hperm) as (D & HD & HlenD & HshD).
  set (n := length region) in *.
  set (diff_real := map2 fsub (PCC partial_corr cova region pati)
                              (PCC partial_corr cova region ctrl)).
  assert (Hdiff : shaped n n diff_real).
  { apply shaped_map2; apply PCC_shaped. }
  assert (Hlen : length diff_real = n) by (by destruct Hdiff).
  destruct (fill_upper_entries n (fun i j =>
      d ← read diff_real i j;
      null ← samples_at D i j;
      Ok (SCN_p_value n_permutations d null)))
    as (p & Hp & Hps & _ & Hpe).
  { intros i j Hij.
    destruct (read_shaped n n diff_real i j Hdiff) as (o & _ & ->); [lia..|].
    destruct (samples_at_shaped n D i j HshD) as (null & -> & _); [lia..|].
    by eexists. }
  unfold SCN. rewrite HD. cbn [mbind result_bind].
  fold diff_real. rewrite Hlen.
  destruct (SCN_z_matrix _ _ _) as [z|e]; [|done]. cbn [mbind result_bind].
  rewrite SCN_p_matrix_eq, Hp. cbn [mbind result_bind].
  by intros [= _ <-].
Qed.

(** The FDR matrix [SCN] writes to [SCN_P_FDR.csv], in a run that got
    as far as the two matrices.  With at least two regions the step
    completes; the matrix is [n] by [n], equal to its transpose, 1 on
    the diagonal, and at the [k]-th position [(i, j)] above the
    diagonal, counted row by row, it holds the [k]-th Benjamini-Hochberg
    value of the upper triangle of [p_matrix] alone, which lies between
    the (positive) permutation p-value of the edge and 1.  With a single
    region the upper triangle is empty and the step stops with
    ZeroDivisionError. *)
Theorem SCN_P_FDR_csv_spec cova region (ctrl pati : DataFrame Q)
    n_permutations permutation z_matrix p_matrix :
  (forall k, (k < n_permutations)%nat ->
     Forall (fun x => (x < length (rows ctrl) + length (rows pati))%nat)
            (permutation k)) ->
  SCN partial_corr arctanh np_mean np_std cova region ctrl pati
    n_permutations permutation = Ok (z_matrix, p_matrix) ->
  ((2 <= length region)%nat ->
   exists fdr_p,
     SCN_P_FDR_csv partial_corr arctanh np_mean np_std cova region ctrl
       pati n_permutations permutation = Ok fdr_p /\
     shaped (length region) (length region) fdr_p /\
     (forall i j, (i < length region)%nat -> (j < length region)%nat ->
        mget fdr_p i j = mget fdr_p j i) /\
     (forall i, (i < length region)%nat -> mget fdr_p i i = Some 1) /\
     length (upper_triangle (length region) p_matrix)
       = length (triu_indices (length region)) /\
     (forall k i j, triu_indices (length region) !! k = Some (i, j) ->
        exists p q,
          mget p_matrix i j = Some p /\
          upper_triangle (length region) p_matrix !! k = Some p /\
          fdrcorrection (upper_triangle (length region) p_matrix) !! k
            = Some q /\
          mget fdr_p i j = Some q /\ mget fdr_p j i = Some q /\
          0 < p /\ p <= q /\ q <= 1)) /\
  (length region = 1%nat ->
   SCN_P_FDR_csv partial_corr arctanh np_mean np_std cova region ctrl
     pati n_permutations permutation = Raise ZeroDivisionError).
Proof.
  intros Hperm Hrun.
  pose proof (SCN_p_matrix_shaped cova region ctrl pati n_permutations
                permutation z_matrix p_matrix Hperm Hrun) as Hps.
  assert (Hdiff : length (map2 fsub (PCC partial_corr cova region pati)
                                    (PCC partial_corr cova region ctrl))
                  = length region).
  { eapply proj1. apply shaped_map2; apply PCC_shaped. }
  split.
  2:{ intros Hn1. unfold SCN_P_FDR_csv. rewrite Hrun, Hdiff.
      cbn [mbind result_bind snd]. rewrite SCN_fdr_p_small by lia. done. }
  intros Hn.
  set (n := length region) in *.
  destruct (SCN_fdr_p_structure n p_matrix Hps Hn)
    as (fdr & Hfdr & Hfs & Hdiag & Hsym & Hlen & Hpin).
  assert (HT : forall i j, (i < n)%nat -> (j < n)%nat ->
            mget (transpose fdr) i j = mget fdr i j).
  { intros i j Hi Hj. rewrite (transpose_lookup n n fdr i j Hfs) by lia.
    by apply Hsym. }
  assert (Hedge : forall i j, (i < j < n)%nat ->
            exists p, mget p_matrix i j = Some p /\ 0 < p <= 1).
  { intros i j Hij.
    destruct (SCN_spec partial_corr arctanh np_mean np_std cova region
                ctrl pati n_permutations permutation Hperm)
      as (D & z & p & HD & Hrun' & _ & Hedge).
    rewrite Hrun in Hrun'. injection Hrun' as -> ->.
    destruct (Hedge i j Hij) as (d & null & _ & _ & Hl & Hp & _).
    eexists. split; [exact Hp|]. rewrite SCN_p_value_count. simpl.
    pose proof (count_true_le (more_extreme d) null) as Hc.
    split; [apply p_value_lower_bound|].
    apply Qle_shift_div_r.
    - rewrite <- (Zlt_Qlt 0). lia.
    - rewrite Qmult_1_l, <- Zle_Qle. lia. }
  assert (Hall : Forall (fun p => 0 <= p <= 1) (upper_triangle n p_matrix)).
  { apply Forall_lookup. intros k p Hk.
    destruct (lookup_lt_is_Some_2 (triu_indices n) k) as [[i j] Hij].
    { rewrite <- Hlen. by apply lookup_lt_Some in Hk. }
    destruct (Hpin k i j Hij) as [Hup _]. rewrite Hk in Hup.
    destruct (Hedge i j) as (p' & Hp' & H0 & H1).
    { by apply triu_indices_elem, list_elem_of_lookup_2 with k. }
    assert (p' = p) as -> by congruence.
    split; [by apply Qlt_le_weak|done]. }
  exists (transpose fdr). split.
  { unfold SCN_P_FDR_csv. rewrite Hrun, Hdiff. fold n.
    cbn [mbind result_bind snd]. by rewrite Hfdr. }
  split; [apply shaped_transpose; [done|lia]|].
  split; [intros i j Hi Hj; rewrite !HT by done; by apply Hsym|].
  split; [intros i Hi; rewrite HT by done; by apply Hdiag|].
  split; [done|].
  intros k i j Hk.
  assert (Hij : (i < j < n)%nat).
  { by apply triu_indices_elem, list_elem_of_lookup_2 with k. }
  destruct (Hpin k i j Hk) as [Hup Hval].
  destruct (Hedge i j Hij) as (p & Hp & H0 & H1).
  rewrite Hp in Hup.
  destruct (fdrcorrection_ge _ k p Hall Hup) as (q & Hq & Hle).
  exists p, q. split; [done|]. split; [done|]. split; [done|].
  rewrite !HT by lia. rewrite <- (Hsym i j) by lia.
  rewrite Hval, Hq. split; [done|]. split; [done|].
  split; [done|]. split; [done|].
  pose proof (fdrcorrection_le_1 (upper_triangle n p_matrix)) as Hle1.
  rewrite Forall_lookup in Hle1. by apply (Hle1 k).
Qed.
End SCN_P_FDR.

(** Three regions, two controls, two patients and two permutations. *)
Lemma SCN_P_FDR_csv_spec_witness :
  let pc := fun (g : DataFrame Q) (x y : string) (_ : list string) =>
              match rows g with
              | (a :: _) :: _ => (a / 8)%Q
              | _ => (1 # 2)%Q
              end in
  let arctanh := fun x : Q => (x + x * x * x / 3)%Q in
  let mean := fun l : list Q =>
                (foldr Qplus 0 l / inject_Z (Z.of_nat (length l)))%Q in
  let std := fun l : list Q => (1 # 4)%Q in
  let ctrl := {| columns := ["age"; "r1"; "r2"; "r3"];
                 rows := [[1; 1; 2; 3]; [2; 2; 9 # 2; 1]]%Q |} in
  let pati := {| columns := ["age"; "r1"; "r2"; "r3"];
                 rows := [[3; 3; 1; 2]; [4; 1; 1; 5]]%Q |} in
  let permutation := fun k : nat =>
                       match k with 0 => [2; 0; 3; 1] | _ => [1; 3; 0; 2] end in
  exists z_matrix p_matrix,
    SCN pc arctanh mean std ["age"] ["r1"; "r2"; "r3"] ctrl pati 2 permutation
      = Ok (z_matrix, p_matrix) /\
    exists fdr_p,
      SCN_P_FDR_csv pc arctanh mean std ["age"] ["r1"; "r2"; "r3"] ctrl pati 2
        permutation = Ok fdr_p /\
      shaped 3 3 fdr_p /\
      (forall i j, i < 3 -> j < 3 -> mget fdr_p i j = mget fdr_p j i) /\
      (forall i, i < 3 -> mget fdr_p i i = Some 1%Q) /\
      length (upper_triangle 3 p_matrix) = length (triu_indices 3) /\
      (forall k i j, triu_indices 3 !! k = Some (i, j) ->
         exists p q,
           mget p_matrix i j = Some p /\
           upper_triangle 3 p_matrix !! k = Some p /\
           fdrcorrection (upper_triangle 3 p_matrix) !! k = Some q /\
           mget fdr_p i j = Some q /\ mget fdr_p j i = Some q /\
           (0 < p)%Q /\ (p <= q)%Q /\ (q <= 1)%Q).
Proof.
  intros pc arctanh mean std ctrl pati permutation.
  eexists _, _. split; [vm_compute; reflexivity|].
  eapply (proj1 (SCN_P_FDR_csv_spec pc arctanh mean std ["age"]
                   ["r1"; "r2"; "r3"] ctrl pati 2 permutation _ _ _ _)).
  Unshelve.
  all: try (vm_compute; reflexivity).
  all: try (simpl; lia).
  intros k Hk. destruct k as [|[|k]]; [| |lia];
    repeat constructor; simpl; lia.
Defined.

(** ** NaN in the significance step *)

(** What binary64 does with NaN, from the IEEE specification of the
    operations. *)
Section float_nan.
Local Open Scope float_scope.

Lemma float_is_nan_spec (x : float) :
  PrimFloat.is_nan x = true <-> Prim2SF x = S754_nan.
Proof.
  unfold PrimFloat.is_nan. rewrite FloatAxioms.eqb_spec. unfold SFeqb.
  destruct (Prim2SF x) as [s|s| |s m e]; simpl; try (by split).
  - by destruct s.
  - destruct s; rewrite Z.compare_refl, Pos.compare_cont_refl; by split.
Qed.

Lemma float_abs_nan (x : float) :
  PrimFloat.is_nan x = true -> PrimFloat.is_nan (abs x) = true.
Proof.
  rewrite !float_is_nan_spec, abs_spec. by intros ->.
Qed.

Lemma float_mul_nan (x y : float) :
  PrimFloat.is_nan x = true -> PrimFloat.is_nan (x * y) = true.
Proof.
  rewrite !float_is_nan_spec, mul_spec. intros ->.
  unfold SF64mul, SFmul. by destruct (Prim2SF y).
Qed.

Lemma float_div_nan (x y : float) :
  PrimFloat.is_nan x = true -> PrimFloat.is_nan (x / y) = true.
Proof.
  rewrite !float_is_nan_spec, div_spec. intros ->.
  unfold SF64div, SFdiv. by destruct (Prim2SF y).
Qed.

Lemma float_ltb_nan_r (x y : float) :
  PrimFloat.is_nan y = true -> (x <? y) = false.
Proof.
  rewrite float_is_nan_spec, ltb_spec. intros ->.
  unfold SFltb, SFcompare. by destruct (Prim2SF x).
Qed.

Lemma float_ltb_nan_l (x y : float) :
  PrimFloat.is_nan x = true -> (x <? y) = false.
Proof.
  rewrite float_is_nan_spec, ltb_spec. by intros ->.
Qed.

Lemma float_eqb_nan_l (x y : float) :
  PrimFloat.is_nan x = true -> (x =? y) = false.
Proof.
  rewrite float_is_nan_spec, FloatAxioms.eqb_spec. by intros ->.
Qed.

Lemma float_minimum_nan (x y : float) :
  PrimFloat.is_nan x = true -> PrimFloat.is_nan (float_minimum x y) = true.
Proof. intros Hx. unfold float_minimum. by rewrite Hx. Qed.
End float_nan.

(** NaN through [fdrcorrection], for any arithmetic in which NaN is
    contagious and compares false. *)
Section fdrcorrection_nan.
Context {F : Type} `{Number F}.
Open Scope num_scope.
Hypothesis div_nan : forall x y : F, fisnan x = true -> fisnan (x / y) = true.
Hypothesis min_nan : forall x y : F, fisnan x = true -> fisnan (fmin x y) = true.
Hypothesis lt_nan_l : forall x y : F, fisnan x = true -> (x <? y) = false.
Hypothesis lt_nan_r : forall x y : F, fisnan y = true -> (x <? y) = false.

Lemma insert_sorted_nonempty (x : F * nat) l : insert_sorted x l <> [].
Proof.
  destruct l as [|y l]; cbn [insert_sorted]; [done|].
  by destruct (sorts_before y.1 x.1).
Qed.

Lemma insert_sorted_nan_last (x : F * nat) l :
  (Exists (fun y => fisnan y.1 = true) l -> nan_last l) ->
  Exists (fun y => fisnan y.1 = true) (x :: l) ->
  nan_last (insert_sorted x l).
Proof using lt_nan_l.
  induction l as [|y l IH]; intros Hinv Hex; cbn [insert_sorted].
  - apply Exists_cons in Hex as [Hx|Hex]; [|by apply Exists_nil in Hex].
    by exists x.
  - destruct (sorts_before y.1 x.1) eqn:Hbefore.
    + assert (Hy : fisnan y.1 = false).
      { destruct (fisnan y.1) eqn:Hy; [|done]. unfold sorts_before in Hbefore.
        rewrite (lt_nan_l _ _ Hy), Hy in Hbefore.
        by rewrite andb_false_r in Hbefore. }
      destruct IH as (z & Hz & Hnan).
      * intros Hl. destruct Hinv as (z & Hz & Hnan);
          [by apply Exists_cons_tl|].
        exists z. split; [|done]. destruct l; [by apply Exists_nil in Hl|done].
      * apply Exists_cons in Hex as [Hx|Hex]; [by apply Exists_cons_hd|].
        apply Exists_cons in Hex as [Hy'|Hex]; [congruence|].
        by apply Exists_cons_tl.
      * exists z. split; [|done].
        pose proof (insert_sorted_nonempty x l) as Hne.
        destruct (insert_sorted x l); done.
    + destruct Hinv as (z & Hz & Hnan).
      * apply Exists_cons in Hex as [Hx|Hex]; [|done].
        apply Exists_cons_hd. unfold sorts_before in Hbefore.
        rewrite Hx in Hbefore. apply orb_false_elim in Hbefore as [_ Hb].
        by destruct (fisnan y.1).
      * by exists z.
Qed.

Lemma foldr_insert_sorted_perm (l : list (F * nat)) :
  foldr insert_sorted [] l ≡ₚ l.
Proof.
  induction l as [|x l IH]; cbn [foldr]; [done|].
  by rewrite insert_sorted_perm, IH.
Qed.

Lemma Exists_Permutation {A} (P : A -> Prop) (l l' : list A) :
  l ≡ₚ l' -> Exists P l -> Exists P l'.
Proof.
  intros Hperm. rewrite !Exists_exists. intros (x & Hx & HP).
  exists x. split; [|done]. by rewrite <- Hperm.
Qed.

Lemma argsort_nan_last (pvals : list F) :
  Exists (fun p => fisnan p = true) pvals -> nan_last (argsort pvals).
Proof using lt_nan_l.
  intros Hex. unfold argsort.
  assert (Hex' : Exists (fun y : F * nat => fisnan y.1 = true)
                   (zip pvals (seq 0 (length pvals)))).
  { apply Exists_exists in Hex as (p & Hp & Hnan).
    apply list_elem_of_lookup in Hp as [k Hk].
    apply Exists_exists. exists (p, k). split; [|done].
    apply list_elem_of_lookup. exists k.
    rewrite lookup_zip_with, Hk. cbn [mbind option_bind].
    rewrite lookup_seq_lt by (by apply lookup_lt_Some in Hk). done. }
  clear Hex. revert Hex'.
  induction (zip pvals (seq 0 (length pvals))) as [|x l IH]; intros Hex.
  - by apply Exists_nil in Hex.
  - cbn [foldr]. apply insert_sorted_nan_last.
    + intros Hl. apply IH.
      by apply (Exists_Permutation _ _ _ (foldr_insert_sorted_perm l)).
    + apply Exists_cons in Hex as [Hx|Hex]; [by apply Exists_cons_hd|].
      apply Exists_cons_tl.
      apply (Exists_Permutation _ l); [|done].
      symmetry. apply foldr_insert_sorted_perm.
Qed.

Lemma minimum_accumulate_from_nan (acc : F) (l : list F) :
  fisnan acc = true ->
  Forall (fun x => fisnan x = true) (minimum_accumulate_from acc l).
Proof using min_nan.
  revert acc. induction l as [|x l IH]; intros acc Hacc; simpl;
    [constructor|].
  constructor; [by apply min_nan|]. apply IH. by apply min_nan.
Qed.

(** One NaN among the p-values and every adjusted p-value is NaN. *)
Lemma fdrcorrection_nan (pvals : list F) k q :
  Exists (fun p => fisnan p = true) pvals ->
  fdrcorrection pvals !! k = Some q -> fisnan q = true.
Proof using div_nan min_nan lt_nan_l lt_nan_r.
  intros Hex Hq.
  destruct (lookup_lt_is_Some_2 pvals k) as [v Hv].
  { rewrite <- (length_fdrcorrection pvals). by apply lookup_lt_Some in Hq. }
  destruct (fdrcorrection_lookup pvals k v Hv) as (r & x & _ & Hx & Hq').
  rewrite Hq' in Hq. injection Hq as <-.
  assert (Hall : Forall (fun x => fisnan x = true)
            (reverse (minimum_accumulate (reverse
               (zip_with fdiv (argsort pvals).*1
                          (ecdf (length (argsort pvals).*1))))))).
  { apply Forall_reverse.
    destruct (argsort_nan_last pvals Hex) as (y & Hy & Hnan).
    set (vs := (argsort pvals).*1) in *.
    assert (Hlast : last vs = Some y.1).
    { unfold vs. by rewrite fmap_last, Hy. }
    assert (Hraw : exists raw' e,
              zip_with fdiv vs (ecdf (length vs)) = raw' ++ [y.1 / e]).
    { destruct (last (ecdf (length vs))) as [e|] eqn:He.
      2:{ apply last_None in He. apply (f_equal length) in He.
          rewrite length_ecdf in He. apply nil_length_inv in He.
          by rewrite He in Hlast. }
      apply last_Some in Hlast as [vs' Hvs].
      apply last_Some in He as [es' Hes].
      exists (zip_with fdiv vs' es'), e. rewrite Hes, Hvs.
      rewrite zip_with_app; [done|].
      apply (f_equal length) in Hes.
      rewrite length_ecdf, Hvs, !length_app in Hes. simpl in Hes. lia. }
    destruct Hraw as (raw' & e & ->).
    rewrite reverse_app, reverse_singleton. cbn [app minimum_accumulate].
    constructor; [by apply div_nan|].
    apply minimum_accumulate_from_nan. by apply div_nan. }
  rewrite Forall_lookup in Hall. specialize (Hall r x Hx).
  by rewrite (lt_nan_r _ _ Hall).
Qed.
End fdrcorrection_nan.

(** A NaN in [Z] is a NaN among the raw p-values, and then every
    corrected entry of [P] is NaN. *)
Section P_nan.
Context {F : Type} `{Number F}.
Open Scope num_scope.
Variable norm_sf : F -> F.
Hypothesis abs_nan : forall x : F, fisnan x = true -> fisnan (fabs x) = true.
Hypothesis mul_nan : forall x y : F, fisnan x = true -> fisnan (x * y) = true.
Hypothesis div_nan : forall x y : F, fisnan x = true -> fisnan (x / y) = true.
Hypothesis min_nan : forall x y : F, fisnan x = true -> fisnan (fmin x y) = true.
Hypothesis lt_nan_l : forall x y : F, fisnan x = true -> (x <? y) = false.
Hypothesis lt_nan_r : forall x y : F, fisnan y = true -> (x <? y) = false.
Hypothesis sf_nan : forall x : F, fisnan x = true -> fisnan (norm_sf x) = true.

Lemma P_corrected_nan (r c : nat) (Z : matrix F) (i0 j0 : nat) (z : F) :
  shaped r c Z -> mget Z i0 j0 = Some z -> fisnan z = true ->
  forall i j, i < r -> j < c ->
    exists q, mget (P norm_sf Z).2 i j = Some q /\ fisnan q = true.
Proof using All.
  intros HZ Hz Hnan i j Hi Hj.
  destruct (P_corrected norm_sf r c Z HZ) as [Hsh Hget].
  destruct (shaped_mget r c _ i j Hsh Hi Hj) as [q Hq].
  exists q. split; [done|]. rewrite (Hget i j Hi Hj) in Hq.
  apply (fdrcorrection_nan div_nan min_nan lt_nan_l lt_nan_r _ _ _) in Hq;
    [done|].
  apply Exists_exists. exists (norm_sf (fabs z) * fofZ 2). split.
  - rewrite P_raw. unfold mget in Hz.
    destruct (Z !! i0) as [row|] eqn:Hrow; [|done]. cbn in Hz.
    apply list_elem_of_In, in_concat. exists ((fun z => norm_sf (fabs z) * fofZ 2) <$> row).
    split; apply list_elem_of_In.
    + unfold mmap. apply list_elem_of_fmap. exists row. split; [done|].
      by apply list_elem_of_lookup_2 with i0.
    + apply list_elem_of_fmap. exists z. split; [done|].
      by apply list_elem_of_lookup_2 with j0.
  - by apply mul_nan, sf_nan, abs_nan.
Qed.
End P_nan.

(** In binary64, with a tail function that maps NaN to NaN as
    [norm.sf] does: one NaN entry in [Z] (what [Z_score] returns where
    a zero difference meets a zero denominator) turns every entry of
    the FDR-corrected matrix returned by [P] into NaN, the entries
    whose raw p-value is a number included. *)
Theorem P_nan_poisons (norm_sf : float -> float) (r c : nat)
    (Z : matrix float) (i0 j0 : nat) (z : float) :
  (forall x, PrimFloat.is_nan x = true -> PrimFloat.is_nan (norm_sf x) = true) ->
  shaped r c Z -> mget Z i0 j0 = Some z -> PrimFloat.is_nan z = true ->
  forall i j, i < r -> j < c ->
    exists q, mget (P norm_sf Z).2 i j = Some q /\
      PrimFloat.is_nan q = true.
Proof.
  intros Hsf.
  apply (@P_corrected_nan float float_Number norm_sf float_abs_nan
           float_mul_nan float_div_nan float_minimum_nan float_ltb_nan_l
           float_ltb_nan_r Hsf).
Qed.

Lemma P_nan_poisons_witness :
  let sf := fun x : float =>
              if PrimFloat.eqb x 1 then 0x1.44ed0bb7cb20cp-3%float
              else nan in
  let Z := [[1; nan]; [nan; 1]]%float in
  exists q, mget (P sf Z).2 0 0 = Some q /\ PrimFloat.is_nan q = true.
Proof.
  intros sf Z.
  apply (P_nan_poisons sf 2 2 Z 0 1 nan).
  - intros x Hx. unfold sf. by rewrite (float_eqb_nan_l x 1 Hx).
  - split; [reflexivity | repeat constructor].
  - reflexivity.
  - reflexivity.
  - lia.
  - lia.
Defined.
